(** * Music-Notation-Parser: the notation grammar parser, embedded in Rocq

    The development follows the layout of the Python package:

    - [Py]            what the embedding needs of Python itself: values,
                      exceptions, [str()], truthiness, character predicates
                      and a state-and-exception monad;
    - [TokenType], [ClefType], [AlterationType], [Token]
                      (src/models/token.py);
    - [token]         the function of src/models/token.py;
    - [config]        the reference images and the six note tables
                      (src/config.py);
    - [image_utils]   the matching of a picture against the reference
                      images (src/utils/image_utils.py);
    - [image_parser]  class NotationImageParser (src/parsers/image_parser.py);
    - [excel_parser]  class ExcelReader (src/parsers/excel_parser.py);
    - [music_parser]  class MusicNotationParser (src/parsers/music_parser.py).

    Conventions.  A Python method that mutates [self] is a computation in the
    monad [Py.M S], where [S] is the record of the object's attributes.  An
    exception keeps the state reached when it was raised, as attribute
    assignments made before a [raise] stay visible to the handler.  Calls to
    [logger] do not touch any attribute and are left out.  Characters are
    the code points below 256, and the value of a cell is text.  The work
    book, the pictures anchored in it and the matching of a picture against
    the reference images are input: a sheet gives, cell by cell, the text
    and what the matching makes of the picture.  A method that calls itself
    takes the depth of calls still allowed as an argument, and RecursionError
    is what the interpreter raises when none is left. *)

From Stdlib Require Import List String Ascii ZArith Lia Bool.
From Stdlib Require Import DecimalString DecimalPos DecimalZ.
Import ListNotations.

Local Open Scope list_scope.
Local Open Scope string_scope.

(* ================================================================== *)
(** * Python                                                           *)
(* ================================================================== *)

Module Py.

(** The values a [Token.value] (declared [Optional[Union[str, int]]]) and
    the attributes assigned from it can hold. *)
Inductive Value :=
| VNone
| VStr (s : string)
| VInt (n : Z).

(** [str(v)], which is also what an f-string field [{v}] renders. *)
Definition str (v : Value) : string :=
  match v with
  | VNone => "None"
  | VStr s => s
  | VInt n => NilZero.string_of_int (Z.to_int n)
  end.

(** Truth value of [v] in a condition. *)
Definition truthy (v : Value) : bool :=
  match v with
  | VNone => false
  | VStr s => negb (String.eqb s "")
  | VInt n => negb (Z.eqb n 0)
  end.

(** [v == s] for a string [s] *)
Definition is_str (v : Value) (s : string) : bool :=
  match v with
  | VStr s' => String.eqb s' s
  | _ => false
  end.

(** [s.startswith(p)] *)
Definition startswith (s p : string) : bool := String.prefix p s.

(** ** Characters *)

Definition ord (c : ascii) : nat := nat_of_ascii c.

Definition between (lo hi n : nat) : bool := Nat.leb lo n && Nat.leb n hi.

(** [c.isspace()]: tab to carriage return, the four separators 28..31,
    the blank, NEL (133) and the no-break space (160). *)
Definition isspace (c : ascii) : bool :=
  let n := ord c in
  between 9 13 n || between 28 32 n || Nat.eqb n 133 || Nat.eqb n 160.

(** [c.isdigit()]: the ten decimal digits and the superscripts two, three
    and one (178, 179, 185). *)
Definition isdigit (c : ascii) : bool :=
  let n := ord c in
  between 48 57 n || Nat.eqb n 178 || Nat.eqb n 179 || Nat.eqb n 185.

(** [c.isalpha()]: the ASCII letters and the letters of Latin-1. *)
Definition isalpha (c : ascii) : bool :=
  let n := ord c in
  between 65 90 n || between 97 122 n
  || Nat.eqb n 170 || Nat.eqb n 181 || Nat.eqb n 186
  || between 192 214 n || between 216 246 n || between 248 255 n.

(** ** Exceptions *)

Inductive Exn :=
| RecursionError
| ValueError (msg : string)
| IndexError (msg : string)
| AttributeError (msg : string).

(** [str(e)]; for RecursionError, the text the interpreter gives it. *)
Definition exn_str (e : Exn) : string :=
  match e with
  | RecursionError => "maximum recursion depth exceeded"
  | ValueError msg | IndexError msg | AttributeError msg => msg
  end.

(** ** Computations over an object's attributes *)

Inductive Outcome (S A : Type) :=
| Ret (a : A) (s : S)
| Raise (e : Exn) (s : S).
Arguments Ret {S A} a s.
Arguments Raise {S A} e s.

Definition M (S A : Type) : Type := S -> Outcome S A.

Definition ret {S A} (a : A) : M S A := fun s => Ret a s.

Definition bind {S A B} (m : M S A) (k : A -> M S B) : M S B :=
  fun s => match m s with
           | Ret a s' => k a s'
           | Raise e s' => Raise e s'
           end.

Definition raise {S A} (e : Exn) : M S A := fun s => Raise e s.

Definition gets {S A} (f : S -> A) : M S A := fun s => Ret (f s) s.

Definition modify {S} (f : S -> S) : M S unit := fun s => Ret tt (f s).

(** [try: body / except (classes): handler]; an exception outside
    [catches] goes on to the caller. *)
Definition try_except {S A} (body : M S A) (catches : Exn -> bool)
           (handler : Exn -> M S A) : M S A :=
  fun s => match body s with
           | Ret a s' => Ret a s'
           | Raise e s' => if catches e then handler e s' else Raise e s'
           end.

(** A method of an object held in an attribute: [get] reads the attribute,
    [put] stores the object back. *)
Definition within {S T A} (get : S -> T) (put : T -> S -> S) (m : M T A)
  : M S A :=
  fun s => match m (get s) with
           | Ret a t => Ret a (put t s)
           | Raise e t => Raise e (put t s)
           end.

(** The attributes an outcome leaves behind, returned or raised. *)
Definition final {S A} (o : Outcome S A) : S :=
  match o with
  | Ret _ s => s
  | Raise _ s => s
  end.

(** [int(c)] for a character that passed [isdigit]: the superscripts are
    digits to [isdigit] but no literals to [int]. *)
Definition int_of_char {S} (c : ascii) : M S Z :=
  if between 48 57 (ord c) then ret (Z.of_nat (ord c - 48))
  else raise (ValueError ("invalid literal for int() with base 10: '"
                            ++ String c "" ++ "'")).

(** [l.index(x)] *)
Fixpoint index_from (x : string) (l : list string) (i : nat) : option nat :=
  match l with
  | [] => None
  | y :: l' => if String.eqb y x then Some i else index_from x l' (S i)
  end.

Definition index {S} (l : list string) (x : string) : M S nat :=
  match index_from x l 0 with
  | Some i => ret i
  | None => raise (ValueError ("'" ++ x ++ "' is not in list"))
  end.

(** [l[i]] for an index that is not negative. *)
Definition getitem {S} (l : list string) (i : nat) : M S string :=
  match nth_error l i with
  | Some x => ret x
  | None => raise (IndexError "list index out of range")
  end.

(** [chr(n)] for a code point below 256. *)
Definition chr (n : Z) : ascii := ascii_of_nat (Z.to_nat n).

End Py.

Import Py.

Declare Scope py_scope.
Delimit Scope py_scope with py.
Notation "x <- m ;; k" := (bind m (fun x => k))
  (at level 100, m at next level, right associativity) : py_scope.
Notation "m ;; k" := (bind m (fun _ => k))
  (at level 100, right associativity) : py_scope.
Local Open Scope py_scope.

(* ================================================================== *)
(** * src/models/token.py                                              *)
(* ================================================================== *)

Module TokenType.

Inductive t :=
| UNKNOWN | END_OF_PARTITION
| NAME | IDENTIFIER | INSTRUMENT | COLON | SEMICOLON | PERIOD | METER
| CLEF_SOL | CLEF_FA
| NOTE | PAUSE | HALF_PAUSE | ALTERATION_BEMOL | ALTERATION_DIESE
| MEASURE_BAR | END_STAFF_BAR.

Definition eq_dec (a b : t) : {a = b} + {a <> b}.
Proof. decide equality. Defined.

Definition eqb (a b : t) : bool := if eq_dec a b then true else false.

(** [k in [k1, ..., kn]] *)
Definition mem (k : t) (l : list t) : bool := existsb (eqb k) l.

(** The member's [.name]. *)
Definition name (k : t) : string :=
  match k with
  | UNKNOWN => "UNKNOWN" | END_OF_PARTITION => "END_OF_PARTITION"
  | NAME => "NAME" | IDENTIFIER => "IDENTIFIER"
  | INSTRUMENT => "INSTRUMENT" | COLON => "COLON"
  | SEMICOLON => "SEMICOLON" | PERIOD => "PERIOD" | METER => "METER"
  | CLEF_SOL => "CLEF_SOL" | CLEF_FA => "CLEF_FA"
  | NOTE => "NOTE" | PAUSE => "PAUSE" | HALF_PAUSE => "HALF_PAUSE"
  | ALTERATION_BEMOL => "ALTERATION_BEMOL"
  | ALTERATION_DIESE => "ALTERATION_DIESE"
  | MEASURE_BAR => "MEASURE_BAR" | END_STAFF_BAR => "END_STAFF_BAR"
  end.

End TokenType.

Module ClefType.
Inductive t := NONE | SOL | FA.

Definition eqb (a b : t) : bool :=
  match a, b with
  | NONE, NONE | SOL, SOL | FA, FA => true
  | _, _ => false
  end.
End ClefType.

Module AlterationType.
Inductive t := NONE | DIESE | BEMOL.

Definition eqb (a b : t) : bool :=
  match a, b with
  | NONE, NONE | DIESE, DIESE | BEMOL, BEMOL => true
  | _, _ => false
  end.
End AlterationType.

Module Token.

(** The dataclass; a field left out of a constructor call takes the
    default of [new]. *)
Record t := make {
  type : TokenType.t;
  value : Value;
  clef : ClefType.t;
  alteration : AlterationType.t;
  line : Z;
  column : string
}.

Definition new (type : TokenType.t) (value : Value) (clef : ClefType.t)
           (alteration : AlterationType.t) : t :=
  make type value clef alteration 0%Z "".

(** [__str__] *)
Definition to_str (tok : t) : string :=
  match value tok with
  | VNone => "Token(" ++ TokenType.name (type tok) ++ ")"
  | v => "Token(" ++ TokenType.name (type tok) ++ ", " ++ str v ++ ")"
  end.

(** [str(tok)] where [tok] may still be [None]. *)
Definition str_opt (tok : option t) : string :=
  match tok with
  | Some tk => to_str tk
  | None => "None"
  end.

End Token.

(** The functions of the module itself. *)
Module token.
Import TokenType.

Definition token_mapping : list (string * TokenType.t) :=
  [ ("TOKEN_INCONNU", UNKNOWN);
    ("TOKEN_EO_PARTITION", END_OF_PARTITION);
    ("TOKEN_NOM", NAME);
    ("TOKEN_ID", IDENTIFIER);
    ("TOKEN_INSTRUMENT", INSTRUMENT);
    ("TOKEN_DP", COLON);
    ("TOKEN_PV", SEMICOLON);
    ("TOKEN_PT", PERIOD);
    ("TOKEN_METER", METER);
    ("TOKEN_CLE_SOL", CLEF_SOL);
    ("TOKEN_CLE_FA", CLEF_FA);
    ("TOKEN_PAUSE", PAUSE);
    ("TOKEN_DEMI_PAUSE", HALF_PAUSE);
    ("TOKEN_ALT_BEMOL", ALTERATION_BEMOL);
    ("TOKEN_ALT_DIESE", ALTERATION_DIESE);
    ("TOKEN_BATON_MESURE", MEASURE_BAR);
    ("TOKEN_BATON_FIN_PORTEE", END_STAFF_BAR) ].

(** [d[k]] where [k in d], for a dict written as its items. *)
Fixpoint item (d : list (string * TokenType.t)) (k : string)
  : option TokenType.t :=
  match d with
  | [] => None
  | (k', v) :: d' => if String.eqb k' k then Some v else item d' k
  end.

Definition get_token_type_from_string (token_str : string) : TokenType.t :=
  match item token_mapping token_str with
  | Some k => k
  | None =>
      if startswith token_str "SOL_TOKEN" || startswith token_str "FA_TOKEN"
      then NOTE
      else UNKNOWN
  end.

End token.

(* ================================================================== *)
(** * src/config.py                                                    *)
(* ================================================================== *)

Module config.

Definition REFERENCE_IMAGES : list string :=
  [ "Note_H1.JPG"; "Note_H2.JPG"; "Note_H3.JPG"; "Note_H4.JPG";
    "Note_H5.JPG"; "Note_H6.JPG"; "Note_H7.JPG"; "Note_H8.JPG";
    "Note_H9.JPG"; "Note_H10.JPG"; "Note_H11.JPG"; "Note_H12.JPG";
    "Note_H13.JPG"; "Note_H14.JPG"; "Note_H15.JPG"; "Note_H16.JPG";
    "Note_PAUSE.JPG"; "Note_DEMI_PAUSE.JPG"; "BATON_MESURE.JPG";
    "Alteration_BEMOL.JPG"; "Alteration_DIESE.JPG";
    "Note_CLE_SOL.JPG"; "Note_CLE_FA.JPG"; "BATON_FIN_PORTEE.JPG" ].

Definition SOL_TOKENS : list string :=
  [ ""; "SOL_TOKEN_DO_MILIEU"; "SOL_TOKEN_RE_L"; "SOL_TOKEN_MI_L";
    "SOL_TOKEN_FA_L"; "SOL_TOKEN_SOL_L"; "SOL_TOKEN_LA_L"; "SOL_TOKEN_SI_L";
    "SOL_TOKEN_DO_H"; "SOL_TOKEN_RE_H"; "SOL_TOKEN_MI_H"; "SOL_TOKEN_FA_H";
    "SOL_TOKEN_SOL_H"; "SOL_TOKEN_LA_H"; "FA_TOKEN_SI_H"; "FA_TOKEN_DO_H" ].

Definition FA_TOKENS : list string :=
  [ "FA_TOKEN_DO_L"; "FA_TOKEN_RE_L"; "FA_TOKEN_MI_L"; "FA_TOKEN_FA_L";
    "FA_TOKEN_SOL_L"; "FA_TOKEN_LA_L"; "FA_TOKEN_SI_L"; "FA_TOKEN_DO_H";
    "FA_TOKEN_RE_H"; "FA_TOKEN_MI_H"; "FA_TOKEN_FA_H"; "FA_TOKEN_SOL_H";
    "FA_TOKEN_LA_H"; "FA_TOKEN_SI_H"; "FA_TOKEN_DO_MILIEU"; "" ].

Definition SOL_SHARP_TOKENS : list string :=
  [ "FA_TOKEN_DO_L_SHARP"; "FA_TOKEN_RE_L_SHARP"; ""; "FA_TOKEN_FA_L_SHARP";
    "FA_TOKEN_SOL_L_SHARP"; "FA_TOKEN_LA_L_SHARP"; ""; "FA_TOKEN_DO_H_SHARP";
    "FA_TOKEN_RE_H_SHARP"; ""; "FA_TOKEN_FA_H_SHARP"; "FA_TOKEN_SOL_H_SHARP";
    "FA_TOKEN_LA_H_SHARP"; ""; "FA_TOKEN_DO_MILIEU_SHARP"; "" ].

Definition FA_SHARP_TOKENS : list string :=
  [ ""; "SOL_TOKEN_DO_MILIEU_SHARP"; "SOL_TOKEN_RE_L_SHARP"; "";
    "SOL_TOKEN_FA_L_SHARP"; "SOL_TOKEN_SOL_L_SHARP"; "SOL_TOKEN_LA_L_SHARP";
    ""; "SOL_TOKEN_DO_H_SHARP"; "SOL_TOKEN_RE_H_SHARP"; "";
    "SOL_TOKEN_FA_H_SHARP"; "SOL_TOKEN_SOL_H_SHARP"; "SOL_TOKEN_LA_H_SHARP";
    ""; "" ].

Definition FA_BEMOL_TOKENS : list string :=
  [ ""; "FA_TOKEN_RE_L_BEMOL"; "FA_TOKEN_MI_L_BEMOL"; "";
    "FA_TOKEN_SOL_L_BEMOL"; "FA_TOKEN_LA_L_BEMOL"; "FA_TOKEN_SI_L_BEMOL";
    ""; "FA_TOKEN_RE_H_BEMOL"; "FA_TOKEN_MI_H_BEMOL"; "FA_TOKEN_FA_H";
    "FA_TOKEN_SOL_H_BEMOL"; "FA_TOKEN_LA_H_BEMOL"; "FA_TOKEN_SI_SI_BEMOL";
    ""; "" ].

Definition SOL_BEMOL_TOKENS : list string :=
  [ ""; ""; "SOL_TOKEN_RE_L_BEMOL"; "SOL_TOKEN_MI_L_BEMOL"; "";
    "SOL_TOKEN_SOL_L_BEMOL"; "SOL_TOKEN_LA_L_BEMOL"; "SOL_TOKEN_SI_L_BEMOL";
    ""; "SOL_TOKEN_RE_H_BEMOL"; "SOL_TOKEN_MI_H_BEMOL"; "";
    "SOL_TOKEN_SOL_H_BEMOL"; "SOL_TOKEN_LA_H_BEMOL"; "FA_TOKEN_SI_H_BEMOL";
    "" ].

End config.

(* ================================================================== *)
(** * src/utils/image_utils.py                                         *)
(* ================================================================== *)

Module image_utils.

(** A perceptual hash: the bits of [ImageHash.hash], flattened. *)
Definition ImageHash := list bool.

(** [h1 - h2] of the imagehash package: the number of positions where the
    two hashes differ; on hashes of different sizes it raises TypeError,
    here [None]. *)
Fixpoint count_nonzero (h1 h2 : ImageHash) : nat :=
  match h1, h2 with
  | b1 :: h1', b2 :: h2' =>
      (if Bool.eqb b1 b2 then 0 else 1) + count_nonzero h1' h2'
  | _, _ => 0
  end.

Definition sub (h1 h2 : ImageHash) : option nat :=
  if Nat.eqb (List.length h1) (List.length h2)
  then Some (count_nonzero h1 h2)
  else None.

(** What the directory of reference images holds under a name: no file,
    a file [calculate_image_hash] fails on, or a file with its hash. *)
Inductive Reference :=
| Missing
| Unhashed
| Hashed (h : ImageHash).

(** [distance < closest_distance] and [distance == closest_distance],
    where [None] is [float("inf")]. *)
Definition below (distance : nat) (closest_distance : option nat) : bool :=
  match closest_distance with
  | None => true
  | Some d => Nat.ltb distance d
  end.

Definition equals (distance : nat) (closest_distance : option nat) : bool :=
  match closest_distance with
  | None => false
  | Some d => Nat.eqb distance d
  end.

(** The [for] loop of [find_closest_match] over the names still to see;
    [None] is an exception leaving the loop. *)
Fixpoint scan (input_hash : ImageHash) (dir : string -> Reference)
         (reference_images : list string)
         (closest_images : list string) (closest_distance : option nat)
  : option (list string * option nat) :=
  match reference_images with
  | [] => Some (closest_images, closest_distance)
  | ref_image :: rest =>
      match dir ref_image with
      | Missing => scan input_hash dir rest closest_images closest_distance
      | Unhashed => scan input_hash dir rest closest_images closest_distance
      | Hashed reference_hash =>
          match sub input_hash reference_hash with
          | None => None
          | Some distance =>
              if below distance closest_distance then
                scan input_hash dir rest [ref_image] (Some distance)
              else if equals distance closest_distance then
                scan input_hash dir rest (closest_images ++ [ref_image])
                  closest_distance
              else scan input_hash dir rest closest_images closest_distance
          end
      end
  end.

(** [find_closest_match]; [image] is what [calculate_image_hash] gives for
    the picture to match, and every exception is turned into [None]. *)
Definition find_closest_match (image : option ImageHash)
           (dir : string -> Reference) (reference_images : list string)
  : option string :=
  match image with
  | None => None
  | Some input_hash =>
      match scan input_hash dir reference_images [] None with
      | None => None
      | Some ([], _) => None
      | Some (first :: _, _) => Some first
      end
  end.

(** [get_hash_distance] on what [calculate_image_hash] gives for the two
    pictures. *)
Definition get_hash_distance (image1 image2 : option ImageHash)
  : option nat :=
  match image1, image2 with
  | Some hash1, Some hash2 => sub hash1 hash2
  | _, _ => None
  end.

End image_utils.

(* ================================================================== *)
(** * src/parsers/image_parser.py                                      *)
(* ================================================================== *)

Module image_parser.
Import config.

(** What [os.path.exists] and [find_closest_match] (perceptual hashing,
    outside the parser) make of the picture saved from a cell. *)
Inductive Picture :=
| Vanished                (* no file at the path *)
| Unmatched               (* find_closest_match returns None *)
| Matched (ref : string). (* find_closest_match returns this name *)

(** The attributes of a NotationImageParser ([reference_dir] only feeds
    [find_closest_match]). *)
Record NotationImageParser := {
  current_clef : ClefType.t;
  current_alteration : AlterationType.t
}.

Definition set_clef (c : ClefType.t) : M NotationImageParser unit :=
  modify (fun ip => {| current_clef := c;
                       current_alteration := current_alteration ip |}).

Definition set_alteration (a : AlterationType.t)
  : M NotationImageParser unit :=
  modify (fun ip => {| current_clef := current_clef ip;
                       current_alteration := a |}).

Definition __init__ : NotationImageParser :=
  {| current_clef := ClefType.NONE;
     current_alteration := AlterationType.NONE |}.

Definition reset_state : M NotationImageParser unit :=
  set_clef ClefType.NONE ;;
  set_alteration AlterationType.NONE.

Definition _create_unknown_token : M NotationImageParser Token.t :=
  c <- gets current_clef ;;
  a <- gets current_alteration ;;
  ret (Token.new TokenType.UNKNOWN VNone c a).

(** A token built with [type] and [clef=self.current_clef] only. *)
Definition structural (k : TokenType.t) : M NotationImageParser Token.t :=
  c <- gets current_clef ;;
  ret (Token.new k VNone c AlterationType.NONE).

(** The body of the [try] block; [Some tok] is the [return] inside it,
    [None] falls out of the block to the default. *)
Definition resolve_note (matched_image : string)
  : M NotationImageParser (option Token.t) :=
  image_index <- index REFERENCE_IMAGES matched_image ;;
  c <- gets current_clef ;;
  a <- gets current_alteration ;;
  note_token <-
    match c with
    | ClefType.SOL =>
        match a with
        | AlterationType.NONE =>
            s <- getitem SOL_TOKENS image_index ;; ret (VStr s)
        | AlterationType.DIESE =>
            s <- getitem SOL_SHARP_TOKENS image_index ;; ret (VStr s)
        | AlterationType.BEMOL =>
            s <- getitem SOL_BEMOL_TOKENS image_index ;; ret (VStr s)
        end
    | ClefType.FA =>
        match a with
        | AlterationType.NONE =>
            s <- getitem FA_TOKENS image_index ;; ret (VStr s)
        | AlterationType.DIESE =>
            s <- getitem FA_SHARP_TOKENS image_index ;; ret (VStr s)
        | AlterationType.BEMOL =>
            s <- getitem FA_BEMOL_TOKENS image_index ;; ret (VStr s)
        end
    | ClefType.NONE => ret VNone
    end ;;
  set_alteration AlterationType.NONE ;;
  if truthy note_token && negb (is_str note_token "") then
    c' <- gets current_clef ;;
    ret (Some (Token.new TokenType.NOTE note_token c' AlterationType.NONE))
  else ret None.

Definition is_value_or_index_error (e : Exn) : bool :=
  match e with
  | ValueError _ | IndexError _ => true
  | _ => false
  end.

Definition _identify_token_from_match (matched_image : string)
  : M NotationImageParser Token.t :=
  if String.eqb matched_image "Note_CLE_SOL.JPG" then
    set_clef ClefType.SOL ;; structural TokenType.CLEF_SOL
  else if String.eqb matched_image "Note_CLE_FA.JPG" then
    set_clef ClefType.FA ;; structural TokenType.CLEF_FA
  else if String.eqb matched_image "Note_PAUSE.JPG" then
    structural TokenType.PAUSE
  else if String.eqb matched_image "Note_DEMI_PAUSE.JPG" then
    structural TokenType.HALF_PAUSE
  else if String.eqb matched_image "BATON_MESURE.JPG" then
    structural TokenType.MEASURE_BAR
  else if String.eqb matched_image "Alteration_BEMOL.JPG" then
    set_alteration AlterationType.BEMOL ;;
    structural TokenType.ALTERATION_BEMOL
  else if String.eqb matched_image "Alteration_DIESE.JPG" then
    set_alteration AlterationType.DIESE ;;
    structural TokenType.ALTERATION_DIESE
  else if String.eqb matched_image "BATON_FIN_PORTEE.JPG" then
    structural TokenType.END_STAFF_BAR
  else
    found <- try_except (resolve_note matched_image)
               is_value_or_index_error (fun _ => ret None) ;;
    match found with
    | Some tok => ret tok
    | None => _create_unknown_token
    end.

(** [parse_image]; [None] is the Python [None] returned for a missing
    file, and [if not matched_image] also takes the empty name. *)
Definition parse_image (image : Picture)
  : M NotationImageParser (option Token.t) :=
  match image with
  | Vanished => ret None
  | Unmatched => tok <- _create_unknown_token ;; ret (Some tok)
  | Matched matched_image =>
      if negb (truthy (VStr matched_image)) then
        tok <- _create_unknown_token ;; ret (Some tok)
      else
        tok <- _identify_token_from_match matched_image ;; ret (Some tok)
  end.

End image_parser.

(* ================================================================== *)
(** * src/parsers/excel_parser.py                                      *)
(* ================================================================== *)

Module excel_parser.
Import image_parser.

(** The picture anchored at a cell: [image_loader.get] and [image.save]
    either fail, or leave a file for the image parser. *)
Inductive Image :=
| Unreadable
| Saved (p : Picture).

(** A cell of the sheet: its [.value], here text, and the entry of
    [image_loader._images] for its reference. *)
Record Cell := {
  cell_value : option string;
  cell_image : option Image
}.

Definition blank : Cell := {| cell_value := None; cell_image := None |}.

(** The sheet, row by row; each row lists its cells from column index 0
    (letter A) on, and every other cell is blank. *)
Definition Sheet := list (list Cell).

(** [sheet[cell_ref]] for the reference of row [row] (from 1) and column
    index [col] (from 0), which is how [_get_column_letter] reads its
    argument. *)
Definition cell_at (sh : Sheet) (row col : nat) : Cell :=
  match row with
  | 0 => blank
  | S k => nth col (nth k sh []) blank
  end.

Record ExcelReader := {
  sheet : Sheet;
  current_cell : Cell;
  current_text_iter : option string;
  current_row : nat;
  current_col : nat
}.

Definition set_current_text_iter (it : option string)
  : M ExcelReader unit :=
  modify (fun r => {| sheet := sheet r;
                      current_cell := current_cell r;
                      current_text_iter := it;
                      current_row := current_row r;
                      current_col := current_col r |}).

Definition set_position (row col : nat) : M ExcelReader unit :=
  modify (fun r => {| sheet := sheet r;
                      current_cell := current_cell r;
                      current_text_iter := current_text_iter r;
                      current_row := row;
                      current_col := col |}).

Definition set_current_cell (c : Cell) : M ExcelReader unit :=
  modify (fun r => {| sheet := sheet r;
                      current_cell := c;
                      current_text_iter := current_text_iter r;
                      current_row := current_row r;
                      current_col := current_col r |}).

(** [iter(str(value) + " ")] when the value is truthy, else [None]. *)
Definition text_iter (c : Cell) : option string :=
  match cell_value c with
  | Some v => if truthy (VStr v) then Some (v ++ " ") else None
  | None => None
  end.

Definition _move_to_next_cell : M ExcelReader unit :=
  row <- gets current_row ;;
  col <- gets current_col ;;
  set_position row (S col) ;;
  sh <- gets sheet ;;
  let c := cell_at sh row (S col) in
  set_current_cell c ;;
  set_current_text_iter (text_iter c).

Definition _move_to_next_row : M ExcelReader unit :=
  row <- gets current_row ;;
  set_position (S row) 0 ;;
  _move_to_next_cell.

Definition _move_to_first_cell : M ExcelReader unit :=
  set_position 1 0 ;;
  _move_to_next_cell.

(** The reader as the constructor leaves it, [_initialize] done. *)
Definition __init__ (sh : Sheet) : ExcelReader :=
  final (_move_to_first_cell
           {| sheet := sh; current_cell := blank;
              current_text_iter := None;
              current_row := 1; current_col := 0 |}).

Definition has_text_content : M ExcelReader bool :=
  c <- gets current_cell ;;
  ret (match cell_value c with Some _ => true | None => false end).

Definition image_here (r : ExcelReader) : option Image :=
  cell_image (cell_at (sheet r) (current_row r) (current_col r)).

Definition has_image_content : M ExcelReader bool :=
  img <- gets image_here ;;
  ret (match img with Some _ => true | None => false end).

(** [next(self.current_text_iter)] raises StopIteration on the empty
    remainder. *)
Definition read_next_char : M ExcelReader (option ascii) :=
  it <- gets current_text_iter ;;
  match it with
  | None => ret None
  | Some EmptyString => _move_to_next_cell ;; ret None
  | Some (String c rest) => set_current_text_iter (Some rest) ;; ret (Some c)
  end.

(** The path returned stands for the picture saved under it. *)
Definition read_image : M ExcelReader (option Picture) :=
  has <- has_image_content ;;
  if negb has then ret None
  else
    img <- gets image_here ;;
    match img with
    | Some (Saved p) => _move_to_next_cell ;; ret (Some p)
    | _ => _move_to_next_cell ;; ret None
    end.

(** The [while] loop of [move_to_next_empty_cell], run for at most [n]
    rounds. *)
Fixpoint move_while_content (n : nat) : M ExcelReader unit :=
  t <- has_text_content ;;
  i <- has_image_content ;;
  if t || i then
    match n with
    | 0 => ret tt
    | S n' =>
        _move_to_next_cell ;;
        col <- gets current_col ;;
        (if Nat.ltb 100 col then _move_to_next_row else ret tt) ;;
        move_while_content n'
    end
  else ret tt.

(** Rounds that cover the loop from any position: each round moves on in
    a row of the sheet, at most to column 101, or to the next row
    ([move_to_next_empty_cell_stops]). *)
Definition rounds (r : ExcelReader) : nat :=
  (S (List.length (sheet r)) - current_row r) * 102.

Definition move_to_next_empty_cell : M ExcelReader unit :=
  n <- gets rounds ;;
  move_while_content n.

(** The [while] loop of [_get_column_letter], run for at most [n]
    rounds. *)
Fixpoint column_letter_loop (n : nat) (col_index : Z) (col_letter : string)
  : string :=
  if (0 <=? col_index)%Z then
    match n with
    | 0 => col_letter
    | S n' =>
        let remainder := (col_index mod 26)%Z in
        let col_index := (col_index / 26)%Z in
        let col_letter := String (chr (65 + remainder)) col_letter in
        column_letter_loop n' (col_index - 1) col_letter
    end
  else col_letter.

(** Each round takes the index below a twenty-sixth of itself, so one
    round more than the index covers the loop
    ([column_letter_loop_enough]). *)
Definition _get_column_letter (col_index : Z) : string :=
  column_letter_loop (S (Z.to_nat col_index)) col_index "".

Definition _get_cell_reference : M ExcelReader string :=
  col <- gets current_col ;;
  row <- gets current_row ;;
  ret (_get_column_letter (Z.of_nat col) ++ str (VInt (Z.of_nat row))).

End excel_parser.

(* ================================================================== *)
(** * src/parsers/music_parser.py                                      *)
(* ================================================================== *)

Module music_parser.
Import image_parser excel_parser.
Import TokenType.

(** The attributes of a MusicNotationParser; the reader and the image
    parser are the objects handed to the constructor. *)
Record MusicNotationParser := {
  excel_reader : ExcelReader;
  image_parser : NotationImageParser;
  current_token : option Token.t;
  has_error : bool;
  error_message : string;
  partition_name : Value;
  instrument_name : Value;
  meter_value : Z;
  meter_controller : Z;
  note_tokens_fa : list string;
  note_tokens_sol : list string
}.

Definition P := M MusicNotationParser.

(** ** Attribute assignment

    [put_a x p] is [p] with attribute [a] holding [x]; [set_a x] is the
    statement [self.a = x]. *)

Definition put_excel_reader (r : ExcelReader) (p : MusicNotationParser)
  : MusicNotationParser :=
  {| excel_reader := r;
     image_parser := image_parser p;
     current_token := current_token p;
     has_error := has_error p;
     error_message := error_message p;
     partition_name := partition_name p;
     instrument_name := instrument_name p;
     meter_value := meter_value p;
     meter_controller := meter_controller p;
     note_tokens_fa := note_tokens_fa p;
     note_tokens_sol := note_tokens_sol p |}.

Definition put_image_parser (ip : NotationImageParser) (p : MusicNotationParser)
  : MusicNotationParser :=
  {| excel_reader := excel_reader p;
     image_parser := ip;
     current_token := current_token p;
     has_error := has_error p;
     error_message := error_message p;
     partition_name := partition_name p;
     instrument_name := instrument_name p;
     meter_value := meter_value p;
     meter_controller := meter_controller p;
     note_tokens_fa := note_tokens_fa p;
     note_tokens_sol := note_tokens_sol p |}.

Definition put_current_token (tok : option Token.t) (p : MusicNotationParser)
  : MusicNotationParser :=
  {| excel_reader := excel_reader p;
     image_parser := image_parser p;
     current_token := tok;
     has_error := has_error p;
     error_message := error_message p;
     partition_name := partition_name p;
     instrument_name := instrument_name p;
     meter_value := meter_value p;
     meter_controller := meter_controller p;
     note_tokens_fa := note_tokens_fa p;
     note_tokens_sol := note_tokens_sol p |}.

Definition put_has_error (b : bool) (p : MusicNotationParser)
  : MusicNotationParser :=
  {| excel_reader := excel_reader p;
     image_parser := image_parser p;
     current_token := current_token p;
     has_error := b;
     error_message := error_message p;
     partition_name := partition_name p;
     instrument_name := instrument_name p;
     meter_value := meter_value p;
     meter_controller := meter_controller p;
     note_tokens_fa := note_tokens_fa p;
     note_tokens_sol := note_tokens_sol p |}.

Definition put_error_message (msg : string) (p : MusicNotationParser)
  : MusicNotationParser :=
  {| excel_reader := excel_reader p;
     image_parser := image_parser p;
     current_token := current_token p;
     has_error := has_error p;
     error_message := msg;
     partition_name := partition_name p;
     instrument_name := instrument_name p;
     meter_value := meter_value p;
     meter_controller := meter_controller p;
     note_tokens_fa := note_tokens_fa p;
     note_tokens_sol := note_tokens_sol p |}.

Definition put_partition_name (v : Value) (p : MusicNotationParser)
  : MusicNotationParser :=
  {| excel_reader := excel_reader p;
     image_parser := image_parser p;
     current_token := current_token p;
     has_error := has_error p;
     error_message := error_message p;
     partition_name := v;
     instrument_name := instrument_name p;
     meter_value := meter_value p;
     meter_controller := meter_controller p;
     note_tokens_fa := note_tokens_fa p;
     note_tokens_sol := note_tokens_sol p |}.

Definition put_instrument_name (v : Value) (p : MusicNotationParser)
  : MusicNotationParser :=
  {| excel_reader := excel_reader p;
     image_parser := image_parser p;
     current_token := current_token p;
     has_error := has_error p;
     error_message := error_message p;
     partition_name := partition_name p;
     instrument_name := v;
     meter_value := meter_value p;
     meter_controller := meter_controller p;
     note_tokens_fa := note_tokens_fa p;
     note_tokens_sol := note_tokens_sol p |}.

Definition put_meter_value (n : Z) (p : MusicNotationParser)
  : MusicNotationParser :=
  {| excel_reader := excel_reader p;
     image_parser := image_parser p;
     current_token := current_token p;
     has_error := has_error p;
     error_message := error_message p;
     partition_name := partition_name p;
     instrument_name := instrument_name p;
     meter_value := n;
     meter_controller := meter_controller p;
     note_tokens_fa := note_tokens_fa p;
     note_tokens_sol := note_tokens_sol p |}.

Definition put_meter_controller (n : Z) (p : MusicNotationParser)
  : MusicNotationParser :=
  {| excel_reader := excel_reader p;
     image_parser := image_parser p;
     current_token := current_token p;
     has_error := has_error p;
     error_message := error_message p;
     partition_name := partition_name p;
     instrument_name := instrument_name p;
     meter_value := meter_value p;
     meter_controller := n;
     note_tokens_fa := note_tokens_fa p;
     note_tokens_sol := note_tokens_sol p |}.

Definition put_note_tokens_fa (l : list string) (p : MusicNotationParser)
  : MusicNotationParser :=
  {| excel_reader := excel_reader p;
     image_parser := image_parser p;
     current_token := current_token p;
     has_error := has_error p;
     error_message := error_message p;
     partition_name := partition_name p;
     instrument_name := instrument_name p;
     meter_value := meter_value p;
     meter_controller := meter_controller p;
     note_tokens_fa := l;
     note_tokens_sol := note_tokens_sol p |}.

Definition put_note_tokens_sol (l : list string) (p : MusicNotationParser)
  : MusicNotationParser :=
  {| excel_reader := excel_reader p;
     image_parser := image_parser p;
     current_token := current_token p;
     has_error := has_error p;
     error_message := error_message p;
     partition_name := partition_name p;
     instrument_name := instrument_name p;
     meter_value := meter_value p;
     meter_controller := meter_controller p;
     note_tokens_fa := note_tokens_fa p;
     note_tokens_sol := l |}.

Definition set_current_token (tok : option Token.t) : P unit :=
  modify (put_current_token tok).
Definition set_has_error (b : bool) : P unit :=
  modify (put_has_error b).
Definition set_error_message (msg : string) : P unit :=
  modify (put_error_message msg).
Definition set_partition_name (v : Value) : P unit :=
  modify (put_partition_name v).
Definition set_instrument_name (v : Value) : P unit :=
  modify (put_instrument_name v).
Definition set_meter_value (n : Z) : P unit :=
  modify (put_meter_value n).
Definition set_meter_controller (n : Z) : P unit :=
  modify (put_meter_controller n).
Definition set_note_tokens_fa (l : list string) : P unit :=
  modify (put_note_tokens_fa l).
Definition set_note_tokens_sol (l : list string) : P unit :=
  modify (put_note_tokens_sol l).

(** [self.excel_reader.m()] and [self.image_parser.m()] *)
Definition on_reader {A} (m : M ExcelReader A) : P A :=
  within excel_reader put_excel_reader m.

Definition on_image_parser {A} (m : M NotationImageParser A) : P A :=
  within image_parser put_image_parser m.

(** [self.current_token] where an attribute of it is read: on [None] the
    access raises. *)
Definition the_token : P Token.t :=
  tok <- gets current_token ;;
  match tok with
  | Some tk => ret tk
  | None => raise (AttributeError
                     "'NoneType' object has no attribute 'type'")
  end.

(** ** The methods *)

Definition __init__ (excel_reader : ExcelReader)
           (image_parser : NotationImageParser) : MusicNotationParser :=
  {| excel_reader := excel_reader; image_parser := image_parser;
     current_token := None; has_error := false; error_message := "";
     partition_name := VStr ""; instrument_name := VStr "";
     meter_value := -1; meter_controller := -1;
     note_tokens_fa := []; note_tokens_sol := [] |}.

Definition reset_state : P unit :=
  set_current_token None ;;
  set_has_error false ;;
  set_error_message "" ;;
  set_partition_name (VStr "") ;;
  set_instrument_name (VStr "") ;;
  set_meter_value (-1) ;;
  set_meter_controller (-1) ;;
  set_note_tokens_fa [] ;;
  set_note_tokens_sol [] ;;
  on_image_parser image_parser.reset_state.

Definition get_notes : P (list string * list string) :=
  fa <- gets note_tokens_fa ;;
  sol <- gets note_tokens_sol ;;
  ret (fa, sol).

(** A token built from its type and value alone. *)
Definition text_token (k : TokenType.t) (v : Value) : Token.t :=
  Token.new k v ClefType.NONE AlterationType.NONE.

(** The characters the cell's iterator still holds, plus one: more rounds
    than a loop that takes one character per round can make
    ([while_isspace_enough], [while_alnum_enough]). *)
Definition chars_left : P nat :=
  it <- gets (fun p => current_text_iter (excel_reader p)) ;;
  ret (match it with
       | Some text => S (String.length text)
       | None => 0
       end).

(** [while char and char.isspace(): ...], over at most [n] characters; the
    result [None] is the exit through [char is None]. *)
Fixpoint while_isspace (n : nat) (char : ascii) : P (option ascii) :=
  if isspace char then
    next <- on_reader read_next_char ;;
    match next, n with
    | None, _ => ret None
    | Some c, S n' => while_isspace n' c
    | Some c, 0 => ret None
    end
  else ret (Some char).

(** [while next_char and (next_char.isalpha() or next_char.isdigit())],
    over at most [n] characters. *)
Fixpoint while_alnum (n : nat) (keyword : string)
         (next_char : option ascii) : P string :=
  match next_char with
  | Some c =>
      if isalpha c || isdigit c then
        match n with
        | S n' =>
            next <- on_reader read_next_char ;;
            while_alnum n' (keyword ++ String c "") next
        | 0 => ret keyword
        end
      else ret keyword
  | None => ret keyword
  end.

Section token_source.
(** The call [self._read_next_token()] that the two [_process]
    methods make. *)
Variable _read_next_token : P unit.

Definition _process_text_content : P unit :=
  char <- on_reader read_next_char ;;
  match char with
  | None => _read_next_token
  | Some char =>
      n <- chars_left ;;
      char <- while_isspace n char ;;
      match char with
      | None => _read_next_token
      | Some char =>
          if Ascii.eqb char ":" then
            set_current_token (Some (text_token COLON VNone))
          else if Ascii.eqb char "." then
            set_current_token (Some (text_token PERIOD VNone))
          else if Ascii.eqb char ";" then
            set_current_token (Some (text_token SEMICOLON VNone))
          else if isdigit char then
            value <- int_of_char char ;;
            set_meter_value value ;;
            set_meter_controller value ;;
            set_current_token (Some (text_token METER (VInt value)))
          else if isalpha char then
            next_char <- on_reader read_next_char ;;
            n <- chars_left ;;
            keyword <- while_alnum n (String char "") next_char ;;
            if String.eqb keyword "Nom" then
              set_current_token (Some (text_token NAME VNone))
            else if String.eqb keyword "Instrument" then
              set_current_token (Some (text_token INSTRUMENT VNone))
            else if String.eqb keyword "FIN" then
              set_current_token (Some (text_token END_OF_PARTITION VNone))
            else
              set_current_token
                (Some (text_token IDENTIFIER (VStr keyword)))
          else
            set_current_token
              (Some (text_token UNKNOWN (VStr (String char ""))))
      end
  end.

Definition _process_image_content : P unit :=
  image_path <- on_reader read_image ;;
  match image_path with
  | None => _read_next_token
  | Some picture =>
      tok <- on_image_parser (parse_image picture) ;;
      set_current_token tok ;;
      match tok with
      | None => set_current_token (Some (text_token UNKNOWN VNone))
      | Some _ => ret tt
      end
  end.
End token_source.

(** From here on [fuel] is the depth of nested calls the interpreter still
    allows; a method that calls itself, directly or through the methods it
    calls, takes one unit on entry and raises RecursionError at zero. *)
Fixpoint _read_next_token (fuel : nat) : P unit :=
  match fuel with
  | 0 => raise RecursionError
  | S fuel' =>
      text <- on_reader has_text_content ;;
      if text then _process_text_content (_read_next_token fuel')
      else
        image <- on_reader has_image_content ;;
        if image then _process_image_content (_read_next_token fuel')
        else
          on_reader move_to_next_empty_cell ;;
          _read_next_token fuel'
  end.

Definition _error (context : string) : P unit :=
  set_has_error true ;;
  tok <- gets current_token ;;
  set_error_message ("Syntax error in " ++ context
                     ++ ": Unexpected token " ++ Token.str_opt tok).

Definition _expect (fuel : nat) (expected_type : TokenType.t)
           (context : string) : P bool :=
  tok <- the_token ;;
  if negb (TokenType.eqb (Token.type tok) expected_type) then
    _error (context ++ " (expected " ++ TokenType.name expected_type
            ++ ", got " ++ TokenType.name (Token.type tok) ++ ")") ;;
    ret false
  else
    _read_next_token fuel ;;
    ret true.

Definition _parse_alteration (fuel : nat) : P unit :=
  tok <- the_token ;;
  if mem (Token.type tok) [ALTERATION_DIESE; ALTERATION_BEMOL] then
    _read_next_token fuel
  else if negb (TokenType.eqb (Token.type tok) NOTE) then
    _error "alteration"
  else ret tt.

Definition _parse_note_height : P unit :=
  tok <- the_token ;;
  if TokenType.eqb (Token.type tok) NOTE then
    let note_token := Token.value tok in
    if truthy note_token then
      match note_token with
      | VInt _ =>
          raise (AttributeError
                   "'int' object has no attribute 'startswith'")
      | _ =>
          instrument <- gets instrument_name ;;
          let note_with_instrument :=
            str note_token ++ "_" ++ str instrument in
          if startswith (str note_token) "FA_TOKEN" then
            fa <- gets note_tokens_fa ;;
            set_note_tokens_fa (fa ++ [note_with_instrument])
          else
            sol <- gets note_tokens_sol ;;
            set_note_tokens_sol (sol ++ [note_with_instrument])
      end
    else ret tt
  else _error "note height".

Definition _parse_note (fuel : nat) : P unit :=
  _parse_alteration fuel ;;
  _parse_note_height.

Definition _parse_silence : P unit :=
  tok <- the_token ;;
  let silence_type := TokenType.name (Token.type tok) in
  if ClefType.eqb (Token.clef tok) ClefType.FA then
    fa <- gets note_tokens_fa ;;
    set_note_tokens_fa (fa ++ [silence_type])
  else
    sol <- gets note_tokens_sol ;;
    set_note_tokens_sol (sol ++ [silence_type]).

Definition _parse_symbol (fuel : nat) : P unit :=
  controller <- gets meter_controller ;;
  (if (0 <? controller)%Z then set_meter_controller (controller - 1)
   else ret tt) ;;
  tok <- the_token ;;
  (if mem (Token.type tok) [ALTERATION_DIESE; ALTERATION_BEMOL; NOTE] then
     _parse_note fuel
   else if mem (Token.type tok) [PAUSE; HALF_PAUSE] then
     _parse_silence
   else _error "symbol") ;;
  _read_next_token fuel.

Fixpoint _parse_additional_symbols (fuel : nat) : P unit :=
  match fuel with
  | 0 => raise RecursionError
  | S fuel' =>
      let symbol_types :=
        [ALTERATION_DIESE; ALTERATION_BEMOL; PAUSE; HALF_PAUSE; NOTE] in
      tok <- the_token ;;
      if mem (Token.type tok) symbol_types then
        _parse_symbol fuel' ;;
        _parse_additional_symbols fuel'
      else if negb (mem (Token.type tok)
                      [END_STAFF_BAR; MEASURE_BAR; CLEF_SOL; CLEF_FA;
                       END_OF_PARTITION]) then
        _error "additional symbols"
      else ret tt
  end.

Definition _parse_symbols (fuel : nat) : P unit :=
  _parse_symbol fuel ;;
  _parse_additional_symbols fuel.

Definition _parse_measure (fuel : nat) : P unit :=
  _parse_symbols fuel ;;
  value <- gets meter_value ;;
  controller <- gets meter_controller ;;
  if negb (value =? -1)%Z && negb (controller =? 0)%Z then
    set_meter_controller value
  else ret tt.

Fixpoint _parse_additional_measures (fuel : nat) : P unit :=
  match fuel with
  | 0 => raise RecursionError
  | S fuel' =>
      tok <- the_token ;;
      if TokenType.eqb (Token.type tok) MEASURE_BAR then
        _read_next_token fuel' ;;
        _parse_measure fuel' ;;
        _parse_additional_measures fuel'
      else if negb (TokenType.eqb (Token.type tok) END_STAFF_BAR) then
        _error "additional measures"
      else ret tt
  end.

Definition _parse_measures (fuel : nat) : P unit :=
  _parse_measure fuel ;;
  _parse_additional_measures fuel ;;
  ok <- _expect fuel END_STAFF_BAR "end of staff" ;;
  if negb ok then ret tt else ret tt.

Definition _parse_meter (fuel : nat) : P unit :=
  tok <- the_token ;;
  if TokenType.eqb (Token.type tok) METER then
    _read_next_token fuel
  else if mem (Token.type tok)
            [ALTERATION_DIESE; ALTERATION_BEMOL; PAUSE; HALF_PAUSE; NOTE]
  then ret tt
  else _error "meter".

Definition _parse_staff (fuel : nat) : P unit :=
  tok <- the_token ;;
  let clef := Token.type tok in
  _read_next_token fuel ;;
  _parse_meter fuel ;;
  _parse_measures fuel.

Fixpoint _parse_multiple_staffs (fuel : nat) : P unit :=
  match fuel with
  | 0 => raise RecursionError
  | S fuel' =>
      tok <- the_token ;;
      if TokenType.eqb (Token.type tok) END_OF_PARTITION then ret tt
      else if mem (Token.type tok) [CLEF_SOL; CLEF_FA] then
        _parse_staff fuel' ;;
        set_meter_value (-1) ;;
        set_meter_controller (-1) ;;
        _parse_multiple_staffs fuel'
      else _error "multiple staffs"
  end.

Definition _parse_partition (fuel : nat) : P unit :=
  ok <- _expect fuel NAME "partition name declaration" ;;
  if negb ok then ret tt else
  ok <- _expect fuel COLON "partition name declaration" ;;
  if negb ok then ret tt else
  ok <- _expect fuel IDENTIFIER "partition name" ;;
  if negb ok then ret tt else
  tok <- the_token ;;
  set_partition_name (Token.value tok) ;;
  ok <- _expect fuel SEMICOLON "partition name terminator" ;;
  if negb ok then ret tt else
  ok <- _expect fuel INSTRUMENT "instrument declaration" ;;
  if negb ok then ret tt else
  ok <- _expect fuel COLON "instrument declaration" ;;
  if negb ok then ret tt else
  ok <- _expect fuel IDENTIFIER "instrument name" ;;
  if negb ok then ret tt else
  tok <- the_token ;;
  set_instrument_name (Token.value tok) ;;
  ok <- _expect fuel PERIOD "instrument declaration terminator" ;;
  if negb ok then ret tt else
  _parse_multiple_staffs fuel ;;
  ok <- _expect fuel END_OF_PARTITION "end of partition" ;;
  if negb ok then ret tt else ret tt.

(** [except Exception] takes every exception of the embedding. *)
Definition parse (fuel : nat) : P bool :=
  reset_state ;;
  _read_next_token fuel ;;
  try_except
    (_parse_partition fuel ;;
     err <- gets has_error ;;
     ret (negb err))
    (fun _ => true)
    (fun e =>
       set_has_error true ;;
       set_error_message ("Unexpected error during parsing: " ++ exn_str e) ;;
       ret false).

End music_parser.

(* ================================================================== *)
(** * Vocabulary of the statements                                     *)
(* ================================================================== *)

Module spec.
Import config image_utils image_parser excel_parser music_parser.

(** [img] is the reference image of pitch position [i]: the first
    sixteen names of [REFERENCE_IMAGES]. *)
Definition pitch_image (i : nat) (img : string) : Prop :=
  i < 16 /\ nth_error REFERENCE_IMAGES i = Some img.

(** The table that serves a clef and an alteration; none without clef. *)
Definition note_table (c : ClefType.t) (a : AlterationType.t)
  : option (list string) :=
  match c, a with
  | ClefType.NONE, _ => None
  | ClefType.SOL, AlterationType.NONE => Some SOL_TOKENS
  | ClefType.SOL, AlterationType.DIESE => Some SOL_SHARP_TOKENS
  | ClefType.SOL, AlterationType.BEMOL => Some SOL_BEMOL_TOKENS
  | ClefType.FA, AlterationType.NONE => Some FA_TOKENS
  | ClefType.FA, AlterationType.DIESE => Some FA_SHARP_TOKENS
  | ClefType.FA, AlterationType.BEMOL => Some FA_BEMOL_TOKENS
  end.

(** The lookup entry of (clef, alteration, position); the empty string
    where there is no table. *)
Definition lookup (c : ClefType.t) (a : AlterationType.t) (i : nat)
  : string :=
  match note_table c a with
  | Some table => nth i table ""
  | None => ""
  end.

(** The token a pitch image is to give under clef [c] for a lookup
    entry: UNKNOWN without payload for the empty entry, else the NOTE
    carrying the entry. *)
Definition pitch_token (c : ClefType.t) (entry : string) : Token.t :=
  if String.eqb entry "" then
    Token.new TokenType.UNKNOWN VNone c AlterationType.NONE
  else Token.new TokenType.NOTE (VStr entry) c AlterationType.NONE.

(** The classifier holding clef [c] and alteration [a]. *)
Definition holding (c : ClefType.t) (a : AlterationType.t)
  : NotationImageParser :=
  {| current_clef := c; current_alteration := a |}.

(** The image of an accidental and the alteration it stands for. *)
Definition accidental (img : string) (a : AlterationType.t) : Prop :=
  (img = "Alteration_DIESE.JPG" /\ a = AlterationType.DIESE)
  \/ (img = "Alteration_BEMOL.JPG" /\ a = AlterationType.BEMOL).

(** The reference images that change neither the held clef nor the held
    alteration: the rests and the two bars. *)
Definition passing (img : string) : Prop :=
  In img [ "Note_PAUSE.JPG"; "Note_DEMI_PAUSE.JPG"; "BATON_MESURE.JPG";
           "BATON_FIN_PORTEE.JPG" ].

(** The eight reference images the classifier handles before it looks a
    pitch up. *)
Definition special_image (img : string) : Prop :=
  In img [ "Note_CLE_SOL.JPG"; "Note_CLE_FA.JPG"; "Note_PAUSE.JPG";
           "Note_DEMI_PAUSE.JPG"; "BATON_MESURE.JPG"; "Alteration_BEMOL.JPG";
           "Alteration_DIESE.JPG"; "BATON_FIN_PORTEE.JPG" ].

(** A name that is none of the reference images. *)
Definition unlisted (img : string) : Prop :=
  index_from img REFERENCE_IMAGES 0 = None.

(** The UNKNOWN token of a classifier: it carries the held clef and the
    held alteration. *)
Definition unknown_token (ip : NotationImageParser) : Token.t :=
  Token.new TokenType.UNKNOWN VNone (current_clef ip) (current_alteration ip).

(** A payload that names its clef. *)
Definition clef_prefixed (payload : string) : bool :=
  startswith payload "SOL_TOKEN" || startswith payload "FA_TOKEN".

(** Classifying a run of images one after the other. *)
Fixpoint classify_all (imgs : list string) : M NotationImageParser unit :=
  match imgs with
  | [] => ret tt
  | img :: rest => _identify_token_from_match img ;; classify_all rest
  end.

(** The entry the parser writes for a note payload. *)
Definition note_entry (payload : string) (instrument : Value) : string :=
  payload ++ "_" ++ str instrument.

(** The live counter after one symbol. *)
Definition counted (controller : Z) : Z :=
  if (0 <? controller)%Z then (controller - 1)%Z else controller.

(** ** Sheets *)

Definition text (s : string) : Cell :=
  {| cell_value := Some s; cell_image := None |}.

Definition picture (ref : string) : Cell :=
  {| cell_value := None; cell_image := Some (Saved (Matched ref)) |}.

(** A parser freshly built over a sheet. *)
Definition fresh (sh : Sheet) : MusicNotationParser :=
  music_parser.__init__ (excel_parser.__init__ sh) image_parser.__init__.

(** [Nom : Test ; Instrument : Piano .], a treble clef, one note, the
    end-of-staff bar and [FIN]; column A is left blank, the reader starts
    at column B. *)
Definition minimal : Sheet :=
  [[ blank; text "Nom : Test ; Instrument : Piano .";
     picture "Note_CLE_SOL.JPG"; picture "Note_H2.JPG";
     picture "BATON_FIN_PORTEE.JPG"; text "FIN" ]].

(** The same with one more cell after [FIN]. *)
Definition minimal_then_more : Sheet :=
  [[ blank; text "Nom : Test ; Instrument : Piano .";
     picture "Note_CLE_SOL.JPG"; picture "Note_H2.JPG";
     picture "BATON_FIN_PORTEE.JPG"; text "FIN"; text "x" ]].

(** A staff whose clef is followed by a measure bar: the meter
    production meets a mismatch, and a note follows. *)
Definition bar_after_clef : Sheet :=
  [[ blank; text "Nom : Test ; Instrument : Piano .";
     picture "Note_CLE_SOL.JPG"; picture "BATON_MESURE.JPG";
     picture "Note_H2.JPG"; picture "BATON_FIN_PORTEE.JPG";
     text "FIN"; text "x" ]].

(** A staff that opens with a meter of 3 before its first note, and the
    parser once the clef and the meter are read and the note is the
    current token. *)
Definition staff_with_meter : Sheet :=
  [[ blank; picture "Note_CLE_SOL.JPG"; text "3"; picture "Note_H2.JPG";
     picture "BATON_FIN_PORTEE.JPG"; text "FIN" ]].

Definition at_first_symbol : MusicNotationParser :=
  final ((_read_next_token 3 ;; _read_next_token 3 ;; _read_next_token 3)
           (fresh staff_with_meter)).

(** A staff that opens with a measure bar, and the parser once the clef
    is the current token. *)
Definition staff_bar_first : Sheet :=
  [[ blank; picture "Note_CLE_SOL.JPG"; picture "BATON_MESURE.JPG";
     picture "Note_H2.JPG"; picture "BATON_FIN_PORTEE.JPG"; text "FIN" ]].

Definition at_clef : MusicNotationParser :=
  final (_read_next_token 3 (fresh staff_bar_first)).


(** ** Column names

    The number a spreadsheet gives a column name, read as a numeral in
    the letters A to Z with A standing for 1: A is 1, Z is 26, AA is 27. *)
Fixpoint column_number_from (acc : Z) (name : string) : Z :=
  match name with
  | EmptyString => acc
  | String c rest =>
      column_number_from (acc * 26 + (Z.of_nat (ord c) - 64)) rest
  end.

Definition column_number (name : string) : Z := column_number_from 0 name.

(** A capital letter of the alphabet. *)
Definition capital (c : ascii) : Prop := 65 <= ord c <= 90.

Fixpoint capitals (s : string) : Prop :=
  match s with
  | EmptyString => True
  | String c rest => capital c /\ capitals rest
  end.

(** ** Matching a picture

    The distance from the picture to match to the reference image of a
    name: none where the directory holds no hash under the name, or where
    the two hashes have different sizes. *)
Definition distance (input_hash : ImageHash) (dir : string -> Reference)
           (name : string) : option nat :=
  match dir name with
  | Hashed h => sub input_hash h
  | _ => None
  end.

(** A directory that holds a hash under some of the names. *)
Definition some_hashed (dir : string -> Reference) (names : list string)
  : Prop :=
  exists name h, In name names /\ dir name = Hashed h.

(** A name whose hash cannot be compared with the picture's. *)
Definition some_misfit (input_hash : ImageHash) (dir : string -> Reference)
           (names : list string) : Prop :=
  exists name h,
    In name names /\ dir name = Hashed h /\ sub input_hash h = None.

(** A directory with three reference images, the second and the third
    with the same hash, and a picture with that hash. *)
Definition shelf (name : string) : Reference :=
  if String.eqb name "Note_H1.JPG" then Hashed [false; false; true; true]
  else if String.eqb name "Note_H2.JPG" then Hashed [true; false; true; false]
  else if String.eqb name "Note_H3.JPG" then Hashed [true; false; true; false]
  else Missing.

Definition snapshot : ImageHash := [true; false; true; false].

(** ** Reading a cell

    [read_next_char] called until it returns None, at most [n] times, and
    the characters it returned. *)
Fixpoint read_chars (n : nat) : M ExcelReader (list ascii) :=
  match n with
  | 0 => ret []
  | S n' =>
      char <- read_next_char ;;
      match char with
      | None => ret []
      | Some c => rest <- read_chars n' ;; ret (c :: rest)
      end
  end.

(** The reader with its iterator replaced. *)
Definition with_iter (it : option string) (r : ExcelReader) : ExcelReader :=
  final (set_current_text_iter it r).

(** ** Lexing text

    The parser with the iterator of its reader holding [rest]. *)
Definition advance (rest : string) (s : MusicNotationParser)
  : MusicNotationParser :=
  put_excel_reader (with_iter (Some rest) (excel_reader s)) s.

(** The reader of [s] stands on a cell with a value. *)
Definition has_text (s : MusicNotationParser) : Prop :=
  cell_value (current_cell (excel_reader s)) <> None.

(** A character that goes on a keyword. *)
Definition isalnum (c : ascii) : bool := isalpha c || isdigit c.

Fixpoint alnums (w : string) : bool :=
  match w with
  | EmptyString => true
  | String c w' => isalnum c && alnums w'
  end.

Fixpoint spaces (w : string) : bool :=
  match w with
  | EmptyString => true
  | String c w' => isspace c && spaces w'
  end.

(** The token of a word: one of the three keywords, or an identifier
    carrying the word. *)
Definition keyword_token (keyword : string) : Token.t :=
  if String.eqb keyword "Nom" then text_token TokenType.NAME VNone
  else if String.eqb keyword "Instrument" then
    text_token TokenType.INSTRUMENT VNone
  else if String.eqb keyword "FIN" then
    text_token TokenType.END_OF_PARTITION VNone
  else text_token TokenType.IDENTIFIER (VStr keyword).

(** The parser with its reader moved to the next cell of the row. *)
Definition moved (s : MusicNotationParser) : MusicNotationParser :=
  put_excel_reader (final (_move_to_next_cell (excel_reader s))) s.

(** The token of a character that is no white space, no digit and no
    letter: one of the three marks, or UNKNOWN carrying the character. *)
Definition mark_token (c : ascii) : Token.t :=
  if Ascii.eqb c ":" then text_token TokenType.COLON VNone
  else if Ascii.eqb c "." then text_token TokenType.PERIOD VNone
  else if Ascii.eqb c ";" then text_token TokenType.SEMICOLON VNone
  else text_token TokenType.UNKNOWN (VStr (String c "")).

(** The token the parser keeps for what [parse_image] returned. *)
Definition kept_token (tok : option Token.t) : Token.t :=
  match tok with
  | Some tk => tk
  | None => text_token TokenType.UNKNOWN VNone
  end.

End spec.

(* ================================================================== *)
(** * Vocabulary of the proofs                                         *)
(* ================================================================== *)

Module logic.
Import excel_parser image_parser music_parser.

(** [wp m Qr Qe s]: run from [s], [m] returns in a state satisfying [Qr]
    or raises in a state satisfying [Qe]. *)
Definition wp {S A} (m : M S A) (Qr : A -> S -> Prop)
           (Qe : Exn -> S -> Prop) (s : S) : Prop :=
  match m s with
  | Ret a s' => Qr a s'
  | Raise e s' => Qe e s'
  end.

(** [m] returns from every state. *)
Definition returns {S A} (m : M S A) : Prop :=
  forall s, exists a s', m s = Ret a s'.

(** Whatever [x] returns, [y] returns as well. *)
Definition approx {S A} (x y : M S A) : Prop :=
  forall s a s', x s = Ret a s' -> y s = Ret a s'.

(** A computation indexed by the depth allowed returns the same once it
    returns at all. *)
Definition stable {S A} (f : nat -> M S A) : Prop :=
  forall n m, n <= m -> approx (f n) (f m).

(** The two output sequences. *)
Definition outputs (p : MusicNotationParser) : list string * list string :=
  (note_tokens_fa p, note_tokens_sol p).

(** The attributes reading a token never assigns. *)
Definition kept_by_read (s s' : MusicNotationParser) : Prop :=
  has_error s' = has_error s
  /\ error_message s' = error_message s
  /\ partition_name s' = partition_name s
  /\ instrument_name s' = instrument_name s
  /\ note_tokens_fa s' = note_tokens_fa s
  /\ note_tokens_sol s' = note_tokens_sol s.

Definition meter_kept (s s' : MusicNotationParser) : Prop :=
  meter_value s' = meter_value s
  /\ meter_controller s' = meter_controller s.

(** A SEMICOLON or a PERIOD carries no payload. *)
Definition plain (tok : Token.t) : Prop :=
  Token.type tok = TokenType.SEMICOLON \/ Token.type tok = TokenType.PERIOD ->
  Token.value tok = VNone.

(** [s'] is [s] after a token has been read: the token is there, and the
    meter attributes are as before unless the token is a METER lexed from
    a digit, which they then hold. *)
Definition token_read (s s' : MusicNotationParser) : Prop :=
  kept_by_read s s'
  /\ exists tok,
      current_token s' = Some tok
      /\ plain tok
      /\ (meter_kept s s'
          \/ exists v, tok = text_token TokenType.METER (VInt v)
                       /\ meter_value s' = v /\ meter_controller s' = v).

(** [s'] is [s] where reading a token raised: only the reader moved. *)
Definition read_raised (s s' : MusicNotationParser) : Prop :=
  kept_by_read s s' /\ meter_kept s s'
  /\ current_token s' = current_token s
  /\ image_parser s' = image_parser s.

(** The two as postconditions of a computation started in [s]. *)
Definition after_read (s : MusicNotationParser)
  : unit -> MusicNotationParser -> Prop := fun _ s' => token_read s s'.

Definition after_raise (s : MusicNotationParser)
  : Exn -> MusicNotationParser -> Prop := fun _ s' => read_raised s s'.

(** What the productions of a staff keep: a raised error flag and the two
    names of the header. *)
Definition header_kept (s s' : MusicNotationParser) : Prop :=
  (has_error s = true -> has_error s' = true)
  /\ partition_name s' = partition_name s
  /\ instrument_name s' = instrument_name s.

Definition keeps_header {A} (m : P A) : Prop :=
  forall s, wp m (fun _ s' => header_kept s s') (fun _ s' => header_kept s s')
               s.

(** The cell held by the reader is the cell of the sheet at its position,
    as every move leaves it. *)
Definition in_step (r : ExcelReader) : Prop :=
  current_cell r = cell_at (sheet r) (current_row r) (current_col r).

(** Rounds the loop of [move_to_next_empty_cell] can still make from the
    position of the reader: none below the last row of the sheet. *)
Definition rounds_needed (r : ExcelReader) : nat :=
  if Nat.ltb (List.length (sheet r)) (current_row r) then 0
  else (List.length (sheet r) - current_row r) * 102
       + (101 - Nat.min (current_col r) 101) + 1.

(** The reader stands on a cell without text and without picture. *)
Definition on_blank (r : ExcelReader) : Prop :=
  cell_value (current_cell r) = None /\ image_here r = None.

(** The loop of [find_closest_match] holds no candidate exactly while
    the closest distance is infinite. *)
Definition scan_state (closest_images : list string)
           (closest_distance : option nat) : Prop :=
  closest_images = [] <-> closest_distance = None.

(** The reader stands on a cell of the sheet, in step with it, and not in
    column A (column index 0). *)
Definition reader_inv (r : ExcelReader) : Prop :=
  in_step r /\ 1 <= current_row r /\ 1 <= current_col r.

(** From [r] to [r'] the reader has kept its sheet and has not moved
    back: it is on a later row, or on the same row no further left. *)
Definition forward (r r' : ExcelReader) : Prop :=
  sheet r' = sheet r
  /\ (current_row r < current_row r'
      \/ (current_row r' = current_row r
          /\ current_col r <= current_col r')).

(** A method of the reader that keeps [reader_inv] and moves forward,
    returning or raising. *)
Definition moves_forward {A} (m : M ExcelReader A) : Prop :=
  forall r,
    reader_inv r ->
    wp m (fun _ r' => reader_inv r' /\ forward r r')
         (fun _ r' => reader_inv r' /\ forward r r') r.

(** The meter attributes are in range: the counter is between -1 and the
    meter, and the meter is at most 9. *)
Definition meter_inv (s : MusicNotationParser) : Prop :=
  (-1 <= meter_controller s <= meter_value s /\ meter_value s <= 9)%Z.

(** What every step of the grammar keeps, from [s] to [s']: the two
    sequences are only appended to, a raised error flag stays raised, the
    meter attributes stay in range, and the reader keeps its invariant and
    does not move back. *)
Definition steady (s s' : MusicNotationParser) : Prop :=
  (exists fa, note_tokens_fa s' = (note_tokens_fa s ++ fa)%list)
  /\ (exists sol, note_tokens_sol s' = (note_tokens_sol s ++ sol)%list)
  /\ (has_error s = true -> has_error s' = true)
  /\ (meter_inv s -> meter_inv s')
  /\ (reader_inv (excel_reader s) ->
      reader_inv (excel_reader s')
      /\ forward (excel_reader s) (excel_reader s')).

(** A computation every run of which is [steady], whether it returns or
    raises, also when started after a steady run from [s0]. *)
Definition carried {A} (m : P A) : Prop :=
  forall s0 s,
    steady s0 s ->
    wp m (fun _ s' => steady s0 s') (fun _ s' => steady s0 s') s.

(** From [s] to [s'] the two sequences have only been appended to, and
    an error flag that was raised is still raised. *)
Definition grown (s s' : MusicNotationParser) : Prop :=
  (exists fa, note_tokens_fa s' = (note_tokens_fa s ++ fa)%list)
  /\ (exists sol, note_tokens_sol s' = (note_tokens_sol s ++ sol)%list)
  /\ (has_error s = true -> has_error s' = true).

(** From [s] to [s'] the reader has kept its invariant and not moved
    back. *)
Definition read_on (s s' : MusicNotationParser) : Prop :=
  reader_inv (excel_reader s') /\ forward (excel_reader s) (excel_reader s').

End logic.

Import config image_utils image_parser excel_parser music_parser spec logic.

(* ================================================================== *)
(** * The monad                                                        *)
(* ================================================================== *)

Section monad_facts.
Context {S A B : Type}.

Lemma bind_Ret (m : M S A) (k : A -> M S B) s a s' :
  m s = Ret a s' -> bind m k s = k a s'.
Proof. intros H. unfold bind. now rewrite H. Qed.

Lemma bind_Raise (m : M S A) (k : A -> M S B) s e s' :
  m s = Raise e s' -> bind m k s = Raise e s'.
Proof. intros H. unfold bind. now rewrite H. Qed.

Lemma bind_Ret_inv (m : M S A) (k : A -> M S B) s b s'' :
  bind m k s = Ret b s'' ->
  exists a s', m s = Ret a s' /\ k a s' = Ret b s''.
Proof.
  unfold bind. destruct (m s) as [a s'|e s']; [eauto | discriminate].
Qed.
End monad_facts.

(* ================================================================== *)
(** * The image parser                                                 *)
(* ================================================================== *)

(** A pitch image is resolved by the lookup under the held clef and
    alteration, and the held alteration is NONE afterwards. *)
Lemma identify_pitch i img c a :
  pitch_image i img ->
  _identify_token_from_match img (holding c a)
  = Ret (pitch_token c (lookup c a i)) (holding c AlterationType.NONE).
Proof.
  intros [Hi Hnth].
  do 16 (destruct i as [|i];
         [ injection Hnth as <-; destruct c, a; vm_compute; reflexivity | ]).
  lia.
Qed.

Lemma holding_eta ip : ip = holding (current_clef ip) (current_alteration ip).
Proof. now destruct ip. Qed.

(** The [try] block lets nothing out but ValueError and IndexError. *)
Lemma resolve_note_raises img ip e ip' :
  resolve_note img ip = Raise e ip' -> is_value_or_index_error e = true.
Proof.
  unfold resolve_note, index, getitem, bind, gets, ret, raise.
  destruct (index_from img REFERENCE_IMAGES 0) as [i|]; cbn.
  - destruct (current_clef ip), (current_alteration ip); cbn;
      try discriminate;
      match goal with
      | |- context [nth_error ?l i] => destruct (nth_error l i); cbn
      end;
      try (intros H; injection H as <- _; reflexivity);
      match goal with
      | |- context [if ?b then _ else _] => destruct b; discriminate
      end.
  - intros H; injection H as <- _; reflexivity.
Qed.

Lemma identify_returns img ip :
  exists tok ip', _identify_token_from_match img ip = Ret tok ip'.
Proof.
  unfold _identify_token_from_match.
  repeat match goal with
         | |- context [if String.eqb ?x ?y then _ else _] =>
             destruct (String.eqb x y); [cbn; eauto | ]
         end.
  unfold bind at 1, try_except.
  destruct (resolve_note img ip) as [[tok|] ip'|e ip'] eqn:E; cbn; eauto.
  rewrite (resolve_note_raises _ _ _ _ E). cbn. eauto.
Qed.

(** The [try] block returns no token but a NOTE. *)
Lemma resolve_note_some img ip tok ip' :
  resolve_note img ip = Ret (Some tok) ip' ->
  Token.type tok = TokenType.NOTE.
Proof.
  unfold resolve_note, index, getitem, bind, gets, ret, raise,
    set_alteration, modify.
  destruct (index_from img REFERENCE_IMAGES 0) as [i|]; cbn;
    [ | discriminate ].
  destruct (current_clef ip), (current_alteration ip); cbn;
    try discriminate;
    match goal with
    | |- context [nth_error ?l i] => destruct (nth_error l i); cbn
    end;
    try discriminate;
    match goal with
    | |- context [if ?b then _ else _] => destruct b
    end;
    intros H; first [discriminate H | injection H as <- _; reflexivity].
Qed.

Ltac plain_tac :=
  unfold plain; cbn; intros [H|H]; first [reflexivity | discriminate H].

(** The image parser gives no SEMICOLON and no PERIOD. *)
Lemma identify_plain img ip tok ip' :
  _identify_token_from_match img ip = Ret tok ip' -> plain tok.
Proof.
  unfold _identify_token_from_match.
  repeat match goal with
         | |- context [if String.eqb ?x ?y then _ else _] =>
             destruct (String.eqb x y);
             [ cbn; intros H; injection H as <- _; plain_tac | ]
         end.
  unfold bind at 1, try_except.
  destruct (resolve_note img ip) as [[t|] ip1|e ip1] eqn:E; cbn.
  - intros H; injection H as <- _. apply resolve_note_some in E.
    unfold plain. rewrite E. intros [H|H]; discriminate H.
  - intros H; injection H as <- _. plain_tac.
  - destruct (is_value_or_index_error e); cbn; [ | discriminate ].
    intros H; injection H as <- _. plain_tac.
Qed.

Lemma parse_image_plain pic ip tok ip' :
  parse_image pic ip = Ret (Some tok) ip' -> plain tok.
Proof.
  destruct pic as [| |ref]; unfold parse_image.
  - discriminate.
  - cbn. intros H; injection H as <- _. plain_tac.
  - destruct (negb (truthy (VStr ref))).
    + cbn. intros H; injection H as <- _. plain_tac.
    + unfold bind at 1.
      destruct (_identify_token_from_match ref ip) as [t ip1|e ip1] eqn:E;
        [ | discriminate ].
      cbn. intros H; injection H as <- _. exact (identify_plain _ _ _ _ E).
Qed.

(* ================================================================== *)
(** * Rules for [wp], [returns] and [approx]                           *)
(* ================================================================== *)

Section rules.
Context {S : Type}.

Lemma wp_ret {A} (a : A) Qr Qe (s : S) : Qr a s -> wp (ret a) Qr Qe s.
Proof. exact (fun H => H). Qed.

Lemma wp_raise {A} e (Qr : A -> S -> Prop) Qe (s : S) :
  Qe e s -> wp (raise e) Qr Qe s.
Proof. exact (fun H => H). Qed.

Lemma wp_gets {A} (f : S -> A) Qr Qe s : Qr (f s) s -> wp (gets f) Qr Qe s.
Proof. exact (fun H => H). Qed.

Lemma wp_modify (f : S -> S) Qr Qe s : Qr tt (f s) -> wp (modify f) Qr Qe s.
Proof. exact (fun H => H). Qed.

Lemma wp_bind {A B} (m : M S A) (k : A -> M S B) Qr Qe s :
  wp m (fun a s' => wp (k a) Qr Qe s') Qe s -> wp (bind m k) Qr Qe s.
Proof. unfold wp, bind. now destruct (m s). Qed.

Lemma wp_conseq {A} (m : M S A) (Qr Qr' : A -> S -> Prop)
      (Qe Qe' : Exn -> S -> Prop) s :
  wp m Qr Qe s ->
  (forall a s', Qr a s' -> Qr' a s') ->
  (forall e s', Qe e s' -> Qe' e s') ->
  wp m Qr' Qe' s.
Proof. unfold wp. destruct (m s); auto. Qed.

Lemma wp_final {A} (m : M S A) (Q : S -> Prop) s :
  wp m (fun _ s' => Q s') (fun _ s' => Q s') s -> Q (final (m s)).
Proof. unfold wp, final. now destruct (m s). Qed.

Lemma wp_Ret {A} (m : M S A) Qr Qe s a s' :
  wp m Qr Qe s -> m s = Ret a s' -> Qr a s'.
Proof. unfold wp. intros H E. now rewrite E in H. Qed.

Lemma wp_Raise {A} (m : M S A) Qr Qe s e s' :
  wp m Qr Qe s -> m s = Raise e s' -> Qe e s'.
Proof. unfold wp. intros H E. now rewrite E in H. Qed.

Lemma returns_ret {A} (a : A) : returns (ret (S := S) a).
Proof. intros s. now exists a, s. Qed.

Lemma returns_gets {A} (f : S -> A) : returns (gets f).
Proof. intros s. now exists (f s), s. Qed.

Lemma returns_modify (f : S -> S) : returns (modify f).
Proof. intros s. now exists tt, (f s). Qed.

Lemma returns_bind {A B} (m : M S A) (k : A -> M S B) :
  returns m -> (forall a, returns (k a)) -> returns (bind m k).
Proof.
  intros Hm Hk s. destruct (Hm s) as (a & s' & E).
  destruct (Hk a s') as (b & s'' & E'). exists b, s''.
  now rewrite (bind_Ret _ _ _ _ _ E).
Qed.

Lemma approx_refl {A} (m : M S A) : approx m m.
Proof. now intros s a s'. Qed.

Lemma approx_raise {A} e (m : M S A) : approx (raise e) m.
Proof. intros s a s'. discriminate. Qed.

Lemma approx_bind {A B} (m m' : M S A) (k k' : A -> M S B) :
  approx m m' -> (forall a, approx (k a) (k' a)) ->
  approx (bind m k) (bind m' k').
Proof.
  intros Hm Hk s b s'' H.
  destruct (bind_Ret_inv _ _ _ _ _ H) as (a & s' & E & E').
  rewrite (bind_Ret _ _ _ _ _ (Hm _ _ _ E)). now apply Hk.
Qed.

End rules.

Create HintDb returns.
#[local] Hint Resolve returns_ret returns_gets returns_modify : returns.

Ltac returns_tac :=
  repeat first
    [ apply returns_ret | apply returns_gets | apply returns_modify
    | apply returns_bind; [ | intros ? ]
    | match goal with
      | |- returns (match ?x with _ => _ end) => destruct x
      | |- returns (if ?x then _ else _) => destruct x
      end
    | solve [ auto with returns ] ].

(* ================================================================== *)
(** * The reader                                                       *)
(* ================================================================== *)

Lemma _move_to_next_cell_returns : returns _move_to_next_cell.
Proof. unfold _move_to_next_cell, set_position, set_current_cell,
         set_current_text_iter. returns_tac. Qed.

#[local] Hint Resolve _move_to_next_cell_returns : returns.

Lemma _move_to_next_row_returns : returns _move_to_next_row.
Proof. unfold _move_to_next_row, set_position. returns_tac. Qed.

#[local] Hint Resolve _move_to_next_row_returns : returns.

Lemma has_text_content_returns : returns has_text_content.
Proof. unfold has_text_content. returns_tac. Qed.

Lemma has_image_content_returns : returns has_image_content.
Proof. unfold has_image_content. returns_tac. Qed.

Lemma read_next_char_returns : returns read_next_char.
Proof. unfold read_next_char, set_current_text_iter. returns_tac. Qed.

Lemma read_image_returns : returns read_image.
Proof. unfold read_image, has_image_content. returns_tac. Qed.

#[local] Hint Resolve has_text_content_returns has_image_content_returns
  read_next_char_returns read_image_returns : returns.

Lemma move_while_content_returns n : returns (move_while_content n).
Proof.
  induction n; cbn [move_while_content]; returns_tac.
Qed.

Lemma move_to_next_empty_cell_returns : returns move_to_next_empty_cell.
Proof.
  unfold move_to_next_empty_cell. returns_tac.
  apply move_while_content_returns.
Qed.

#[local] Hint Resolve move_to_next_empty_cell_returns : returns.

(** On a blank cell the loop of [move_to_next_empty_cell] does not run. *)
Lemma move_to_next_empty_cell_blank r :
  on_blank r -> move_to_next_empty_cell r = Ret tt r.
Proof.
  intros [Ht Hi]. unfold move_to_next_empty_cell, bind, gets.
  destruct (rounds r); cbn; unfold bind, has_text_content, has_image_content,
    bind, gets, ret; rewrite Ht, Hi; reflexivity.
Qed.

(** The image parser never raises. *)
Lemma parse_image_returns pic : returns (parse_image pic).
Proof.
  intros ip. destruct pic as [| |ref]; unfold parse_image.
  - now exists None, ip.
  - unfold bind, _create_unknown_token, gets, ret. cbn. eauto.
  - destruct (negb (truthy (VStr ref))).
    + unfold bind, _create_unknown_token, gets, ret. cbn. eauto.
    + unfold bind. destruct (identify_returns ref ip) as (tok & ip' & E).
      rewrite E. cbn. eauto.
Qed.

#[local] Hint Resolve parse_image_returns : returns.

(* ================================================================== *)
(** * Reading a token                                                  *)
(* ================================================================== *)

Lemma wp_on_reader {A} (m : M ExcelReader A) Qr Qe s :
  returns m ->
  (forall a r, Qr a (put_excel_reader r s)) ->
  wp (on_reader m) Qr Qe s.
Proof.
  intros Hm H. unfold wp, on_reader, within.
  destruct (Hm (excel_reader s)) as (a & r & E). rewrite E. apply H.
Qed.

Lemma wp_on_image_parser {A} (m : M NotationImageParser A) Qr Qe s :
  returns m ->
  (forall a ip, m (image_parser s) = Ret a ip ->
                Qr a (put_image_parser ip s)) ->
  wp (on_image_parser m) Qr Qe s.
Proof.
  intros Hm H. unfold wp, on_image_parser, within.
  destruct (Hm (image_parser s)) as (a & ip & E). rewrite E. now apply H.
Qed.

(** The two loops of the lexer only move the reader. *)
Lemma while_isspace_wp n : forall c Qr Qe s,
  (forall a r, Qr a (put_excel_reader r s)) ->
  wp (while_isspace n c) Qr Qe s.
Proof.
  induction n as [|n IH]; intros c Qr Qe s H; cbn [while_isspace];
    (destruct (isspace c);
     [ apply wp_bind, wp_on_reader; [auto with returns |];
       intros [c'|] r; try apply H
     | destruct s; apply (H (Some c)) ]).
  apply IH. intros a r'. apply H.
Qed.

Lemma while_alnum_wp n : forall kw next Qr Qe s,
  (forall a r, Qr a (put_excel_reader r s)) ->
  wp (while_alnum n kw next) Qr Qe s.
Proof.
  induction n as [|n IH]; intros kw [c|] Qr Qe s H; cbn [while_alnum];
    try (destruct s; apply (H kw));
    (destruct (isalpha c || isdigit c); [ | destruct s; apply (H kw) ]).
  - destruct s; apply (H kw).
  - apply wp_bind, wp_on_reader; [auto with returns |].
    intros next r. apply IH. intros a r'. apply H.
Qed.

Ltac kept_core :=
  repeat match goal with
         | |- _ /\ _ => split
         | |- exists _, _ => eexists
         | |- _ = _ => reflexivity
         | |- plain _ => plain_tac
         end.

Ltac kept :=
  unfold wp, after_read, after_raise, token_read, read_raised, kept_by_read,
    meter_kept; cbn; kept_core;
  try first [ left; solve [kept_core] | right; solve [kept_core] ].

Section token_source_facts.
Variable rd : P unit.
Hypothesis rd_wp : forall s, wp rd (after_read s) (after_raise s) s.

Lemma rd_moved s s1 :
  read_raised s s1 -> wp rd (after_read s) (after_raise s) s1.
Proof.
  intros (K & Mk & Tk & Ik). apply (wp_conseq _ _ _ _ _ _ (rd_wp s1)).
  - intros u s' (K' & tok & Ht & Hpl & Hm). unfold after_read, token_read.
    unfold kept_by_read, meter_kept in *.
    repeat split; try (intuition congruence).
    exists tok. split; [exact Ht |]. split; [exact Hpl |].
    destruct Hm as [Hm | (v & Hv0 & Hv & Hc)]; [left | right; eauto].
    intuition congruence.
  - intros e s' (K' & Mk' & Tk' & Ik'). unfold after_raise, read_raised.
    unfold kept_by_read, meter_kept in *.
    repeat split; intuition congruence.
Qed.

Ltac again := apply rd_moved; kept.

Lemma _process_text_content_wp s :
  wp (_process_text_content rd) (after_read s) (after_raise s) s.
Proof.
  unfold _process_text_content.
  apply wp_bind, wp_on_reader; [auto with returns |].
  intros [c|] r; [ | again ].
  apply wp_bind, wp_gets, wp_bind, while_isspace_wp.
  intros [c'|] r'; [ | again ].
  repeat match goal with
         | |- context [if Ascii.eqb ?x ?y then _ else _] =>
             destruct (Ascii.eqb x y); [ kept | ]
         end.
  destruct (isdigit c').
  { unfold int_of_char. destruct (between 48 57 (ord c')); kept. }
  destruct (isalpha c'); [ | kept ].
  apply wp_bind, wp_on_reader; [auto with returns |].
  intros next r''.
  apply wp_bind, wp_gets, wp_bind, while_alnum_wp.
  intros kw r'''.
  repeat match goal with
         | |- context [if String.eqb ?x ?y then _ else _] =>
             destruct (String.eqb x y); [ kept | ]
         end.
  kept.
Qed.

Lemma _process_image_content_wp s :
  wp (_process_image_content rd) (after_read s) (after_raise s) s.
Proof.
  unfold _process_image_content.
  apply wp_bind, wp_on_reader; [auto with returns |].
  intros [pic|] r; [ | again ].
  apply wp_bind, wp_on_image_parser; [auto with returns |].
  intros [tok|] ip Hpi; kept.
  exact (parse_image_plain _ _ _ _ Hpi).
Qed.
End token_source_facts.

(** Reading a token assigns the token, the reader, the image parser and,
    for a METER, the two meter attributes; nothing else. *)
Lemma _read_next_token_wp fuel :
  forall s, wp (_read_next_token fuel) (after_read s) (after_raise s) s.
Proof.
  induction fuel as [|fuel IH]; intros s; cbn [_read_next_token]; [kept |].
  apply wp_bind, wp_on_reader; [auto with returns |]. intros [|] r.
  - exact (_process_text_content_wp _ IH (put_excel_reader r s)).
  - apply wp_bind, wp_on_reader; [auto with returns |]. intros [|] r'.
    + exact (_process_image_content_wp _ IH
               (put_excel_reader r' (put_excel_reader r s))).
    + apply wp_bind, wp_on_reader; [auto with returns |]. intros [] r''.
      exact (IH (put_excel_reader r'' (put_excel_reader r'
                                          (put_excel_reader r s)))).
Qed.

Lemma put_excel_reader_same s : put_excel_reader (excel_reader s) s = s.
Proof. now destruct s. Qed.

Lemma on_reader_Ret {A} (m : M ExcelReader A) s a r :
  m (excel_reader s) = Ret a r -> on_reader m s = Ret a (put_excel_reader r s).
Proof. intros H. unfold on_reader, within. now rewrite H. Qed.

(** On a blank cell the reader stays where it is and the token source calls
    itself until the interpreter gives up. *)
Lemma _read_next_token_on_blank fuel s :
  on_blank (excel_reader s) ->
  _read_next_token fuel s = Raise RecursionError s.
Proof.
  intros Hb. induction fuel as [|fuel IH]; cbn [_read_next_token];
    [reflexivity |].
  pose proof (move_to_next_empty_cell_blank _ Hb) as Hmove.
  destruct Hb as [Ht Hi].
  rewrite (bind_Ret _ _ s false s).
  2:{ rewrite <- (put_excel_reader_same s) at 2. apply on_reader_Ret.
      unfold has_text_content, bind, gets, ret. now rewrite Ht. }
  rewrite (bind_Ret _ _ s false s).
  2:{ rewrite <- (put_excel_reader_same s) at 2. apply on_reader_Ret.
      unfold has_image_content, bind, gets, ret. now rewrite Hi. }
  rewrite (bind_Ret _ _ s tt s); [exact IH |].
  rewrite <- (put_excel_reader_same s) at 2. now apply on_reader_Ret.
Qed.

(* ================================================================== *)
(** * More depth changes nothing that returned                         *)
(* ================================================================== *)

Ltac approx_tac :=
  repeat first
    [ assumption
    | apply approx_refl
    | apply approx_raise
    | apply approx_bind; [ | intros ? ]
    | match goal with
      | |- approx (if ?b then _ else _) (if ?b then _ else _) => destruct b
      | |- approx (match ?x with _ => _ end) (match ?x with _ => _ end) =>
          destruct x
      | H : forall m, _ <= m -> approx (?f _) (?f m) |- approx (?f _) (?f _) =>
          apply H; lia
      end ].

Lemma _process_text_content_approx x y :
  approx x y -> approx (_process_text_content x) (_process_text_content y).
Proof. intros H. unfold _process_text_content. approx_tac. Qed.

Lemma _process_image_content_approx x y :
  approx x y -> approx (_process_image_content x) (_process_image_content y).
Proof. intros H. unfold _process_image_content. approx_tac. Qed.

Lemma _read_next_token_stable : stable _read_next_token.
Proof.
  intros n. induction n as [|n IH]; intros m Hle; [apply approx_raise |].
  destruct m as [|m]; [lia |]. cbn [_read_next_token].
  assert (approx (_read_next_token n) (_read_next_token m)) by (apply IH; lia).
  approx_tac.
Qed.

Ltac stable_tac :=
  repeat first
    [ assumption
    | match goal with
      | |- approx ?x ?y => constr_eq x y; apply approx_refl
      | |- approx (raise _) _ => apply approx_raise
      | H : stable ?f |- approx (?f _) (?f _) => apply H; lia
      | H : forall a b, stable (fun n => ?f n a b)
        |- approx (?f _ _ _) (?f _ _ _) => apply (H _ _); lia
      | H : stable (fun n => ?f n ?a ?b)
        |- approx (?f ?n ?a ?b) (?f ?m ?a ?b) => apply (H n m); lia
      | H : forall m, _ <= m -> approx (?f _) (?f m) |- approx (?f _) (?f _) =>
          apply H; lia
      | |- approx (bind _ _) (bind _ _) => apply approx_bind; [ | intros ? ]
      | |- approx (if ?b then _ else _) (if ?b then _ else _) => destruct b
      | |- approx (match ?x with _ => _ end) (match ?x with _ => _ end) =>
          destruct x
      end ].

Lemma _expect_stable ty ctx : stable (fun n => _expect n ty ctx).
Proof.
  intros n m Hle. pose proof _read_next_token_stable as Hr.
  unfold _expect. stable_tac.
Qed.

Lemma _parse_alteration_stable : stable _parse_alteration.
Proof.
  intros n m Hle. pose proof _read_next_token_stable as Hr.
  unfold _parse_alteration. stable_tac.
Qed.

Lemma _parse_symbol_stable : stable _parse_symbol.
Proof.
  intros n m Hle. pose proof _read_next_token_stable as Hr.
  pose proof _parse_alteration_stable as Ha.
  unfold _parse_symbol, _parse_note. stable_tac.
Qed.

Lemma _parse_additional_symbols_stable : stable _parse_additional_symbols.
Proof.
  intros n. induction n as [|n IH]; intros m Hle; [apply approx_raise |].
  destruct m as [|m]; [lia |]. cbn [_parse_additional_symbols].
  pose proof _parse_symbol_stable as Hs. stable_tac.
Qed.

Lemma _parse_measure_stable : stable _parse_measure.
Proof.
  intros n m Hle. pose proof _parse_symbol_stable as Hs.
  pose proof _parse_additional_symbols_stable as Ha.
  unfold _parse_measure, _parse_symbols. stable_tac.
Qed.

Lemma _parse_additional_measures_stable : stable _parse_additional_measures.
Proof.
  intros n. induction n as [|n IH]; intros m Hle; [apply approx_raise |].
  destruct m as [|m]; [lia |]. cbn [_parse_additional_measures].
  pose proof _read_next_token_stable as Hr.
  pose proof _parse_measure_stable as Hm. stable_tac.
Qed.

Lemma _parse_staff_stable : stable _parse_staff.
Proof.
  intros n m Hle. pose proof _read_next_token_stable as Hr.
  pose proof _parse_measure_stable as Hm.
  pose proof _parse_additional_measures_stable as Ha.
  pose proof (_expect_stable TokenType.END_STAFF_BAR "end of staff") as He.
  unfold _parse_staff, _parse_meter, _parse_measures. stable_tac.
Qed.

Lemma _parse_multiple_staffs_stable : stable _parse_multiple_staffs.
Proof.
  intros n. induction n as [|n IH]; intros m Hle; [apply approx_raise |].
  destruct m as [|m]; [lia |]. cbn [_parse_multiple_staffs].
  pose proof _parse_staff_stable as Hs. stable_tac.
Qed.

Lemma _parse_partition_stable : stable _parse_partition.
Proof.
  intros n m Hle. pose proof _parse_multiple_staffs_stable as Hs.
  pose proof _expect_stable as He.
  unfold _parse_partition. stable_tac.
Qed.

(* ================================================================== *)
(** * The classifier: claims C5 and C6                                 *)
(* ================================================================== *)

Lemma identify_accidental img a c a0 :
  accidental img a ->
  exists tok, _identify_token_from_match img (holding c a0)
              = Ret tok (holding c a).
Proof.
  intros [[-> ->]|[-> ->]]; vm_compute; eauto.
Qed.

Lemma classify_all_passing mid c a :
  Forall passing mid -> classify_all mid (holding c a) = Ret tt (holding c a).
Proof.
  induction 1 as [|img mid Himg _ IH]; [reflexivity |].
  cbn [classify_all]. unfold passing in Himg. cbn in Himg.
  destruct Himg as [<-|[<-|[<-|[<-|[]]]]];
    (erewrite bind_Ret; [exact IH | reflexivity]).
Qed.

(** C5.  After an accidental image has been classified, the next pitch image
    classified, also past rests and bars, is resolved through the table of
    the held clef and of that accidental; whether this gives a NOTE or an
    UNKNOWN token, the held alteration is NONE afterwards, so that the pitch
    image after it is resolved through the unaltered table of the clef. *)
Theorem C5_alteration_serves_one_pitch :
  forall (acc p1 p2 : string) (mid mid' : list string)
         (a a0 : AlterationType.t) (c : ClefType.t) (i j : nat),
    accidental acc a -> pitch_image i p1 -> pitch_image j p2 ->
    Forall passing mid -> Forall passing mid' ->
    (_identify_token_from_match acc ;;
     classify_all mid ;;
     _identify_token_from_match p1) (holding c a0)
    = Ret (pitch_token c (lookup c a i)) (holding c AlterationType.NONE)
    /\ (_identify_token_from_match acc ;;
        classify_all mid ;;
        _identify_token_from_match p1 ;;
        classify_all mid' ;;
        _identify_token_from_match p2) (holding c a0)
       = Ret (pitch_token c (lookup c AlterationType.NONE j))
             (holding c AlterationType.NONE).
Proof.
  intros acc p1 p2 mid mid' a a0 c i j Hacc H1 H2 Hmid Hmid'.
  destruct (identify_accidental acc a c a0 Hacc) as (tok & E).
  split.
  - rewrite (bind_Ret _ _ _ _ _ E).
    rewrite (bind_Ret _ _ _ _ _ (classify_all_passing mid c a Hmid)).
    now apply identify_pitch.
  - rewrite (bind_Ret _ _ _ _ _ E).
    rewrite (bind_Ret _ _ _ _ _ (classify_all_passing mid c a Hmid)).
    rewrite (bind_Ret _ _ _ _ _ (identify_pitch i p1 c a H1)).
    rewrite (bind_Ret _ _ _ _ _ (classify_all_passing mid' c _ Hmid')).
    now apply identify_pitch.
Qed.

Lemma C5_witness :
  (_identify_token_from_match "Alteration_DIESE.JPG" ;;
   classify_all ["BATON_MESURE.JPG"] ;;
   _identify_token_from_match "Note_H2.JPG" ;;
   classify_all [] ;;
   _identify_token_from_match "Note_H3.JPG")
    (holding ClefType.FA AlterationType.NONE)
  = Ret (Token.new TokenType.NOTE (VStr "FA_TOKEN_MI_L") ClefType.FA
                   AlterationType.NONE)
        (holding ClefType.FA AlterationType.NONE).
Proof.
  apply (C5_alteration_serves_one_pitch
           "Alteration_DIESE.JPG" "Note_H2.JPG" "Note_H3.JPG"
           ["BATON_MESURE.JPG"] []
           AlterationType.DIESE AlterationType.NONE ClefType.FA 1 2).
  - left. split; reflexivity.
  - split; [lia | reflexivity].
  - split; [lia | reflexivity].
  - apply Forall_cons; [ | apply Forall_nil ].
    unfold passing. cbn. right. right. left. reflexivity.
  - apply Forall_nil.
Defined.

(** C6.  Classifying a reference name always returns a token, nothing is
    raised to the caller; and for each of the sixteen pitch images, when no
    clef is held or the lookup entry of the held clef, the held alteration
    and the position is the empty string, that token is UNKNOWN and carries
    no payload. *)
Theorem C6_unknown_instead_of_raising :
  forall (img : string) (ip : NotationImageParser),
  exists tok ip',
    _identify_token_from_match img ip = Ret tok ip'
    /\ forall i,
        pitch_image i img ->
        current_clef ip = ClefType.NONE
        \/ lookup (current_clef ip) (current_alteration ip) i = "" ->
        Token.type tok = TokenType.UNKNOWN /\ Token.value tok = VNone.
Proof.
  intros img ip. destruct (identify_returns img ip) as (tok & ip' & E).
  exists tok, ip'. split; [exact E |]. intros i Hp Hc.
  rewrite (holding_eta ip), (identify_pitch i img _ _ Hp) in E.
  injection E as <- _.
  assert (lookup (current_clef ip) (current_alteration ip) i = "") as ->.
  { destruct Hc as [-> | ->]; reflexivity. }
  split; reflexivity.
Qed.

Lemma C6_witness :
  exists tok ip',
    _identify_token_from_match "Note_H1.JPG"
      (holding ClefType.SOL AlterationType.NONE) = Ret tok ip'
    /\ Token.type tok = TokenType.UNKNOWN /\ Token.value tok = VNone.
Proof.
  destruct (C6_unknown_instead_of_raising
              "Note_H1.JPG" (holding ClefType.SOL AlterationType.NONE))
    as (tok & ip' & E & H).
  exists tok, ip'. split; [exact E |]. apply (H 0).
  - split; [lia | reflexivity].
  - right. reflexivity.
Defined.

(* ================================================================== *)
(** * The productions of a symbol                                      *)
(* ================================================================== *)

Lemma TokenType_eqb_eq a b : TokenType.eqb a b = true <-> a = b.
Proof.
  unfold TokenType.eqb. destruct (TokenType.eq_dec a b); split;
    congruence.
Qed.

Ltac eval_mem :=
  repeat match goal with
         | |- context [TokenType.mem ?k ?l] =>
             let v := eval vm_compute in (TokenType.mem k l) in
             change (TokenType.mem k l) with v
         | |- context [TokenType.eqb ?k ?l] =>
             let v := eval vm_compute in (TokenType.eqb k l) in
             change (TokenType.eqb k l) with v
         end;
  cbv iota.

Lemma the_token_Ret p tok :
  current_token p = Some tok -> the_token p = Ret tok p.
Proof. intros H. unfold the_token, bind, gets. now rewrite H. Qed.

Lemma put_meter_controller_same p :
  put_meter_controller (meter_controller p) p = p.
Proof. now destruct p. Qed.

Lemma read_Ret fuel s s' :
  _read_next_token fuel s = Ret tt s' -> token_read s s'.
Proof. intros H. exact (wp_Ret _ _ _ _ _ _ (_read_next_token_wp fuel s) H). Qed.

Lemma read_Raise fuel s e s' :
  _read_next_token fuel s = Raise e s' -> read_raised s s'.
Proof.
  intros H. exact (wp_Raise _ _ _ _ _ _ (_read_next_token_wp fuel s) H).
Qed.

Lemma read_final fuel s : kept_by_read s (final (_read_next_token fuel s)).
Proof.
  apply wp_final with (Q := kept_by_read s).
  apply (wp_conseq _ _ _ _ _ _ (_read_next_token_wp fuel s)).
  - now intros _ s' [H _].
  - now intros _ s' [H _].
Qed.

Lemma read_outputs fuel s :
  outputs (final (_read_next_token fuel s)) = outputs s.
Proof.
  destruct (read_final fuel s) as (_ & _ & _ & _ & Hfa & Hsol).
  unfold outputs. now rewrite Hfa, Hsol.
Qed.

(** A NOTE with a payload: one entry, in the sequence its prefix names. *)
Lemma _parse_note_height_note p tok payload :
  current_token p = Some tok ->
  Token.type tok = TokenType.NOTE ->
  Token.value tok = VStr payload ->
  payload <> "" ->
  _parse_note_height p
  = Ret tt
      (if startswith payload "FA_TOKEN"
       then put_note_tokens_fa
              (note_tokens_fa p ++ [note_entry payload (instrument_name p)]) p
       else put_note_tokens_sol
              (note_tokens_sol p ++ [note_entry payload (instrument_name p)])
              p).
Proof.
  intros Hc Ht Hv Hne. unfold _parse_note_height.
  rewrite (bind_Ret _ _ _ _ _ (the_token_Ret _ _ Hc)).
  rewrite Ht, Hv. eval_mem. cbn [truthy].
  destruct (String.eqb_spec payload ""); [contradiction |]. cbn [negb].
  unfold bind, gets, set_note_tokens_fa, set_note_tokens_sol, modify.
  cbn [str]. now destruct (startswith payload "FA_TOKEN").
Qed.

(** What [_parse_silence] does, whatever the token. *)
Lemma _parse_silence_eq p tok :
  current_token p = Some tok ->
  _parse_silence p
  = Ret tt
      (if ClefType.eqb (Token.clef tok) ClefType.FA
       then put_note_tokens_fa
              (note_tokens_fa p ++ [TokenType.name (Token.type tok)]) p
       else put_note_tokens_sol
              (note_tokens_sol p ++ [TokenType.name (Token.type tok)]) p).
Proof.
  intros Hc. unfold _parse_silence.
  rewrite (bind_Ret _ _ _ _ _ (the_token_Ret _ _ Hc)).
  now destruct (ClefType.eqb (Token.clef tok) ClefType.FA).
Qed.

(** The first statement of [_parse_symbol] counts the symbol; the rest is
    chosen by the kind of the token. *)
Lemma _parse_symbol_eq fuel p tok :
  current_token p = Some tok ->
  _parse_symbol fuel p
  = ((if TokenType.mem (Token.type tok)
           [TokenType.ALTERATION_DIESE; TokenType.ALTERATION_BEMOL;
            TokenType.NOTE]
      then _parse_note fuel
      else if TokenType.mem (Token.type tok)
                [TokenType.PAUSE; TokenType.HALF_PAUSE]
           then _parse_silence
           else _error "symbol") ;;
     _read_next_token fuel)
      (put_meter_controller (counted (meter_controller p)) p).
Proof.
  intros Hc. unfold _parse_symbol, counted.
  unfold bind at 1, gets at 1.
  destruct (0 <? meter_controller p)%Z.
  - unfold bind at 1, set_meter_controller, modify.
    erewrite bind_Ret; [reflexivity |]. now apply the_token_Ret.
  - unfold bind at 1, ret at 1. rewrite put_meter_controller_same.
    erewrite bind_Ret; [reflexivity |]. now apply the_token_Ret.
Qed.

Lemma the_token_None p :
  current_token p = None ->
  the_token p
  = Raise (AttributeError "'NoneType' object has no attribute 'type'") p.
Proof. intros H. unfold the_token, bind, gets. now rewrite H. Qed.

Lemma _parse_symbol_no_token fuel p :
  current_token p = None ->
  _parse_symbol fuel p
  = Raise (AttributeError "'NoneType' object has no attribute 'type'")
      (put_meter_controller (counted (meter_controller p)) p).
Proof.
  intros Hc. unfold _parse_symbol, counted, bind at 1, gets at 1.
  destruct (0 <? meter_controller p)%Z.
  - rewrite (bind_Ret _ _ p tt
               (put_meter_controller (meter_controller p - 1) p))
      by reflexivity.
    now rewrite (bind_Raise _ _ _ _ _
                   (the_token_None (put_meter_controller _ p) Hc)).
  - rewrite (bind_Ret _ _ p tt p) by reflexivity.
    rewrite put_meter_controller_same.
    now rewrite (bind_Raise _ _ _ _ _ (the_token_None _ Hc)).
Qed.

Lemma _parse_note_on_note fuel p tok :
  current_token p = Some tok ->
  Token.type tok = TokenType.NOTE ->
  _parse_note fuel p = _parse_note_height p.
Proof.
  intros Hc Ht. unfold _parse_note, _parse_alteration.
  unfold bind at 1. unfold bind at 1.
  rewrite (the_token_Ret _ _ Hc), Ht. eval_mem. reflexivity.
Qed.

Lemma _parse_note_on_alteration fuel p tok :
  current_token p = Some tok ->
  Token.type tok = TokenType.ALTERATION_DIESE
  \/ Token.type tok = TokenType.ALTERATION_BEMOL ->
  _parse_note fuel p = (_read_next_token fuel ;; _parse_note_height) p.
Proof.
  intros Hc Ht. unfold _parse_note, _parse_alteration.
  unfold bind at 1. unfold bind at 1.
  rewrite (the_token_Ret _ _ Hc).
  destruct Ht as [-> | ->]; eval_mem; reflexivity.
Qed.

Lemma _error_eq ctx q :
  _error ctx q
  = Ret tt (put_error_message
              ("Syntax error in " ++ ctx ++ ": Unexpected token "
               ++ Token.str_opt (current_token q))
              (put_has_error true q)).
Proof. reflexivity. Qed.

Lemma _expect_outputs n ty ctx q :
  outputs (final (_expect n ty ctx q)) = outputs q.
Proof.
  unfold _expect. destruct (current_token q) as [tok|] eqn:Hc.
  - rewrite (bind_Ret _ _ _ _ _ (the_token_Ret _ _ Hc)).
    destruct (negb (TokenType.eqb (Token.type tok) ty)); [reflexivity |].
    destruct (_read_next_token n q) as [[] q'|e q'] eqn:E.
    + rewrite (bind_Ret _ _ _ _ _ E). cbn.
      now rewrite <- (read_outputs n q), E.
    + rewrite (bind_Raise _ _ _ _ _ E). cbn.
      now rewrite <- (read_outputs n q), E.
  - now rewrite (bind_Raise _ _ _ _ _ (the_token_None _ Hc)).
Qed.

Lemma _parse_alteration_outputs n q :
  outputs (final (_parse_alteration n q)) = outputs q.
Proof.
  unfold _parse_alteration. destruct (current_token q) as [tok|] eqn:Hc.
  - rewrite (bind_Ret _ _ _ _ _ (the_token_Ret _ _ Hc)).
    destruct (TokenType.mem _ _); [apply read_outputs |].
    destruct (negb _); reflexivity.
  - now rewrite (bind_Raise _ _ _ _ _ (the_token_None _ Hc)).
Qed.

Lemma _parse_meter_outputs n q :
  outputs (final (_parse_meter n q)) = outputs q.
Proof.
  unfold _parse_meter. destruct (current_token q) as [tok|] eqn:Hc.
  - rewrite (bind_Ret _ _ _ _ _ (the_token_Ret _ _ Hc)).
    destruct (TokenType.eqb _ _); [apply read_outputs |].
    destruct (TokenType.mem _ _); reflexivity.
  - now rewrite (bind_Raise _ _ _ _ _ (the_token_None _ Hc)).
Qed.

Lemma _parse_note_height_outputs q :
  (forall tk s, current_token q = Some tk ->
                Token.type tk = TokenType.NOTE ->
                Token.value tk = VStr s -> s = "") ->
  outputs (final (_parse_note_height q)) = outputs q.
Proof.
  intros H. unfold _parse_note_height.
  destruct (current_token q) as [tok|] eqn:Hc.
  - rewrite (bind_Ret _ _ _ _ _ (the_token_Ret _ _ Hc)).
    destruct (TokenType.eqb (Token.type tok) TokenType.NOTE) eqn:Ht;
      [ | reflexivity ].
    apply TokenType_eqb_eq in Ht.
    destruct (Token.value tok) as [|s|n] eqn:Hv; cbn [truthy].
    + reflexivity.
    + rewrite (H tok s eq_refl Ht Hv). reflexivity.
    + destruct (negb (n =? 0)%Z); reflexivity.
  - now rewrite (bind_Raise _ _ _ _ _ (the_token_None _ Hc)).
Qed.

(** C7.  A NOTE token with a non-empty payload that the grammar recognises
    gives exactly one entry, the payload, an underscore and the instrument
    name: appended to the FA sequence when the payload starts with FA_TOKEN,
    to the SOL sequence otherwise.  [_parse_note_height] is the one method
    that writes note entries: reading a token, recording an error, an
    expectation, the alteration and the meter productions leave both
    sequences as they are, and so does [_parse_note_height] itself on any
    other token. *)
Theorem C7_note_entries :
  forall (fuel : nat) (p : MusicNotationParser) (tok : Token.t)
         (payload : string),
    current_token p = Some tok ->
    Token.type tok = TokenType.NOTE ->
    Token.value tok = VStr payload ->
    payload <> "" ->
    let entry := note_entry payload (instrument_name p) in
    _parse_note_height p
    = Ret tt (if startswith payload "FA_TOKEN"
              then put_note_tokens_fa (note_tokens_fa p ++ [entry]) p
              else put_note_tokens_sol (note_tokens_sol p ++ [entry]) p)
    /\ outputs (final (_parse_symbol fuel p))
       = (if startswith payload "FA_TOKEN"
          then ((note_tokens_fa p ++ [entry])%list, note_tokens_sol p)
          else (note_tokens_fa p, (note_tokens_sol p ++ [entry])%list))
    /\ (forall n q, outputs (final (_read_next_token n q)) = outputs q)
    /\ (forall ctx q, outputs (final (_error ctx q)) = outputs q)
    /\ (forall n ty ctx q, outputs (final (_expect n ty ctx q)) = outputs q)
    /\ (forall n q, outputs (final (_parse_alteration n q)) = outputs q)
    /\ (forall n q, outputs (final (_parse_meter n q)) = outputs q)
    /\ (forall q,
          (forall tk s, current_token q = Some tk ->
                        Token.type tk = TokenType.NOTE ->
                        Token.value tk = VStr s -> s = "") ->
          outputs (final (_parse_note_height q)) = outputs q).
Proof.
  intros fuel p tok payload Hc Ht Hv Hne entry.
  split; [now apply (_parse_note_height_note p tok payload) |].
  split.
  { rewrite (_parse_symbol_eq fuel p tok Hc), Ht. eval_mem.
    set (p1 := put_meter_controller _ p).
    assert (_parse_note fuel p1
            = Ret tt (if startswith payload "FA_TOKEN"
                      then put_note_tokens_fa
                             (note_tokens_fa p ++ [entry]) p1
                      else put_note_tokens_sol
                             (note_tokens_sol p ++ [entry]) p1)) as E.
    { rewrite (_parse_note_on_note fuel p1 tok Hc Ht).
      now rewrite (_parse_note_height_note p1 tok payload Hc Ht Hv Hne). }
    rewrite (bind_Ret _ _ _ _ _ E), read_outputs.
    now destruct (startswith payload "FA_TOKEN"). }
  split; [exact read_outputs |].
  split; [reflexivity |].
  split; [exact _expect_outputs |].
  split; [exact _parse_alteration_outputs |].
  split; [exact _parse_meter_outputs | exact _parse_note_height_outputs].
Qed.

Lemma C7_witness :
  _parse_note_height
    (put_current_token
       (Some (Token.new TokenType.NOTE (VStr "FA_TOKEN_DO_L") ClefType.FA
                        AlterationType.NONE))
       (put_instrument_name (VStr "Piano") (fresh minimal)))
  = Ret tt
      (put_note_tokens_fa ["FA_TOKEN_DO_L_Piano"]
         (put_current_token
            (Some (Token.new TokenType.NOTE (VStr "FA_TOKEN_DO_L")
                             ClefType.FA AlterationType.NONE))
            (put_instrument_name (VStr "Piano") (fresh minimal)))).
Proof.
  apply (C7_note_entries 0
           (put_current_token
              (Some (Token.new TokenType.NOTE (VStr "FA_TOKEN_DO_L")
                               ClefType.FA AlterationType.NONE))
              (put_instrument_name (VStr "Piano") (fresh minimal)))
           (Token.new TokenType.NOTE (VStr "FA_TOKEN_DO_L") ClefType.FA
                      AlterationType.NONE)
           "FA_TOKEN_DO_L").
  - reflexivity.
  - reflexivity.
  - reflexivity.
  - discriminate.
Defined.

(** C8.  A PAUSE or HALF_PAUSE token that the grammar recognises gives one
    entry, the bare name of its kind: appended to the FA sequence when the
    clef recorded on the token is FA, to the SOL sequence when it is SOL or
    NONE. *)
Theorem C8_rest_entries :
  forall (fuel : nat) (p : MusicNotationParser) (tok : Token.t),
    current_token p = Some tok ->
    Token.type tok = TokenType.PAUSE \/ Token.type tok = TokenType.HALF_PAUSE ->
    let entry := TokenType.name (Token.type tok) in
    (entry = "PAUSE" \/ entry = "HALF_PAUSE")
    /\ _parse_silence p
       = Ret tt (match Token.clef tok with
                 | ClefType.FA =>
                     put_note_tokens_fa (note_tokens_fa p ++ [entry]) p
                 | ClefType.SOL | ClefType.NONE =>
                     put_note_tokens_sol (note_tokens_sol p ++ [entry]) p
                 end)
    /\ outputs (final (_parse_symbol fuel p))
       = match Token.clef tok with
         | ClefType.FA =>
             ((note_tokens_fa p ++ [entry])%list, note_tokens_sol p)
         | ClefType.SOL | ClefType.NONE =>
             (note_tokens_fa p, (note_tokens_sol p ++ [entry])%list)
         end.
Proof.
  intros fuel p tok Hc Ht entry.
  split; [ destruct Ht as [Ht|Ht]; unfold entry; rewrite Ht; auto |].
  split.
  { rewrite (_parse_silence_eq p tok Hc). now destruct (Token.clef tok). }
  rewrite (_parse_symbol_eq fuel p tok Hc).
  assert (TokenType.mem (Token.type tok)
            [TokenType.ALTERATION_DIESE; TokenType.ALTERATION_BEMOL;
             TokenType.NOTE] = false) as ->
      by (destruct Ht as [-> | ->]; reflexivity).
  assert (TokenType.mem (Token.type tok)
            [TokenType.PAUSE; TokenType.HALF_PAUSE] = true) as ->
      by (destruct Ht as [-> | ->]; reflexivity).
  erewrite bind_Ret; [ | now apply (_parse_silence_eq _ tok) ].
  rewrite read_outputs. now destruct (Token.clef tok).
Qed.

Lemma C8_witness :
  _parse_silence
    (put_current_token
       (Some (Token.new TokenType.HALF_PAUSE VNone ClefType.NONE
                        AlterationType.NONE))
       (fresh minimal))
  = Ret tt
      (put_note_tokens_sol ["HALF_PAUSE"]
         (put_current_token
            (Some (Token.new TokenType.HALF_PAUSE VNone ClefType.NONE
                             AlterationType.NONE))
            (fresh minimal))).
Proof.
  apply (C8_rest_entries 0
           (put_current_token
              (Some (Token.new TokenType.HALF_PAUSE VNone ClefType.NONE
                               AlterationType.NONE))
              (fresh minimal))
           (Token.new TokenType.HALF_PAUSE VNone ClefType.NONE
                      AlterationType.NONE)).
  - reflexivity.
  - right. reflexivity.
Defined.

(* ================================================================== *)
(** * The sharp tables: claim C3                                       *)
(* ================================================================== *)

Lemma sol_sharp_prefix i :
  i < 16 ->
  lookup ClefType.SOL AlterationType.DIESE i <> "" ->
  startswith (lookup ClefType.SOL AlterationType.DIESE i) "FA_TOKEN" = true.
Proof.
  intros Hi.
  do 16 (destruct i as [|i];
         [ vm_compute; first [reflexivity | intros H; now elim H] | ]).
  lia.
Qed.

Lemma fa_sharp_prefix i :
  i < 16 ->
  lookup ClefType.FA AlterationType.DIESE i <> "" ->
  startswith (lookup ClefType.FA AlterationType.DIESE i) "SOL_TOKEN" = true
  /\ startswith (lookup ClefType.FA AlterationType.DIESE i) "FA_TOKEN"
     = false.
Proof.
  intros Hi.
  do 16 (destruct i as [|i];
         [ vm_compute; first [split; reflexivity | intros H; now elim H] | ]).
  lia.
Qed.

Lemma pitch_token_note c entry :
  entry <> "" ->
  pitch_token c entry
  = Token.new TokenType.NOTE (VStr entry) c AlterationType.NONE.
Proof.
  intros H. unfold pitch_token.
  now destruct (String.eqb_spec entry "").
Qed.

(** C3.  For a pitch position whose entry in SOL_SHARP_TOKENS is not empty,
    classification under the held clef SOL and the held alteration DIESE
    gives a NOTE whose payload, that entry, starts with FA_TOKEN, and the
    parser appends its note entry to the FA sequence although the token
    carries the clef SOL: the FA sequence it leaves is the one it found
    with the entry, an underscore and the instrument name at its end, and
    the SOL sequence is the one it found.  For clef FA and DIESE the
    payload, the entry of FA_SHARP_TOKENS, starts with SOL_TOKEN and it is
    the SOL sequence that receives the note entry, the FA sequence staying
    as it was. *)
Theorem C3_sharp_tables_cross_clefs :
  forall (i : nat) (img entry : string) (p : MusicNotationParser),
    pitch_image i img ->
    entry <> "" ->
    (nth_error SOL_SHARP_TOKENS i = Some entry ->
     let tok := Token.new TokenType.NOTE (VStr entry) ClefType.SOL
                          AlterationType.NONE in
     startswith entry "FA_TOKEN" = true
     /\ _identify_token_from_match img
          (holding ClefType.SOL AlterationType.DIESE)
        = Ret tok (holding ClefType.SOL AlterationType.NONE)
     /\ _parse_note_height (put_current_token (Some tok) p)
        = Ret tt
            (put_note_tokens_fa
               (note_tokens_fa p ++ [note_entry entry (instrument_name p)])
               (put_current_token (Some tok) p))
     /\ note_tokens_fa
          (final (_parse_note_height (put_current_token (Some tok) p)))
        = (note_tokens_fa p ++ [(entry ++ "_" ++ str (instrument_name p))%string])%list
     /\ note_tokens_sol
          (final (_parse_note_height (put_current_token (Some tok) p)))
        = note_tokens_sol p)
    /\ (nth_error FA_SHARP_TOKENS i = Some entry ->
        let tok := Token.new TokenType.NOTE (VStr entry) ClefType.FA
                             AlterationType.NONE in
        startswith entry "SOL_TOKEN" = true
        /\ _identify_token_from_match img
             (holding ClefType.FA AlterationType.DIESE)
           = Ret tok (holding ClefType.FA AlterationType.NONE)
        /\ _parse_note_height (put_current_token (Some tok) p)
           = Ret tt
               (put_note_tokens_sol
                  (note_tokens_sol p ++ [note_entry entry (instrument_name p)])
                  (put_current_token (Some tok) p))
        /\ note_tokens_sol
             (final (_parse_note_height (put_current_token (Some tok) p)))
           = (note_tokens_sol p
              ++ [(entry ++ "_" ++ str (instrument_name p))%string])%list
        /\ note_tokens_fa
             (final (_parse_note_height (put_current_token (Some tok) p)))
           = note_tokens_fa p).
Proof.
  intros i img entry p Hp Hne. split; intros Hnth tok.
  - assert (lookup ClefType.SOL AlterationType.DIESE i = entry) as Hl.
    { change (nth i SOL_SHARP_TOKENS "" = entry). now apply nth_error_nth. }
    assert (startswith entry "FA_TOKEN" = true) as Hpre.
    { rewrite <- Hl. apply sol_sharp_prefix; [apply Hp | now rewrite Hl]. }
    assert (_parse_note_height (put_current_token (Some tok) p)
            = Ret tt
                (put_note_tokens_fa
                   (note_tokens_fa p
                    ++ [note_entry entry (instrument_name p)])
                   (put_current_token (Some tok) p))) as Hrun.
    { rewrite (_parse_note_height_note (put_current_token (Some tok) p) tok
                 entry eq_refl eq_refl eq_refl Hne).
      now rewrite Hpre. }
    split; [exact Hpre |]. split.
    + rewrite (identify_pitch i img _ _ Hp), Hl.
      now rewrite (pitch_token_note _ _ Hne).
    + split; [exact Hrun |]. rewrite Hrun. split; reflexivity.
  - assert (lookup ClefType.FA AlterationType.DIESE i = entry) as Hl.
    { change (nth i FA_SHARP_TOKENS "" = entry). now apply nth_error_nth. }
    assert (startswith entry "SOL_TOKEN" = true
            /\ startswith entry "FA_TOKEN" = false) as [Hpre Hnot].
    { rewrite <- Hl. apply fa_sharp_prefix; [apply Hp | now rewrite Hl]. }
    assert (_parse_note_height (put_current_token (Some tok) p)
            = Ret tt
                (put_note_tokens_sol
                   (note_tokens_sol p
                    ++ [note_entry entry (instrument_name p)])
                   (put_current_token (Some tok) p))) as Hrun.
    { rewrite (_parse_note_height_note (put_current_token (Some tok) p) tok
                 entry eq_refl eq_refl eq_refl Hne).
      now rewrite Hnot. }
    split; [exact Hpre |]. split.
    + rewrite (identify_pitch i img _ _ Hp), Hl.
      now rewrite (pitch_token_note _ _ Hne).
    + split; [exact Hrun |]. rewrite Hrun. split; reflexivity.
Qed.

Lemma C3_witness :
  _identify_token_from_match "Note_H1.JPG"
    (holding ClefType.SOL AlterationType.DIESE)
  = Ret (Token.new TokenType.NOTE (VStr "FA_TOKEN_DO_L_SHARP") ClefType.SOL
                   AlterationType.NONE)
        (holding ClefType.SOL AlterationType.NONE)
  /\ note_tokens_fa
       (final (_parse_note_height
                 (put_current_token
                    (Some (Token.new TokenType.NOTE
                             (VStr "FA_TOKEN_DO_L_SHARP") ClefType.SOL
                             AlterationType.NONE))
                    (fresh minimal))))
     = [ "FA_TOKEN_DO_L_SHARP_" ]
  /\ note_tokens_sol
       (final (_parse_note_height
                 (put_current_token
                    (Some (Token.new TokenType.NOTE
                             (VStr "FA_TOKEN_DO_L_SHARP") ClefType.SOL
                             AlterationType.NONE))
                    (fresh minimal))))
     = [].
Proof.
  destruct (C3_sharp_tables_cross_clefs 0 "Note_H1.JPG" "FA_TOKEN_DO_L_SHARP"
              (fresh minimal)) as (H & _).
  - split; [lia | reflexivity].
  - discriminate.
  - destruct (H eq_refl) as (_ & Hid & _ & Hfa & Hsol).
    split; [exact Hid |]. split; [exact Hfa | exact Hsol].
Defined.

(* ================================================================== *)
(** * Resetting: claim C10                                             *)
(* ================================================================== *)

(** C10.  [parse] first resets the parser: whatever the instance held, the
    parse begins from the attributes of a newly built parser over the same
    reader, that is clef NONE, alteration NONE, meter value and counter
    unset (-1), empty partition and instrument names, empty FA and SOL
    sequences and a cleared error flag; so a parse gives what it gives on a
    new instance with that reader, also when it follows another parse. *)
Theorem C10_parse_starts_afresh :
  forall (fuel fuel' : nat) (p : MusicNotationParser),
    let p0 := music_parser.__init__ (excel_reader p) image_parser.__init__ in
    reset_state p = Ret tt p0
    /\ (current_clef (image_parser p0) = ClefType.NONE
        /\ current_alteration (image_parser p0) = AlterationType.NONE
        /\ meter_value p0 = (-1)%Z /\ meter_controller p0 = (-1)%Z
        /\ partition_name p0 = VStr "" /\ instrument_name p0 = VStr ""
        /\ note_tokens_fa p0 = [] /\ note_tokens_sol p0 = []
        /\ has_error p0 = false /\ error_message p0 = ""
        /\ current_token p0 = None)
    /\ parse fuel p = parse fuel p0
    /\ parse fuel' (final (parse fuel p))
       = parse fuel'
           (music_parser.__init__ (excel_reader (final (parse fuel p)))
              image_parser.__init__).
Proof.
  intros fuel fuel' p p0.
  assert (forall n q,
             parse n q
             = parse n (music_parser.__init__ (excel_reader q)
                          image_parser.__init__)) as H.
  { intros n q. unfold parse.
    rewrite (bind_Ret _ _ q tt
               (music_parser.__init__ (excel_reader q)
                  image_parser.__init__)) by reflexivity.
    symmetry.
    now rewrite (bind_Ret _ _ (music_parser.__init__ _ _) tt
                   (music_parser.__init__ (excel_reader q)
                      image_parser.__init__)) by reflexivity. }
  split; [reflexivity |].
  split; [repeat split |].
  split; [apply H | apply H].
Qed.

(* ================================================================== *)
(** * The meter: claim C9                                              *)
(* ================================================================== *)

Lemma final_bind {S A B} (m : M S A) (k : A -> M S B) s :
  final (bind m k s)
  = match m s with
    | Ret a s' => final (k a s')
    | Raise _ s' => s'
    end.
Proof. unfold bind. now destruct (m s). Qed.

(** What [_parse_note_height] leaves, returned or raised. *)
Lemma _parse_note_height_final s :
  meter_kept s (final (_parse_note_height s))
  /\ (has_error (final (_parse_note_height s)) = false ->
      forall tok, current_token s = Some tok ->
                  Token.type tok = TokenType.NOTE).
Proof.
  destruct (current_token s) as [tok|] eqn:Hc.
  2:{ unfold _parse_note_height.
      rewrite (bind_Raise _ _ _ _ _ (the_token_None _ Hc)). cbn.
      split; [split; reflexivity | discriminate]. }
  unfold _parse_note_height.
  rewrite (bind_Ret _ _ _ _ _ (the_token_Ret _ _ Hc)).
  destruct (TokenType.eqb (Token.type tok) TokenType.NOTE) eqn:Ht.
  - apply TokenType_eqb_eq in Ht.
    assert (forall tk, Some tok = Some tk ->
                       Token.type tk = TokenType.NOTE) as Hn
        by (intros tk [= <-]; exact Ht).
    destruct (Token.value tok) as [|payload|n]; cbn [truthy].
    + split; [split; reflexivity | intros _; exact Hn].
    + destruct (negb (payload =? ""));
        [ | split; [split; reflexivity | intros _; exact Hn] ].
      unfold bind, gets, set_note_tokens_fa, set_note_tokens_sol, modify.
      destruct (startswith (str (VStr payload)) "FA_TOKEN");
        (split; [split; reflexivity | intros _; exact Hn]).
    + destruct (negb (n =? 0)%Z);
        (split; [split; reflexivity | intros _; exact Hn]).
  - rewrite _error_eq. cbn. split; [split; reflexivity | discriminate].
Qed.

(** The production chosen by [_parse_symbol] for its token keeps the meter
    attributes when it leaves the error flag down. *)
Lemma symbol_body_keeps_meter fuel p1 tok :
  current_token p1 = Some tok ->
  let body :=
    if TokenType.mem (Token.type tok)
         [TokenType.ALTERATION_DIESE; TokenType.ALTERATION_BEMOL;
          TokenType.NOTE]
    then _parse_note fuel
    else if TokenType.mem (Token.type tok)
              [TokenType.PAUSE; TokenType.HALF_PAUSE]
         then _parse_silence
         else _error "symbol" in
  has_error (final (body p1)) = false ->
  meter_kept p1 (final (body p1)).
Proof.
  intros Hc1 body. unfold body.
  destruct (TokenType.mem (Token.type tok)
              [TokenType.ALTERATION_DIESE; TokenType.ALTERATION_BEMOL;
               TokenType.NOTE]) eqn:Hn.
  - destruct (TokenType.eq_dec (Token.type tok) TokenType.NOTE) as [Ht|Ht].
    + rewrite (_parse_note_on_note fuel p1 tok Hc1 Ht). intros _.
      apply _parse_note_height_final.
    + assert (Token.type tok = TokenType.ALTERATION_DIESE
              \/ Token.type tok = TokenType.ALTERATION_BEMOL) as Ha.
      { destruct (Token.type tok) eqn:E; vm_compute in Hn;
          try discriminate Hn; auto; congruence. }
      rewrite (_parse_note_on_alteration fuel p1 tok Hc1 Ha), final_bind.
      destruct (_read_next_token fuel p1) as [[] s1|e s1] eqn:Hr1.
      * apply read_Ret in Hr1. destruct Hr1 as (Hk1 & tok1 & Htok1 & _ & Hm1).
        destruct (_parse_note_height_final s1) as (Hmk & Hnote).
        intros Herr. specialize (Hnote Herr tok1 Htok1).
        destruct Hm1 as [Hm1 | (v & Hmeter & _)].
        -- unfold meter_kept in *. split; intuition congruence.
        -- rewrite Hmeter in Hnote. discriminate Hnote.
      * intros _. apply read_Raise in Hr1.
        now destruct Hr1 as (_ & Hm1 & _).
  - destruct (TokenType.mem (Token.type tok)
                [TokenType.PAUSE; TokenType.HALF_PAUSE]).
    + rewrite (_parse_silence_eq p1 tok Hc1). intros _. cbn [final].
      destruct (ClefType.eqb (Token.clef tok) ClefType.FA);
        split; reflexivity.
    + rewrite _error_eq. cbn. discriminate.
Qed.

(** A symbol recognised without a mismatch has taken one unit from a
    positive counter, unless the token read after it is a METER, whose
    value the lexer has then put in both meter attributes. *)
Lemma _parse_symbol_counts fuel s :
  let s' := final (_parse_symbol fuel s) in
  has_error s' = false ->
  (meter_value s' = meter_value s
   /\ meter_controller s' = counted (meter_controller s))
  \/ (exists v, current_token s'
                = Some (text_token TokenType.METER (VInt v))
                /\ meter_value s' = v /\ meter_controller s' = v).
Proof.
  intros s'. subst s'. destruct (current_token s) as [tok|] eqn:Hc.
  2:{ rewrite (_parse_symbol_no_token fuel s Hc). cbn. auto. }
  rewrite (_parse_symbol_eq fuel s tok Hc), final_bind.
  set (p1 := put_meter_controller (counted (meter_controller s)) s).
  pose proof (symbol_body_keeps_meter fuel p1 tok Hc) as Hbody.
  lazymatch goal with
  | |- context [match ?b p1 with Ret _ _ => _ | Raise _ _ => _ end] =>
      set (o := b p1);
      change (has_error (final o) = false -> meter_kept p1 (final o))
        in Hbody
  end.
  destruct o as [[] p2|e p2]; cbn [final] in Hbody |- *.
  - destruct (_read_next_token fuel p2) as [[] s'|e s'] eqn:Hread;
      cbn [final]; intros Herr.
    + apply read_Ret in Hread.
      destruct Hread as (Hk & tok' & Htok' & _ & Hm).
      assert (has_error p2 = false) as Herr2
          by (destruct Hk as (He & _); congruence).
      destruct (Hbody Herr2) as [Hv2 Hc2].
      destruct Hm as [[Hv Hcn] | (v & -> & Hv & Hcn)]; [left | right; eauto].
      change (meter_value p1) with (meter_value s) in Hv2.
      change (meter_controller p1) with (counted (meter_controller s)) in Hc2.
      split; congruence.
    + apply read_Raise in Hread.
      destruct Hread as (Hk & [Hv Hcn] & _).
      assert (has_error p2 = false) as Herr2
          by (destruct Hk as (He & _); congruence).
      destruct (Hbody Herr2) as [Hv2 Hc2]. left.
      change (meter_value p1) with (meter_value s) in Hv2.
      change (meter_controller p1) with (counted (meter_controller s)) in Hc2.
      split; congruence.
  - intros Herr. destruct (Hbody Herr) as [Hv2 Hc2]. left.
    change (meter_value p1) with (meter_value s) in Hv2.
    change (meter_controller p1) with (counted (meter_controller s)) in Hc2.
    split; assumption.
Qed.




(* ================================================================== *)
(** * Running the parser on a sheet                                    *)
(* ================================================================== *)

Lemma _read_next_token_more n m s a s' :
  n <= m -> _read_next_token n s = Ret a s' -> _read_next_token m s = Ret a s'.
Proof. intros Hle. now apply _read_next_token_stable. Qed.

Lemma _expect_more n m ty ctx s a s' :
  n <= m -> _expect n ty ctx s = Ret a s' -> _expect m ty ctx s = Ret a s'.
Proof. intros Hle. now apply (_expect_stable ty ctx n m). Qed.

Lemma _parse_multiple_staffs_more n m s a s' :
  n <= m ->
  _parse_multiple_staffs n s = Ret a s' ->
  _parse_multiple_staffs m s = Ret a s'.
Proof. intros Hle. now apply _parse_multiple_staffs_stable. Qed.

Lemma _parse_partition_more n m s a s' :
  n <= m -> _parse_partition n s = Ret a s' -> _parse_partition m s = Ret a s'.
Proof. intros Hle. now apply _parse_partition_stable. Qed.

(** A parse whose productions return at some depth gives the same at every
    greater depth: the answer is the negation of the error flag. *)
Lemma parse_returned n m p s1 :
  n <= m ->
  (reset_state ;; _read_next_token n ;; _parse_partition n) p = Ret tt s1 ->
  parse m p = Ret (negb (has_error s1)) s1.
Proof.
  intros Hle H.
  apply bind_Ret_inv in H as ([] & p0 & Hreset & H).
  apply bind_Ret_inv in H as ([] & p1 & Hread & Hpart).
  unfold parse. rewrite (bind_Ret _ _ _ _ _ Hreset).
  rewrite (bind_Ret _ _ _ _ _ (_read_next_token_more _ _ _ _ _ Hle Hread)).
  unfold try_except.
  now rewrite (bind_Ret _ _ _ _ _ (_parse_partition_more _ _ _ _ _ Hle Hpart)).
Qed.

Lemma parse_succeeds n m p s1 :
  n <= m ->
  (reset_state ;; _read_next_token n ;; _parse_partition n) p = Ret tt s1 ->
  has_error s1 = false ->
  parse m p = Ret true s1.
Proof.
  intros Hle H He. rewrite (parse_returned n m p s1 Hle H). now rewrite He.
Qed.

Lemma parse_fails n m p s1 :
  n <= m ->
  (reset_state ;; _read_next_token n ;; _parse_partition n) p = Ret tt s1 ->
  has_error s1 = true ->
  parse m p = Ret false s1.
Proof.
  intros Hle H He. rewrite (parse_returned n m p s1 Hle H). now rewrite He.
Qed.

(** At the end of a cell's text the token source moves to the next cell and
    calls itself. *)
Lemma _read_next_token_at_text_end fuel s v :
  cell_value (current_cell (excel_reader s)) = Some v ->
  current_text_iter (excel_reader s) = Some "" ->
  _read_next_token (S fuel) s
  = _read_next_token fuel
      (put_excel_reader (final (_move_to_next_cell (excel_reader s))) s).
Proof.
  intros Hv Hit. cbn [_read_next_token].
  rewrite (bind_Ret _ _ s true s).
  2:{ rewrite <- (put_excel_reader_same s) at 2. apply on_reader_Ret.
      unfold has_text_content, bind, gets, ret. now rewrite Hv. }
  unfold _process_text_content.
  rewrite (bind_Ret _ _ s None
             (put_excel_reader
                (final (_move_to_next_cell (excel_reader s))) s));
    [reflexivity |].
  apply on_reader_Ret. unfold read_next_char, bind at 1, gets at 1.
  rewrite Hit. destruct (_move_to_next_cell_returns (excel_reader s))
    as ([] & r & E).
  now rewrite (bind_Ret _ _ _ _ _ E), E.
Qed.

Ltac peel Hle :=
  lazymatch goal with
  | |- bind (_expect ?f ?ty ?ctx) ?k ?s = _ =>
      erewrite (bind_Ret (_expect f ty ctx) k s)
        by (eapply _expect_more; [exact Hle | vm_compute; reflexivity])
  | |- bind (_read_next_token ?f) ?k ?s = _ =>
      erewrite (bind_Ret (_read_next_token f) k s)
        by (eapply _read_next_token_more;
            [exact Hle | vm_compute; reflexivity])
  | |- bind (_parse_multiple_staffs ?f) ?k ?s = _ =>
      erewrite (bind_Ret (_parse_multiple_staffs f) k s)
        by (eapply _parse_multiple_staffs_more;
            [exact Hle | vm_compute; reflexivity])
  | |- bind ?m ?k ?s = _ =>
      erewrite (bind_Ret m k s) by (vm_compute; reflexivity)
  end;
  cbv beta; cbn [negb].

(** The header and the staff of [minimal] are parsed; the token asked for
    after [FIN] is not there, and asking for it ends in RecursionError. *)
Lemma minimal_partition_raises fuel s2 :
  10 <= fuel ->
  (reset_state ;; _read_next_token 10) (fresh minimal) = Ret tt s2 ->
  exists s',
    _parse_partition fuel s2 = Raise RecursionError s'
    /\ partition_name s' = VNone
    /\ instrument_name s' = VNone
    /\ outputs s' = ([], ["SOL_TOKEN_DO_MILIEU_None"])
    /\ has_error s' = false.
Proof.
  intros Hle Hs2. vm_compute in Hs2. injection Hs2 as <-.
  eexists. split.
  - unfold _parse_partition.
    do 13 peel Hle.
    apply bind_Raise. unfold _expect. peel Hle. eval_mem. cbn [negb].
    apply bind_Raise.
    destruct fuel as [|fuel]; [lia |].
    erewrite _read_next_token_at_text_end by (vm_compute; reflexivity).
    apply _read_next_token_on_blank. split; vm_compute; reflexivity.
  - vm_compute. repeat split.
Qed.



(* ================================================================== *)
(** * What the productions of a staff keep                             *)
(* ================================================================== *)

Lemma header_kept_refl s : header_kept s s.
Proof. repeat split; auto. Qed.

Lemma header_kept_trans s1 s2 s3 :
  header_kept s1 s2 -> header_kept s2 s3 -> header_kept s1 s3.
Proof.
  intros (E1 & P1 & I1) (E2 & P2 & I2). repeat split; auto; congruence.
Qed.

Lemma keeps_ret {A} (a : A) : keeps_header (ret a).
Proof. intros s. apply header_kept_refl. Qed.

Lemma keeps_raise {A} e : keeps_header (raise (A := A) e).
Proof. intros s. apply header_kept_refl. Qed.

Lemma keeps_gets {A} (f : MusicNotationParser -> A) : keeps_header (gets f).
Proof. intros s. apply header_kept_refl. Qed.

Lemma keeps_modify f :
  (forall s, header_kept s (f s)) -> keeps_header (modify f).
Proof. intros H s. apply H. Qed.

Lemma keeps_bind {A B} (m : P A) (k : A -> P B) :
  keeps_header m -> (forall a, keeps_header (k a)) ->
  keeps_header (bind m k).
Proof.
  intros Hm Hk s. apply wp_bind.
  apply (wp_conseq _ _ _ _ _ _ (Hm s)); [ | auto ].
  intros a s1 H1. apply (wp_conseq _ _ _ _ _ _ (Hk a s1));
    intros ? s2 H2; exact (header_kept_trans _ _ _ H1 H2).
Qed.

Lemma keeps_read fuel : keeps_header (_read_next_token fuel).
Proof.
  intros s. apply (wp_conseq _ _ _ _ _ _ (_read_next_token_wp fuel s)).
  - intros _ s' ((He & _ & Hp & Hi & _) & _). repeat split; congruence.
  - intros _ s' ((He & _ & Hp & Hi & _) & _). repeat split; congruence.
Qed.

Ltac keeps_tac :=
  repeat first
    [ assumption
    | match goal with
      | |- keeps_header (ret _) => apply keeps_ret
      | |- keeps_header (raise _) => apply keeps_raise
      | |- keeps_header (gets _) => apply keeps_gets
      | |- keeps_header (_read_next_token _) => apply keeps_read
      | H : forall n, keeps_header (?f n) |- keeps_header (?f _) => apply H
      | H : forall a b c, keeps_header (?f a b c)
        |- keeps_header (?f _ _ _) => apply H
      | H : keeps_header ?m |- keeps_header ?m => exact H
      | |- keeps_header (bind _ _) => apply keeps_bind; [ | intros ? ]
      | |- keeps_header (if ?b then _ else _) => destruct b
      | |- keeps_header (match ?x with _ => _ end) => destruct x
      | |- keeps_header (modify _) =>
          apply keeps_modify; intros ?; repeat split; auto
      end ].

Lemma keeps_the_token : keeps_header the_token.
Proof. unfold the_token. keeps_tac. Qed.

Lemma keeps_error ctx : keeps_header (_error ctx).
Proof.
  unfold _error, set_has_error, set_error_message. keeps_tac.
Qed.

Lemma keeps_expect fuel ty ctx : keeps_header (_expect fuel ty ctx).
Proof.
  pose proof keeps_the_token. pose proof keeps_error as He.
  unfold _expect. keeps_tac.
Qed.

Lemma keeps_parse_symbol fuel : keeps_header (_parse_symbol fuel).
Proof.
  pose proof keeps_the_token. pose proof (keeps_error "symbol").
  pose proof (keeps_error "alteration").
  pose proof (keeps_error "note height").
  unfold _parse_symbol, _parse_note, _parse_alteration, _parse_note_height,
    _parse_silence, set_meter_controller, set_note_tokens_fa,
    set_note_tokens_sol.
  keeps_tac.
Qed.

Lemma keeps_parse_additional_symbols fuel :
  keeps_header (_parse_additional_symbols fuel).
Proof.
  pose proof keeps_the_token. pose proof keeps_parse_symbol.
  pose proof (keeps_error "additional symbols").
  induction fuel as [|fuel IH]; cbn [_parse_additional_symbols]; keeps_tac.
Qed.

Lemma keeps_parse_measure fuel : keeps_header (_parse_measure fuel).
Proof.
  pose proof keeps_parse_symbol. pose proof keeps_parse_additional_symbols.
  unfold _parse_measure, _parse_symbols, set_meter_controller. keeps_tac.
Qed.

Lemma keeps_parse_additional_measures fuel :
  keeps_header (_parse_additional_measures fuel).
Proof.
  pose proof keeps_the_token. pose proof keeps_parse_measure.
  pose proof (keeps_error "additional measures").
  induction fuel as [|fuel IH]; cbn [_parse_additional_measures]; keeps_tac.
Qed.

Lemma keeps_parse_staff fuel : keeps_header (_parse_staff fuel).
Proof.
  pose proof keeps_the_token. pose proof keeps_parse_measure.
  pose proof keeps_parse_additional_measures.
  pose proof keeps_expect. pose proof (keeps_error "meter").
  unfold _parse_staff, _parse_meter, _parse_measures. keeps_tac.
Qed.

Lemma keeps_parse_multiple_staffs fuel :
  keeps_header (_parse_multiple_staffs fuel).
Proof.
  pose proof keeps_the_token. pose proof keeps_parse_staff.
  pose proof (keeps_error "multiple staffs").
  induction fuel as [|fuel IH]; cbn [_parse_multiple_staffs];
    unfold set_meter_value, set_meter_controller; keeps_tac.
Qed.

(* ================================================================== *)
(** * The names a successful parse stores                              *)
(* ================================================================== *)

Lemma _expect_Ret fuel ty ctx s ok s1 :
  _expect fuel ty ctx s = Ret ok s1 ->
  (ok = false /\ has_error s1 = true)
  \/ (ok = true
      /\ (exists tok, current_token s = Some tok /\ Token.type tok = ty)
      /\ token_read s s1).
Proof.
  intros H. unfold _expect in H.
  destruct (current_token s) as [tok|] eqn:Htok.
  - rewrite (bind_Ret _ _ _ _ _ (the_token_Ret _ _ Htok)) in H.
    destruct (TokenType.eqb (Token.type tok) ty) eqn:E; cbn [negb] in H.
    + right. apply bind_Ret_inv in H as ([] & s2 & Hr & H).
      injection H as <- <-. split; [reflexivity | split].
      * exists tok. split; [reflexivity | now apply TokenType_eqb_eq].
      * exact (read_Ret _ _ _ Hr).
    + left. rewrite (bind_Ret _ _ _ _ _ (_error_eq _ _)) in H.
      injection H as <- <-. split; reflexivity.
  - rewrite (bind_Raise _ _ _ _ _ (the_token_None _ Htok)) in H.
    discriminate H.
Qed.

Lemma the_token_inv s tok s1 :
  the_token s = Ret tok s1 -> s1 = s /\ current_token s = Some tok.
Proof.
  intros H. destruct (current_token s) as [t|] eqn:E.
  - rewrite (the_token_Ret _ _ E) in H. injection H as <- <-. now split.
  - rewrite (the_token_None _ E) in H. discriminate H.
Qed.

(** One [_expect] of the header of a parse that ends without error: it
    matched, and the token it left is described by [token_read]. *)
Ltac expected H Herr He :=
  let ok := fresh "ok" in
  let s1 := fresh "s" in
  let Hf := fresh "Hf" in
  apply bind_Ret_inv in H as (ok & s1 & He & H);
  apply _expect_Ret in He as [(-> & Hf) | (-> & He)];
  [ cbn [negb] in H; injection H as <-; rewrite Hf in Herr;
    discriminate Herr
  | cbn [negb] in H ].

(** The token that is current when a name is stored is the one the next
    [_expect] matches, so its payload is None. *)
Lemma stored_name_is_None ty s0 s tok s1 :
  ty = TokenType.SEMICOLON \/ ty = TokenType.PERIOD ->
  token_read s0 s ->
  current_token s = Some tok ->
  (exists tok', current_token s1 = Some tok' /\ Token.type tok' = ty) ->
  current_token s1 = current_token s ->
  Token.value tok = VNone.
Proof.
  intros Hty (_ & t & Ht & Hplain & _) Htok (tok' & Htok' & Hty') Hsame.
  assert (t = tok) by congruence. assert (tok' = tok) by congruence.
  subst t tok'. apply Hplain. destruct Hty; subst ty; auto.
Qed.

Lemma _parse_partition_names fuel s s' :
  _parse_partition fuel s = Ret tt s' ->
  has_error s' = false ->
  partition_name s' = VNone /\ instrument_name s' = VNone.
Proof.
  intros H Herr. unfold _parse_partition in H.
  expected H Herr E1. expected H Herr E2. expected H Herr E3.
  destruct E3 as (_ & Hread_id).
  apply bind_Ret_inv in H as (tok & sa & Htok & H).
  apply the_token_inv in Htok as (-> & Htok).
  apply bind_Ret_inv in H as ([] & sb & Hset & H).
  injection Hset as <-.
  expected H Herr E4. destruct E4 as (Hsemi & Hread1).
  assert (Hname : Token.value tok = VNone).
  { exact (stored_name_is_None TokenType.SEMICOLON _ _ _ _
             (or_introl eq_refl) Hread_id Htok Hsemi eq_refl). }
  expected H Herr E5. expected H Herr E6. expected H Herr E7.
  destruct E5 as (_ & Hread2). destruct E6 as (_ & Hread3).
  destruct E7 as (_ & Hread_id2).
  apply bind_Ret_inv in H as (tok2 & sc & Htok2 & H).
  apply the_token_inv in Htok2 as (-> & Htok2).
  apply bind_Ret_inv in H as ([] & sd & Hset & H).
  injection Hset as <-.
  expected H Herr E8. destruct E8 as (Hperiod & Hread4).
  assert (Hname2 : Token.value tok2 = VNone).
  { exact (stored_name_is_None TokenType.PERIOD _ _ _ _
             (or_intror eq_refl) Hread_id2 Htok2 Hperiod eq_refl). }
  apply bind_Ret_inv in H as ([] & se & Hstaffs & H).
  pose proof (wp_Ret _ _ _ _ _ _ (keeps_parse_multiple_staffs fuel _) Hstaffs)
    as (_ & Hp & Hi).
  apply bind_Ret_inv in H as (ok & sf & Hend & H).
  pose proof (wp_Ret _ _ _ _ _ _ (keeps_expect fuel _ _ _) Hend)
    as (_ & Hp' & Hi').
  assert (sf = s') by (destruct ok; cbv [negb ret] in H; congruence).
  subst sf.
  destruct Hread1 as ((_ & _ & P1 & I1 & _) & _).
  destruct Hread2 as ((_ & _ & P2 & I2 & _) & _).
  destruct Hread3 as ((_ & _ & P3 & I3 & _) & _).
  destruct Hread4 as ((_ & _ & P4 & I4 & _) & _).
  destruct Hread_id2 as ((_ & _ & P5 & _) & _).
  cbn in *. split; congruence.
Qed.

(** Whatever the sheet and the depth, a parse that returns True has stored
    None for both names. *)
Lemma parse_True_names fuel p s' :
  parse fuel p = Ret true s' ->
  partition_name s' = VNone /\ instrument_name s' = VNone.
Proof.
  intros H. unfold parse in H.
  apply bind_Ret_inv in H as ([] & p0 & _ & H).
  apply bind_Ret_inv in H as ([] & p1 & _ & H).
  unfold try_except in H.
  destruct (_parse_partition fuel p1) as [[] s1|e s1] eqn:Hpart.
  - rewrite (bind_Ret _ _ _ _ _ Hpart) in H. cbn in H.
    injection H as Hneg <-.
    apply (_parse_partition_names fuel p1 s1 Hpart).
    now destruct (has_error s1).
  - rewrite (bind_Raise _ _ _ _ _ Hpart) in H. cbn in H. discriminate H.
Qed.

(* ================================================================== *)
(** * The names of the header: claims C1 and C2                        *)
(* ================================================================== *)

(** C1 (the names are taken one token late).  Whatever the sheet and the
    depth, a parse that returns True has stored None for the partition name
    and for the instrument name: the names are read from the token that is
    current after the IDENTIFIER was matched and left behind, which is the
    SEMICOLON, respectively the PERIOD, and these carry no payload.  On the
    sheet [minimal_then_more], whose header names the partition Test and
    the instrument Piano, the parse succeeds at every depth from 10 on and
    the note entry ends with _None. *)
Theorem C1_names_taken_after_advance :
  (forall fuel p s',
      parse fuel p = Ret true s' ->
      partition_name s' = VNone /\ instrument_name s' = VNone)
  /\ (forall fuel,
         10 <= fuel ->
         exists s',
           parse fuel (fresh minimal_then_more) = Ret true s'
           /\ partition_name s' = VNone
           /\ instrument_name s' = VNone
           /\ outputs s' = ([], ["SOL_TOKEN_DO_MILIEU_None"])).
Proof.
  split.
  - exact parse_True_names.
  - intros fuel Hle. eexists. split.
    + apply (parse_succeeds 10 fuel _ _ Hle); vm_compute; reflexivity.
    + vm_compute. repeat split.
Qed.

Lemma C1_witness :
  exists s',
    parse 1000 (fresh minimal_then_more) = Ret true s'
    /\ partition_name s' = VNone
    /\ instrument_name s' = VNone
    /\ outputs s' = ([], ["SOL_TOKEN_DO_MILIEU_None"]).
Proof.
  destruct C1_names_taken_after_advance as (Hany & Hsheet).
  destruct (Hsheet 1000) as (s' & Hparse & _ & _ & Hout); [lia |].
  destruct (Hany 1000 _ s' Hparse) as (Hp & Hi).
  exists s'. repeat split; assumption.
Defined.

(** C2 (the code on the minimal sheet).  On the sheet [minimal], at every
    depth from 10 on, [parse] returns False: after [FIN] the parser asks
    for one more token, the reader stands on a blank cell, and the token
    source calls itself until RecursionError, which [parse] reports.  The
    FA sequence is empty and the SOL sequence holds one entry, but it ends
    with _None, not with _Piano. *)
Theorem C2_minimal_sheet :
  forall fuel,
    10 <= fuel ->
    exists s',
      parse fuel (fresh minimal) = Ret false s'
      /\ outputs s' = ([], ["SOL_TOKEN_DO_MILIEU_None"])
      /\ instrument_name s' = VNone
      /\ has_error s' = true
      /\ error_message s'
         = "Unexpected error during parsing: maximum recursion depth exceeded".
Proof.
  intros fuel Hle.
  assert (exists s2,
             (reset_state ;; _read_next_token 10) (fresh minimal) = Ret tt s2)
    as (s2 & Hs2) by (eexists; vm_compute; reflexivity).
  destruct (minimal_partition_raises fuel s2 Hle Hs2)
    as (sx & Hraise & Hp & Hi & Ho & He).
  apply bind_Ret_inv in Hs2 as ([] & p0 & Hreset & Hread).
  eexists. split.
  - unfold parse. rewrite (bind_Ret _ _ _ _ _ Hreset).
    rewrite (bind_Ret _ _ _ _ _
               (_read_next_token_more _ _ _ _ _ Hle Hread)).
    unfold try_except. rewrite (bind_Raise _ _ _ _ _ Hraise). reflexivity.
  - cbn. repeat split; assumption.
Qed.

Lemma C2_witness :
  exists s',
    parse 1000 (fresh minimal) = Ret false s'
    /\ outputs s' = ([], ["SOL_TOKEN_DO_MILIEU_None"])
    /\ instrument_name s' = VNone
    /\ has_error s' = true
    /\ error_message s'
       = "Unexpected error during parsing: maximum recursion depth exceeded".
Proof. apply (C2_minimal_sheet 1000). lia. Defined.

(* ================================================================== *)
(** * After a mismatch: claim C4                                       *)
(* ================================================================== *)

Lemma _parse_meter_stable : stable _parse_meter.
Proof.
  intros n m Hle. pose proof _read_next_token_stable as Hr.
  unfold _parse_meter. stable_tac.
Qed.

Lemma _parse_staff_more n m s a s' :
  n <= m -> _parse_staff n s = Ret a s' -> _parse_staff m s = Ret a s'.
Proof. intros Hle. now apply _parse_staff_stable. Qed.

Lemma read_then_meter_more n m s a s' :
  n <= m ->
  (_read_next_token n ;; _parse_meter n) s = Ret a s' ->
  (_read_next_token m ;; _parse_meter m) s = Ret a s'.
Proof.
  intros Hle. apply approx_bind.
  - now apply _read_next_token_stable.
  - intros _. now apply _parse_meter_stable.
Qed.

(** The header production on a first token that is not NAME: the flag and
    the diagnostic are set and nothing else changes; no token is read, and
    the production returns without looking at the staffs. *)
Lemma _parse_partition_stops fuel s tok :
  current_token s = Some tok ->
  Token.type tok <> TokenType.NAME ->
  _parse_partition fuel s
  = Ret tt (put_error_message
              ("Syntax error in "
               ++ ("partition name declaration" ++ " (expected "
                   ++ "NAME" ++ ", got "
                   ++ TokenType.name (Token.type tok) ++ ")")
               ++ ": Unexpected token " ++ Token.str_opt (current_token s))
              (put_has_error true s)).
Proof.
  intros Htok Hty.
  assert (He : _expect fuel TokenType.NAME "partition name declaration" s
               = Ret false
                   (put_error_message
                      ("Syntax error in "
                       ++ ("partition name declaration" ++ " (expected "
                           ++ "NAME" ++ ", got "
                           ++ TokenType.name (Token.type tok) ++ ")")
                       ++ ": Unexpected token "
                       ++ Token.str_opt (current_token s))
                      (put_has_error true s))).
  { unfold _expect. rewrite (bind_Ret _ _ _ _ _ (the_token_Ret _ _ Htok)).
    destruct (TokenType.eqb (Token.type tok) TokenType.NAME) eqn:E.
    - apply TokenType_eqb_eq in E. contradiction.
    - reflexivity. }
  unfold _parse_partition. now rewrite (bind_Ret _ _ _ _ _ He).
Qed.

(** C4 (the code on a staff with a mismatch).  The header production
    stops at a first token that is not NAME: it records the diagnostic and
    returns, the reader and the sequences untouched.  The staff productions
    do not: in the staff of [staff_bar_first] the first mismatch is met by
    the meter production, on the measure bar that follows the clef, where
    the flag is set and the diagnostic names the meter; the staff
    production then goes on to the measures, records a second diagnostic
    over the first, reads the three cells that follow and appends a note
    entry.  The parse of the whole sheet [bar_after_clef] returns False and
    reports the second diagnostic, with the note entry in the SOL
    sequence. *)
Theorem C4_parser_goes_on_after_mismatch :
  (forall fuel s tok,
      current_token s = Some tok ->
      Token.type tok <> TokenType.NAME ->
      exists msg,
        _parse_partition fuel s
        = Ret tt (put_error_message msg (put_has_error true s)))
  /\ (forall fuel,
         10 <= fuel ->
         exists s1 s2 s',
           (_read_next_token fuel ;; _parse_meter fuel) at_clef = Ret tt s1
           /\ has_error s1 = true
           /\ error_message s1
              = "Syntax error in meter: Unexpected token Token(MEASURE_BAR)"
           /\ outputs s1 = ([], [])
           /\ current_col (excel_reader s1) = 3
           /\ _parse_staff fuel at_clef = Ret tt s2
           /\ error_message s2
              = "Syntax error in symbol: Unexpected token Token(MEASURE_BAR)"
           /\ outputs s2 = ([], ["SOL_TOKEN_DO_MILIEU_"])
           /\ current_col (excel_reader s2) = 5
           /\ parse fuel (fresh bar_after_clef) = Ret false s'
           /\ error_message s'
              = "Syntax error in symbol: Unexpected token Token(MEASURE_BAR)"
           /\ outputs s' = ([], ["SOL_TOKEN_DO_MILIEU_None"])).
Proof.
  split.
  { intros fuel s tok Htok Hty. eexists.
    exact (_parse_partition_stops fuel s tok Htok Hty). }
  intros fuel Hle. eexists. eexists. eexists.
  split.
  { apply (read_then_meter_more 10 fuel _ _ _ Hle). vm_compute. reflexivity. }
  do 4 (split; [vm_compute; reflexivity |]).
  split.
  { apply (_parse_staff_more 10 fuel _ _ _ Hle). vm_compute. reflexivity. }
  do 3 (split; [vm_compute; reflexivity |]).
  split.
  { apply (parse_fails 10 fuel _ _ Hle); vm_compute; reflexivity. }
  split; vm_compute; reflexivity.
Qed.

Lemma C4_witness :
  (exists msg,
      _parse_partition 1000 at_clef
      = Ret tt (put_error_message msg (put_has_error true at_clef)))
  /\ exists s',
      parse 1000 (fresh bar_after_clef) = Ret false s'
      /\ error_message s'
         = "Syntax error in symbol: Unexpected token Token(MEASURE_BAR)"
      /\ outputs s' = ([], ["SOL_TOKEN_DO_MILIEU_None"]).
Proof.
  destruct C4_parser_goes_on_after_mismatch as (Hheader & Hstaff).
  split.
  - apply (Hheader 1000 at_clef
             (Token.new TokenType.CLEF_SOL VNone ClefType.SOL
                AlterationType.NONE)).
    + vm_compute. reflexivity.
    + vm_compute. discriminate.
  - destruct (Hstaff 1000) as (s1 & s2 & s' & H); [lia |].
    exists s'. repeat split; apply H.
Defined.

(* ================================================================== *)
(** * The bounds of the loops are never met                            *)
(* ================================================================== *)

Lemma read_next_char_some s c text :
  current_text_iter (excel_reader s) = Some (String c text) ->
  exists r, on_reader read_next_char s = Ret (Some c) (put_excel_reader r s)
            /\ current_text_iter r = Some text.
Proof.
  intros Hit. eexists. split.
  - apply on_reader_Ret. unfold read_next_char, bind at 1, gets at 1.
    rewrite Hit. reflexivity.
  - reflexivity.
Qed.

Lemma read_next_char_end s :
  current_text_iter (excel_reader s) = Some "" ->
  exists r, on_reader read_next_char s = Ret None (put_excel_reader r s).
Proof.
  intros Hit. eexists. apply on_reader_Ret.
  unfold read_next_char, bind at 1, gets at 1. rewrite Hit. reflexivity.
Qed.

(** With more rounds than the iterator holds characters, the number of
    rounds allowed to the white space loop does not matter: the branch
    that ends the loop for want of rounds is not taken. *)
Lemma while_isspace_enough text :
  forall n m c s,
    current_text_iter (excel_reader s) = Some text ->
    String.length text < n -> String.length text < m ->
    while_isspace n c s = while_isspace m c s.
Proof.
  induction text as [|c' text IH]; intros n m c s Hit Hn Hm;
    destruct n as [|n]; try lia; destruct m as [|m]; try lia;
    cbn [while_isspace]; destruct (isspace c); try reflexivity.
  - destruct (read_next_char_end s Hit) as (r & E).
    now rewrite !(bind_Ret _ _ _ _ _ E).
  - destruct (read_next_char_some s c' text Hit) as (r & E & Hr).
    rewrite !(bind_Ret _ _ _ _ _ E). cbn in Hn, Hm.
    apply IH; [exact Hr | lia | lia].
Qed.

(** The same for the loop that gathers a keyword. *)
Lemma while_alnum_enough text :
  forall n m kw next s,
    current_text_iter (excel_reader s) = Some text ->
    String.length text < n -> String.length text < m ->
    while_alnum n kw next s = while_alnum m kw next s.
Proof.
  induction text as [|c' text IH]; intros n m kw [c|] s Hit Hn Hm;
    destruct n as [|n]; try lia; destruct m as [|m]; try lia;
    cbn [while_alnum]; try reflexivity;
    destruct (isalpha c || isdigit c); try reflexivity.
  - destruct (read_next_char_end s Hit) as (r & E).
    rewrite !(bind_Ret _ _ _ _ _ E). now destruct n, m.
  - destruct (read_next_char_some s c' text Hit) as (r & E & Hr).
    rewrite !(bind_Ret _ _ _ _ _ E). cbn in Hn, Hm.
    apply IH; [exact Hr | lia | lia].
Qed.

Lemma cell_at_below sh row col :
  List.length sh < row -> cell_at sh row col = blank.
Proof.
  intros H. destruct row as [|k]; [reflexivity |]. cbn [cell_at].
  rewrite (nth_overflow sh []) by lia. now destruct col.
Qed.

Lemma _move_to_next_cell_eq r :
  exists r', _move_to_next_cell r = Ret tt r'
             /\ sheet r' = sheet r
             /\ current_row r' = current_row r
             /\ current_col r' = S (current_col r)
             /\ in_step r'.
Proof.
  eexists. split.
  - cbv [_move_to_next_cell bind gets modify set_position set_current_cell
         set_current_text_iter ret]. reflexivity.
  - repeat split.
Qed.

Lemma _move_to_next_row_eq r :
  exists r', _move_to_next_row r = Ret tt r'
             /\ sheet r' = sheet r
             /\ current_row r' = S (current_row r)
             /\ current_col r' = 1
             /\ in_step r'.
Proof.
  eexists. split.
  - cbv [_move_to_next_row _move_to_next_cell bind gets modify set_position
         set_current_cell set_current_text_iter ret]. reflexivity.
  - repeat split.
Qed.

(** With the rounds its position needs, the loop of
    [move_to_next_empty_cell] ends on a blank cell. *)
Lemma move_while_content_stops n :
  forall r,
    in_step r -> rounds_needed r <= n ->
    exists r', move_while_content n r = Ret tt r' /\ on_blank r'.
Proof.
  induction n as [|n IH]; intros r Hstep Hn.
  - exists r. unfold rounds_needed in Hn.
    destruct (Nat.ltb_spec (List.length (sheet r)) (current_row r));
      [ | lia ].
    assert (on_blank r) as Hb.
    { unfold on_blank, image_here. rewrite Hstep.
      now rewrite cell_at_below by assumption. }
    split; [ | exact Hb ].
    destruct Hb as [Ht Hi]. cbn [move_while_content].
    unfold bind, has_text_content, has_image_content, bind, gets, ret.
    now rewrite Ht, Hi.
  - cbn [move_while_content].
    unfold bind at 1, has_text_content, bind at 1, gets at 1, ret at 1.
    unfold bind at 1, has_image_content, bind at 1, gets at 1, ret at 1.
    destruct (match cell_value (current_cell r) with
              | Some _ => true | None => false end
              || match image_here r with
                 | Some _ => true | None => false end) eqn:Hc.
    2:{ exists r. split; [reflexivity |].
        apply orb_false_iff in Hc as [Ht Hi]. split.
        - now destruct (cell_value (current_cell r)).
        - now destruct (image_here r). }
    assert (current_row r <= List.length (sheet r)) as Hrow.
    { apply Nat.nlt_ge. intros Hlt.
      unfold image_here in Hc. rewrite Hstep in Hc.
      rewrite cell_at_below in Hc by assumption. discriminate Hc. }
    destruct (_move_to_next_cell_eq r) as (r1 & E1 & Hs1 & Hr1 & Hc1 & Hi1).
    rewrite (bind_Ret _ _ _ _ _ E1).
    unfold bind at 1, gets at 1. rewrite Hc1.
    unfold rounds_needed in Hn.
    destruct (Nat.ltb_spec (List.length (sheet r)) (current_row r));
      [lia |].
    destruct (Nat.ltb_spec 100 (S (current_col r))) as [Hfar|Hnear].
    + destruct (_move_to_next_row_eq r1) as (r2 & E2 & Hs2 & Hr2 & Hc2 & Hi2).
      rewrite (bind_Ret _ _ _ _ _ E2). apply IH; [exact Hi2 |].
      unfold rounds_needed. rewrite Hs2, Hr2, Hc2, Hs1, Hr1.
      destruct (Nat.ltb_spec (List.length (sheet r)) (S (current_row r)));
        lia.
    + rewrite (bind_Ret _ _ r1 tt r1) by reflexivity.
      apply IH; [exact Hi1 |].
      unfold rounds_needed. rewrite Hs1, Hr1, Hc1.
      destruct (Nat.ltb_spec (List.length (sheet r)) (current_row r)); lia.
Qed.

Lemma move_to_next_empty_cell_stops r :
  in_step r ->
  exists r', move_to_next_empty_cell r = Ret tt r' /\ on_blank r'.
Proof.
  intros Hstep. unfold move_to_next_empty_cell, bind at 1, gets at 1.
  apply move_while_content_stops; [exact Hstep |].
  unfold rounds, rounds_needed.
  destruct (Nat.ltb_spec (List.length (sheet r)) (current_row r)); lia.
Qed.

(* ================================================================== *)
(** * Cell references                                                  *)
(* ================================================================== *)

Lemma ord_chr_capital r :
  (0 <= r < 26)%Z -> Z.of_nat (ord (chr (65 + r))) = (65 + r)%Z.
Proof.
  intros Hr. unfold ord, chr. rewrite nat_ascii_embedding by lia. lia.
Qed.

(** The loop writes, in front of what it was given, the name whose number
    is one more than the index. *)
Lemma column_letter_loop_number n :
  forall c acc,
    (-1 <= c)%Z -> (c < Z.of_nat n)%Z ->
    column_number (column_letter_loop n c acc)
    = column_number_from (c + 1) acc.
Proof.
  induction n as [|n IH]; intros c acc Hlo Hhi.
  - assert (c = -1)%Z as -> by lia. reflexivity.
  - cbn [column_letter_loop]. destruct (Z.leb_spec 0 c) as [Hc|Hc].
    + pose proof (Z.mod_pos_bound c 26 ltac:(lia)) as Hr.
      pose proof (Z.div_mod c 26 ltac:(lia)) as Hdm.
      assert (0 <= c / 26 <= c)%Z as Hq.
      { split; [apply Z.div_pos; lia |].
        apply Z.div_le_upper_bound; lia. }
      rewrite IH by lia. cbn [column_number_from].
      rewrite ord_chr_capital by exact Hr. f_equal. lia.
    + assert (c = -1)%Z as -> by lia. reflexivity.
Qed.

Lemma column_letter_loop_capitals n :
  forall c acc, capitals acc -> capitals (column_letter_loop n c acc).
Proof.
  induction n as [|n IH]; intros c acc Hacc; cbn [column_letter_loop];
    destruct (Z.leb_spec 0 c) as [Hc|Hc]; try exact Hacc.
  apply IH. split; [ | exact Hacc ].
  pose proof (Z.mod_pos_bound c 26 ltac:(lia)) as Hr.
  unfold capital. pose proof (ord_chr_capital _ Hr). lia.
Qed.

(** More rounds than one more than the index change nothing. *)
Lemma column_letter_loop_enough n :
  forall m c acc,
    (c < Z.of_nat n)%Z -> (c < Z.of_nat m)%Z ->
    column_letter_loop n c acc = column_letter_loop m c acc.
Proof.
  induction n as [|n IH]; intros m c acc Hn Hm;
    destruct m as [|m]; cbn [column_letter_loop];
    destruct (Z.leb_spec 0 c) as [Hc|Hc]; try reflexivity; try lia.
  assert (0 <= c / 26 <= c)%Z as Hq.
  { split; [apply Z.div_pos; lia |]. apply Z.div_le_upper_bound; lia. }
  apply IH; lia.
Qed.

Lemma _get_column_letter_number c :
  (0 <= c)%Z -> column_number (_get_column_letter c) = (c + 1)%Z.
Proof.
  intros Hc. unfold _get_column_letter.
  rewrite column_letter_loop_number by lia. reflexivity.
Qed.

Lemma _get_column_letter_inj a b :
  (0 <= a)%Z -> (0 <= b)%Z ->
  _get_column_letter a = _get_column_letter b -> a = b.
Proof.
  intros Ha Hb E. apply (f_equal column_number) in E.
  rewrite !_get_column_letter_number in E by assumption. lia.
Qed.

Lemma _get_column_letter_capitals c : capitals (_get_column_letter c).
Proof. apply column_letter_loop_capitals. exact I. Qed.

(** X1.  Column names round trip: for an index that is not negative, the
    name [_get_column_letter] writes is the spreadsheet name of column
    index + 1, so index 0 is column A; two such indices with the same name
    are equal. *)
Theorem column_letter_round_trip :
  (forall c, (0 <= c)%Z ->
     column_number (_get_column_letter c) = (c + 1)%Z)
  /\ (forall a b, (0 <= a)%Z -> (0 <= b)%Z ->
        _get_column_letter a = _get_column_letter b -> a = b).
Proof.
  split; [exact _get_column_letter_number | exact _get_column_letter_inj].
Qed.

Lemma column_letter_round_trip_witness :
  column_number (_get_column_letter 27) = 28%Z
  /\ (_get_column_letter 27 = _get_column_letter (26 + 1) -> 27 = 26 + 1)%Z.
Proof.
  destruct column_letter_round_trip as (Hrt & Hinj). split.
  - apply (Hrt 27%Z). lia.
  - apply (Hinj 27%Z (26 + 1)%Z); lia.
Defined.

(** X2.  The name of a column is made of capital letters only; it is
    empty exactly for a negative index; and the number of rounds allowed
    to the loop does not matter once it exceeds the index. *)
Theorem column_letter_shape :
  forall c,
    capitals (_get_column_letter c)
    /\ (_get_column_letter c = "" <-> (c < 0)%Z)
    /\ (forall n, (c < Z.of_nat n)%Z ->
          column_letter_loop n c "" = _get_column_letter c).
Proof.
  intros c. split; [ | split ].
  - apply _get_column_letter_capitals.
  - unfold _get_column_letter. cbn [column_letter_loop].
    destruct (Z.leb_spec 0 c) as [Hc|Hc].
    + split; [ | lia ]. intros E.
      pose proof (column_letter_loop_number (Z.to_nat c) (c / 26 - 1)
                    (String (chr (65 + c mod 26)) "")) as H.
      assert (0 <= c / 26 <= c)%Z as Hq.
      { split; [apply Z.div_pos; lia |].
        apply Z.div_le_upper_bound; lia. }
      pose proof (Z.mod_pos_bound c 26 ltac:(lia)) as Hr.
      destruct (Z.eq_dec c 0) as [->|Hne]; [discriminate E |].
      specialize (H ltac:(lia) ltac:(lia)).
      rewrite E in H. cbn [column_number_from column_number] in H.
      rewrite ord_chr_capital in H by exact Hr. lia.
    + split; [lia | reflexivity].
  - intros n Hn. unfold _get_column_letter.
    apply column_letter_loop_enough; lia.
Qed.

Lemma column_letter_shape_witness :
  column_letter_loop 40 27 "" = _get_column_letter 27.
Proof.
  destruct (column_letter_shape 27) as (_ & _ & H). apply (H 40). lia.
Defined.

(** [str(n)] of a number that is not negative starts with a digit. *)
Lemma str_nat_digit n :
  exists c s, str (VInt (Z.of_nat n)) = String c s /\ 48 <= ord c <= 57.
Proof.
  unfold str. destruct (Z.of_nat n) as [|p|p] eqn:E; [ | | lia ].
  - exists "0"%char, "". split; [reflexivity | cbn; lia].
  - cbn [Z.to_int NilZero.string_of_int].
    pose proof (Unsigned.to_uint_nonnil p) as Hnil.
    destruct (Pos.to_uint p); [contradiction | ..];
      cbn; eexists; eexists; (split; [reflexivity | cbn; lia]).
Qed.

Lemma str_nat_inj a b :
  str (VInt (Z.of_nat a)) = str (VInt (Z.of_nat b)) -> a = b.
Proof.
  unfold str. intros E.
  assert (forall n, Z.to_int (Z.of_nat n) <> Decimal.Pos Decimal.Nil
                    /\ Z.to_int (Z.of_nat n) <> Decimal.Neg Decimal.Nil) as H.
  { intros n. destruct (Z.of_nat n) as [|p|p] eqn:En; [ | | lia ]; cbn;
      (split; [ | discriminate ]); [discriminate |].
    intros Hp. injection Hp as Hp.
    exact (Unsigned.to_uint_nonnil p Hp). }
  apply (f_equal NilZero.int_of_string) in E.
  rewrite !NilZero.isi in E by apply H.
  injection E as E. apply to_int_inj in E. lia.
Qed.

(** A run of capitals followed by text that starts with a digit is cut in
    one way only. *)
Lemma capitals_then_digit l1 :
  forall l2 c1 d1 c2 d2,
    capitals l1 -> capitals l2 ->
    48 <= ord c1 <= 57 -> 48 <= ord c2 <= 57 ->
    l1 ++ String c1 d1 = l2 ++ String c2 d2 ->
    l1 = l2 /\ String c1 d1 = String c2 d2.
Proof.
  induction l1 as [|x l1 IH]; intros [|y l2] c1 d1 c2 d2 H1 H2 Hc1 Hc2 E;
    cbn in E.
  - now split.
  - injection E as -> _. destruct H2 as [H2 _]. unfold capital in H2. lia.
  - injection E as -> _. destruct H1 as [H1 _]. unfold capital in H1. lia.
  - injection E as -> E. destruct H1 as [_ H1], H2 as [_ H2].
    destruct (IH _ _ _ _ _ H1 H2 Hc1 Hc2 E) as [-> Hd]. now split.
Qed.

(** X3.  Cell references tell positions apart: the reference is the
    column name followed by the row number, asking for it leaves the
    reader as it is, and two readers with the same reference stand on the
    same row and the same column. *)
Theorem cell_reference_injective :
  (forall r,
      _get_cell_reference r
      = Ret (_get_column_letter (Z.of_nat (current_col r))
             ++ str (VInt (Z.of_nat (current_row r)))) r)
  /\ (forall r1 r2 ref,
        _get_cell_reference r1 = Ret ref r1 ->
        _get_cell_reference r2 = Ret ref r2 ->
        current_row r1 = current_row r2 /\ current_col r1 = current_col r2).
Proof.
  split; [reflexivity |].
  intros r1 r2 ref E1 E2.
  unfold _get_cell_reference, bind, gets, ret in E1, E2.
  injection E1 as E1. injection E2 as E2. rewrite <- E2 in E1. clear E2.
  destruct (str_nat_digit (current_row r1)) as (c1 & d1 & S1 & D1).
  destruct (str_nat_digit (current_row r2)) as (c2 & d2 & S2 & D2).
  pose proof (_get_column_letter_capitals (Z.of_nat (current_col r1))) as K1.
  pose proof (_get_column_letter_capitals (Z.of_nat (current_col r2))) as K2.
  assert (Hsplit : _get_column_letter (Z.of_nat (current_col r1))
                   = _get_column_letter (Z.of_nat (current_col r2))
                   /\ String c1 d1 = String c2 d2).
  { apply capitals_then_digit; try assumption. now rewrite <- S1, <- S2. }
  destruct Hsplit as [Hl Hd]. rewrite <- S1, <- S2 in Hd. split.
  - exact (str_nat_inj _ _ Hd).
  - apply _get_column_letter_inj in Hl; lia.
Qed.

Lemma cell_reference_injective_witness :
  current_row (excel_parser.__init__ minimal)
  = current_row (excel_parser.__init__ bar_after_clef)
  /\ current_col (excel_parser.__init__ minimal)
     = current_col (excel_parser.__init__ bar_after_clef).
Proof.
  destruct cell_reference_injective as (_ & H).
  apply (H _ _ "B1"); vm_compute; reflexivity.
Defined.

(* ================================================================== *)
(** * Matching a picture against the reference images                  *)
(* ================================================================== *)

Lemma below_Some d c : below d (Some c) = true <-> d < c.
Proof. cbn. apply Nat.ltb_lt. Qed.

Lemma below_false d cd :
  below d cd = false -> exists c, cd = Some c /\ c <= d.
Proof.
  destruct cd as [c|]; cbn; [ | discriminate ].
  intros H. apply Nat.ltb_ge in H. eauto.
Qed.

(** The candidate the loop ends with: either the one it started with,
    which nothing it saw came below, or the first name it saw at the
    least distance. *)
Lemma scan_first input dir l :
  forall ci cd r rest cd',
    scan_state ci cd ->
    scan input dir l ci cd = Some (r :: rest, cd') ->
    (exists tl, ci = r :: tl /\ cd' = cd
                /\ forall r' d', In r' l -> distance input dir r' = Some d' ->
                                 below d' cd = false)
    \/ (exists pre post d,
           l = (pre ++ r :: post)%list
           /\ distance input dir r = Some d
           /\ cd' = Some d
           /\ below d cd = true
           /\ (forall r' d', In r' pre -> distance input dir r' = Some d' ->
                             d < d')
           /\ (forall r' d', In r' post -> distance input dir r' = Some d' ->
                             d <= d')).
Proof.
  induction l as [|x l IH]; intros ci cd r rest cd' Hst H; cbn [scan] in H.
  - injection H as -> <-. left. exists rest. repeat split. intros ? ? [].
  - assert (Hskip : distance input dir x = None ->
                    scan input dir l ci cd = Some (r :: rest, cd') ->
                    (exists tl, ci = r :: tl /\ cd' = cd
                       /\ forall r' d', In r' (x :: l) ->
                            distance input dir r' = Some d' ->
                            below d' cd = false)
                    \/ (exists pre post d,
                          (x :: l)%list = (pre ++ r :: post)%list
                          /\ distance input dir r = Some d
                          /\ cd' = Some d
                          /\ below d cd = true
                          /\ (forall r' d', In r' pre ->
                                distance input dir r' = Some d' -> d < d')
                          /\ (forall r' d', In r' post ->
                                distance input dir r' = Some d' -> d <= d'))).
    { intros Hx H'.
      destruct (IH _ _ _ _ _ Hst H')
        as [(tl & -> & -> & Hall) | (pre & post & d & -> & Hd & -> & Hb & Hpre & Hpost)].
      - left. exists tl. repeat split. intros r' d' [<-|Hin] Hd';
          [congruence | eauto].
      - right. exists (x :: pre), post, d. repeat split; auto.
        intros r' d' [<-|Hin] Hd'; [congruence | eauto]. }
    unfold distance in Hskip.
    destruct (dir x) as [| |h] eqn:Hx; [now apply Hskip | now apply Hskip |].
    clear Hskip.
    destruct (sub input h) as [dx|] eqn:Hdx; [ | discriminate H ].
    assert (Hdist : distance input dir x = Some dx)
      by (unfold distance; now rewrite Hx).
    destruct (below dx cd) eqn:Hb.
    + assert (scan_state [x] (Some dx)) as Hst' by (split; discriminate).
      destruct (IH _ _ _ _ _ Hst' H)
        as [(tl & E & -> & Hall) | (pre & post & d & -> & Hd & -> & Hb' & Hpre & Hpost)].
      * injection E as <- <-. right. exists [], l, dx. repeat split; auto.
        -- intros ? ? [].
        -- intros r' d' Hin Hd'. specialize (Hall _ _ Hin Hd').
           apply below_false in Hall as (c & [= <-] & Hle). exact Hle.
      * apply below_Some in Hb'. right. exists (x :: pre), post, d.
        repeat split; auto.
        -- destruct cd as [c|]; [ | reflexivity ].
           apply below_Some. apply below_Some in Hb. lia.
        -- intros r' d' [<-|Hin] Hd'; [ | eauto ].
           rewrite Hdist in Hd'. injection Hd' as <-. exact Hb'.
    + apply below_false in Hb as (c & -> & Hle).
      assert (ci <> []) as Hne by (intros E; apply Hst in E; discriminate E).
      cbn [equals] in H. destruct (Nat.eqb_spec dx c) as [->|Hneq].
      * assert (scan_state (ci ++ [x])%list (Some c)) as Hst'.
        { split; [ | discriminate ]. now destruct ci. }
        destruct (IH _ _ _ _ _ Hst' H)
          as [(tl & E & -> & Hall) | (pre & post & d & -> & Hd & -> & Hb' & Hpre & Hpost)].
        -- left. destruct ci as [|y ci]; [contradiction |].
           injection E as -> _. eexists. repeat split.
           intros r' d' [<-|Hin] Hd'; [ | eauto ].
           rewrite Hdist in Hd'. injection Hd' as <-. cbn.
           apply Nat.ltb_irrefl.
        -- right. exists (x :: pre), post, d. repeat split; auto.
           intros r' d' [<-|Hin] Hd'; [ | eauto ].
           rewrite Hdist in Hd'. injection Hd' as <-.
           now apply below_Some in Hb'.
      * destruct (IH _ _ _ _ _ Hst H)
          as [(tl & -> & -> & Hall) | (pre & post & d & -> & Hd & -> & Hb' & Hpre & Hpost)].
        -- left. exists tl. repeat split.
           intros r' d' [<-|Hin] Hd'; [ | eauto ].
           rewrite Hdist in Hd'. injection Hd' as <-. cbn.
           apply Nat.ltb_ge. exact Hle.
        -- right. exists (x :: pre), post, d. repeat split; auto.
           intros r' d' [<-|Hin] Hd'; [ | eauto ].
           rewrite Hdist in Hd'. injection Hd' as <-.
           apply below_Some in Hb'. lia.
Qed.

Lemma find_closest_match_first image dir refs r :
  find_closest_match image dir refs = Some r ->
  exists input pre post d,
    image = Some input
    /\ refs = (pre ++ r :: post)%list
    /\ distance input dir r = Some d
    /\ (forall r' d', In r' pre -> distance input dir r' = Some d' -> d < d')
    /\ (forall r' d', In r' post -> distance input dir r' = Some d' ->
                      d <= d').
Proof.
  unfold find_closest_match. destruct image as [input|]; [ | discriminate ].
  destruct (scan input dir refs [] None) as [[[|first rest] cd']|] eqn:E;
    try discriminate.
  intros [= ->].
  assert (scan_state [] None) as Hst by (split; reflexivity).
  destruct (scan_first _ _ _ _ _ _ _ _ Hst E)
    as [(tl & Habs & _) | (pre & post & d & -> & Hd & _ & _ & Hpre & Hpost)];
    [discriminate Habs |].
  exists input, pre, post, d. repeat split; auto.
Qed.

(** X4.  The match is the first reference image at the least distance:
    when [find_closest_match] returns a name, the picture has a hash, the
    name is one of the reference images and has a distance to the
    picture, every reference image listed before it is strictly farther
    and none listed after it is closer. *)
Theorem find_closest_match_is_first_closest :
  forall image dir refs r,
    find_closest_match image dir refs = Some r ->
    exists input pre post d,
      image = Some input
      /\ refs = (pre ++ r :: post)%list
      /\ distance input dir r = Some d
      /\ (forall r' d', In r' pre -> distance input dir r' = Some d' ->
                        d < d')
      /\ (forall r' d', In r' post -> distance input dir r' = Some d' ->
                        d <= d').
Proof. exact find_closest_match_first. Qed.

Lemma find_closest_match_is_first_closest_witness :
  exists input pre post d,
    Some snapshot = Some input
    /\ [ "Note_H1.JPG"; "Note_H2.JPG"; "Note_H3.JPG"; "Note_H4.JPG" ]
       = (pre ++ "Note_H2.JPG" :: post)%list
    /\ distance input shelf "Note_H2.JPG" = Some d
    /\ (forall r' d', In r' pre -> distance input shelf r' = Some d' ->
                      d < d')
    /\ (forall r' d', In r' post -> distance input shelf r' = Some d' ->
                      d <= d').
Proof.
  apply (find_closest_match_is_first_closest (Some snapshot) shelf).
  vm_compute. reflexivity.
Defined.

Lemma scan_None input dir l :
  forall ci cd,
    scan input dir l ci cd = None <-> some_misfit input dir l.
Proof.
  induction l as [|x l IH]; intros ci cd; cbn [scan].
  - split; [discriminate | intros (? & ? & [] & _)].
  - assert (Hskip : (forall h, dir x = Hashed h -> sub input h <> None) ->
                    (some_misfit input dir l
                     <-> some_misfit input dir (x :: l))).
    { intros Hx. split.
      - intros (r & h & Hin & Hd & Hs). exists r, h. cbn. auto.
      - intros (r & h & [<-|Hin] & Hd & Hs).
        + now apply Hx in Hd.
        + now exists r, h. }
    destruct (dir x) as [| |h] eqn:Hx.
    + rewrite IH. apply Hskip. discriminate.
    + rewrite IH. apply Hskip. discriminate.
    + destruct (sub input h) as [dx|] eqn:Hdx.
      * assert (some_misfit input dir l <-> some_misfit input dir (x :: l))
          as <- by (apply Hskip; intros h' [= <-]; congruence).
        destruct (below dx cd); [apply IH |].
        destruct (equals dx cd); apply IH.
      * split; [intros _ | reflexivity]. exists x, h. cbn. auto.
Qed.

Lemma scan_nonempty input dir l :
  forall ci cd ci' cd',
    scan_state ci cd ->
    scan input dir l ci cd = Some (ci', cd') ->
    ci <> [] \/ some_hashed dir l ->
    ci' <> [].
Proof.
  induction l as [|x l IH]; intros ci cd ci' cd' Hst H Hor; cbn [scan] in H.
  - injection H as <- _. destruct Hor as [Hne | (? & ? & [] & _)]. exact Hne.
  - assert (Hskip : (forall h, dir x <> Hashed h) ->
                    scan input dir l ci cd = Some (ci', cd') -> ci' <> []).
    { intros Hx H'. apply (IH _ _ _ _ Hst H').
      destruct Hor as [Hne | (r & h & [<-|Hin] & Hd)]; auto.
      - now apply Hx in Hd.
      - right. now exists r, h. }
    destruct (dir x) as [| |h] eqn:Hx;
      [ apply Hskip; [discriminate | exact H]
      | apply Hskip; [discriminate | exact H] | ].
    clear Hskip. destruct (sub input h) as [dx|]; [ | discriminate H ].
    destruct (below dx cd) eqn:Hb.
    + apply (IH [x] (Some dx) ci' cd'); [split; discriminate | exact H |].
      left. discriminate.
    + apply below_false in Hb as (c & -> & Hle).
      assert (ci <> []) as Hne by (intros E; apply Hst in E; discriminate E).
      cbn [equals] in H. destruct (Nat.eqb dx c).
      * apply (IH (ci ++ [x])%list (Some c) ci' cd'); [ | exact H | ].
        -- split; [ | discriminate ]. now destruct ci.
        -- left. now destruct ci.
      * apply (IH _ _ _ _ Hst H). now left.
Qed.

Lemma scan_unhashed input dir l :
  forall ci cd,
    ~ some_hashed dir l -> scan input dir l ci cd = Some (ci, cd).
Proof.
  induction l as [|x l IH]; intros ci cd Hno; cbn [scan]; [reflexivity |].
  assert (~ some_hashed dir l) as Hno'.
  { intros (r & h & Hin & Hd). apply Hno. exists r, h. cbn. auto. }
  destruct (dir x) as [| |h] eqn:Hx; auto.
  exfalso. apply Hno. exists x, h. cbn. auto.
Qed.

(** X5.  When no match comes back: [find_closest_match] returns None
    exactly when the picture has no hash, or a reference image has a hash
    of another size than the picture's (the exception is swallowed), or no
    reference image has a hash at all. *)
Theorem find_closest_match_none :
  forall image dir refs,
    find_closest_match image dir refs = None
    <-> image = None
        \/ exists input,
             image = Some input
             /\ (some_misfit input dir refs \/ ~ some_hashed dir refs).
Proof.
  intros image dir refs. unfold find_closest_match.
  destruct image as [input|]; [ | split; auto ].
  assert (scan_state [] None) as Hst by (split; reflexivity).
  destruct (scan input dir refs [] None) as [[ci' cd']|] eqn:E.
  - assert (~ some_misfit input dir refs) as Hfit.
    { intros Hm. apply (scan_None input dir refs [] None) in Hm. congruence. }
    destruct ci' as [|first rest].
    + split; [intros _ | reflexivity]. right. exists input.
      split; [reflexivity |]. right. intros Hh.
      exact (scan_nonempty _ _ _ _ _ _ _ Hst E (or_intror Hh) eq_refl).
    + split; [discriminate |].
      intros [Habs | (input' & [= <-] & [Hm | Hno])];
        [discriminate Habs | contradiction |].
      rewrite (scan_unhashed _ _ _ _ _ Hno) in E. discriminate E.
  - split; [intros _ | reflexivity]. right. exists input.
    split; [reflexivity |]. left. now apply (scan_None input dir refs [] None).
Qed.

Lemma first_cut {A} (x : A) :
  forall pre pre' post post',
    (pre ++ x :: post)%list = (pre' ++ x :: post')%list ->
    ~ In x pre -> ~ In x pre' -> pre = pre'.
Proof.
  induction pre as [|a pre IH]; intros [|b pre'] post post' E H H'; cbn in E.
  - reflexivity.
  - injection E as -> _. exfalso. apply H'. now left.
  - injection E as -> _. exfalso. apply H. now left.
  - injection E as -> E. f_equal. apply (IH _ _ _ E).
    + intros Hin. apply H. now right.
    + intros Hin. apply H'. now right.
Qed.

(** X6.  A reference image whose hash is that of one listed before it is
    never the match: whatever the picture, [find_closest_match] does not
    return the later name. *)
Theorem find_closest_match_never_the_later_twin :
  forall image dir pre later post earlier h,
    In earlier pre -> ~ In later pre ->
    dir earlier = Hashed h -> dir later = Hashed h ->
    find_closest_match image dir (pre ++ later :: post)%list <> Some later.
Proof.
  intros image dir pre later post earlier h Hin Hnot He Hl Hfound.
  destruct (find_closest_match_first _ _ _ _ Hfound)
    as (input & pre' & post' & d & -> & Hcut & Hd & Hpre & _).
  assert (~ In later pre') as Hnot'.
  { intros Hin'. specialize (Hpre _ _ Hin' Hd). lia. }
  assert (pre = pre') as <- by exact (first_cut _ _ _ _ _ Hcut Hnot Hnot').
  assert (distance input dir earlier = Some d) as Hde.
  { unfold distance in *. rewrite He. now rewrite Hl in Hd. }
  specialize (Hpre _ _ Hin Hde). lia.
Qed.

Lemma find_closest_match_never_the_later_twin_witness :
  find_closest_match (Some snapshot) shelf
    ([ "Note_H1.JPG"; "Note_H2.JPG" ] ++ "Note_H3.JPG" :: [ "Note_H4.JPG" ])%list
  = Some "Note_H2.JPG"
  /\ find_closest_match (Some snapshot) shelf
       ([ "Note_H1.JPG"; "Note_H2.JPG" ] ++ "Note_H3.JPG" :: [ "Note_H4.JPG" ])%list
     <> Some "Note_H3.JPG".
Proof.
  split; [reflexivity |].
  apply (find_closest_match_never_the_later_twin
           (Some snapshot) shelf _ _ _ "Note_H2.JPG" snapshot).
  - cbn. auto.
  - cbn. intros [H|[H|[]]]; discriminate H.
  - reflexivity.
  - reflexivity.
Defined.

Lemma find_closest_match_none_witness :
  find_closest_match (Some snapshot) shelf [ "Note_H9.JPG" ] = None.
Proof.
  apply (find_closest_match_none (Some snapshot) shelf [ "Note_H9.JPG" ]).
  right. exists snapshot. split; [reflexivity |]. right.
  intros (name & h & [<-|[]] & H). discriminate H.
Defined.

(* ================================================================== *)
(** * The classifier on every name                                     *)
(* ================================================================== *)

Lemma index_from_nth x l :
  forall k i, index_from x l k = Some i ->
              exists j, i = k + j /\ nth_error l j = Some x.
Proof.
  induction l as [|y l IH]; intros k i H; cbn [index_from] in H;
    [discriminate H |].
  destruct (String.eqb_spec y x) as [->|Hne].
  - injection H as <-. exists 0. split; [lia | reflexivity].
  - destruct (IH _ _ H) as (j & -> & Hj). exists (S j). split; [lia | exact Hj].
Qed.

(** A name is one of the eight special images, or the image of a pitch
    position, or no reference image. *)
Lemma image_cases img :
  special_image img \/ (exists i, pitch_image i img) \/ unlisted img.
Proof.
  unfold unlisted.
  destruct (index_from img REFERENCE_IMAGES 0) as [i|] eqn:E; [ | auto ].
  destruct (index_from_nth _ _ _ _ E) as (j & -> & Hj). cbn in Hj.
  destruct (Nat.lt_ge_cases j 16) as [Hlt|Hge].
  - right. left. exists j. now split.
  - left. unfold special_image.
    do 16 (destruct j as [|j]; [lia |]).
    do 8 (destruct j as [|j]; [injection Hj as <-; cbn; tauto |]).
    destruct j; discriminate Hj.
Qed.

Lemma unlisted_not_special img : unlisted img -> ~ special_image img.
Proof.
  unfold unlisted, special_image. intros Hun Hsp. cbn in Hsp.
  repeat (destruct Hsp as [<-|Hsp]; [vm_compute in Hun; discriminate Hun |]).
  exact Hsp.
Qed.

(** The classifier on a name that is no reference image: the lookup of the
    name raises ValueError before anything is assigned. *)
Lemma identify_unlisted img ip :
  unlisted img ->
  resolve_note img ip
  = Raise (ValueError ("'" ++ img ++ "' is not in list")) ip
  /\ _identify_token_from_match img ip = Ret (unknown_token ip) ip.
Proof.
  intros Hun.
  assert (resolve_note img ip
          = Raise (ValueError ("'" ++ img ++ "' is not in list")) ip) as Hr.
  { unfold resolve_note, index, bind. unfold unlisted in Hun.
    now rewrite Hun. }
  split; [exact Hr |].
  pose proof (unlisted_not_special _ Hun) as Hns.
  unfold special_image in Hns. cbn in Hns.
  unfold _identify_token_from_match.
  repeat match goal with
         | |- context [if String.eqb ?x ?y then _ else _] =>
             destruct (String.eqb_spec x y);
             [ exfalso; subst img; apply Hns;
               repeat first [left; reflexivity | right] | ]
         end.
  unfold bind at 1, try_except. rewrite Hr. reflexivity.
Qed.

(** The classifier on a special image: a token without payload or
    alteration that carries the clef held afterwards; only the two clef
    images change the held clef. *)
Lemma identify_special img ip :
  special_image img ->
  exists tok ip',
    _identify_token_from_match img ip = Ret tok ip'
    /\ Token.clef tok = current_clef ip'
    /\ Token.alteration tok = AlterationType.NONE
    /\ Token.value tok = VNone
    /\ Token.type tok <> TokenType.NOTE
    /\ Token.type tok <> TokenType.UNKNOWN
    /\ (current_clef ip' = current_clef ip
        \/ Token.type tok = TokenType.CLEF_SOL
        \/ Token.type tok = TokenType.CLEF_FA).
Proof.
  unfold special_image. cbn. intros Hsp.
  repeat (destruct Hsp as [<-|Hsp];
          [ eexists; eexists; split; [reflexivity |]; cbn;
            repeat split; try discriminate; auto | ]).
  contradiction.
Qed.

(** X7.  What a classified token carries: the clef the classifier holds
    once it has returned, whatever the name; an alteration only when the
    name is no reference image, and then the classifier is left as it was
    and the token is its UNKNOWN token; a payload only when it is a NOTE.
    The held clef changes on the two clef images only. *)
Theorem classified_token_fields :
  forall img ip tok ip',
    _identify_token_from_match img ip = Ret tok ip' ->
    Token.clef tok = current_clef ip'
    /\ (Token.alteration tok = AlterationType.NONE
        \/ (unlisted img /\ tok = unknown_token ip /\ ip' = ip))
    /\ (Token.value tok <> VNone -> Token.type tok = TokenType.NOTE)
    /\ (current_clef ip' = current_clef ip
        \/ Token.type tok = TokenType.CLEF_SOL
        \/ Token.type tok = TokenType.CLEF_FA).
Proof.
  intros img ip tok ip' E.
  destruct (image_cases img) as [Hsp | [(i & Hp) | Hun]].
  - destruct (identify_special img ip Hsp)
      as (tok0 & ip0 & E0 & Hc & Ha & Hv & _ & _ & Hk).
    rewrite E0 in E. injection E as <- <-.
    repeat split; auto. intros Hne. now rewrite Hv in Hne.
  - rewrite (holding_eta ip), (identify_pitch i img _ _ Hp) in E.
    injection E as <- <-. unfold pitch_token.
    destruct (String.eqb _ ""); cbn; repeat split; auto.
    intros Hne. now contradiction Hne.
  - destruct (identify_unlisted img ip Hun) as (_ & E0).
    rewrite E0 in E. injection E as <- <-.
    repeat split; auto. intros Hne. now contradiction Hne.
Qed.

Lemma classified_token_fields_witness :
  Token.clef (Token.new TokenType.CLEF_FA VNone ClefType.FA
                AlterationType.NONE)
  = current_clef (holding ClefType.FA AlterationType.DIESE).
Proof.
  apply (classified_token_fields "Note_CLE_FA.JPG"
           (holding ClefType.SOL AlterationType.DIESE)).
  reflexivity.
Defined.

(** X8.  A picture that is not recognised leaves the classifier as it is:
    for a picture whose file is gone, that has no match, or whose match is
    no reference image, [parse_image] changes neither the held clef nor
    the held alteration, so an accidental classified before it still
    serves the next pitch image. *)
Theorem unrecognised_picture_keeps_alteration :
  forall pic ip,
    pic = Vanished \/ pic = Unmatched
    \/ (exists img, pic = Matched img /\ unlisted img) ->
    (exists tok,
        parse_image pic ip = Ret tok ip
        /\ (pic = Vanished -> tok = None)
        /\ (pic <> Vanished -> tok = Some (unknown_token ip)))
    /\ forall acc a p1 i,
        accidental acc a -> pitch_image i p1 ->
        (_identify_token_from_match acc ;;
         parse_image pic ;;
         _identify_token_from_match p1) ip
        = Ret (pitch_token (current_clef ip) (lookup (current_clef ip) a i))
              (holding (current_clef ip) AlterationType.NONE).
Proof.
  intros pic ip Hpic.
  assert (Hsame : forall ip0, exists tok,
             parse_image pic ip0 = Ret tok ip0
             /\ (pic = Vanished -> tok = None)
             /\ (pic <> Vanished -> tok = Some (unknown_token ip0))).
  { intros ip0. destruct Hpic as [-> | [-> | (img & -> & Hun)]].
    - exists None. repeat split. intros H. now contradiction H.
    - exists (Some (unknown_token ip0)). repeat split. discriminate.
    - exists (Some (unknown_token ip0)). split; [ | split; [discriminate | auto] ].
      unfold parse_image. destruct (negb (truthy (VStr img))); [reflexivity |].
      destruct (identify_unlisted img ip0 Hun) as (_ & E).
      now rewrite (bind_Ret _ _ _ _ _ E). }
  split; [apply Hsame |].
  intros acc a p1 i Hacc Hp.
  rewrite (holding_eta ip) at 1.
  destruct (identify_accidental acc a (current_clef ip)
              (current_alteration ip) Hacc) as (tok & E).
  rewrite (bind_Ret _ _ _ _ _ E).
  destruct (Hsame (holding (current_clef ip) a)) as (tok' & E' & _).
  rewrite (bind_Ret _ _ _ _ _ E').
  now apply identify_pitch.
Qed.

Lemma unrecognised_picture_keeps_alteration_witness :
  (_identify_token_from_match "Alteration_DIESE.JPG" ;;
   parse_image (Matched "smudge.jpg") ;;
   _identify_token_from_match "Note_H1.JPG")
    (holding ClefType.SOL AlterationType.NONE)
  = Ret (pitch_token ClefType.SOL
           (lookup ClefType.SOL AlterationType.DIESE 0))
        (holding ClefType.SOL AlterationType.NONE).
Proof.
  destruct (unrecognised_picture_keeps_alteration (Matched "smudge.jpg")
              (holding ClefType.SOL AlterationType.NONE)) as (_ & H).
  - right. right. exists "smudge.jpg". split; reflexivity.
  - apply (H "Alteration_DIESE.JPG" AlterationType.DIESE "Note_H1.JPG" 0).
    + left. split; reflexivity.
    + split; [lia | reflexivity].
Defined.

(** The lookup of a pitch image returns: the six tables cover the sixteen
    pitch positions. *)
Lemma resolve_note_pitch i img ip :
  pitch_image i img -> exists found ip', resolve_note img ip = Ret found ip'.
Proof.
  intros [Hi Hnth]. rewrite (holding_eta ip).
  do 16 (destruct i as [|i];
         [ injection Hnth as <-;
           destruct (current_clef ip), (current_alteration ip);
           vm_compute; eauto | ]).
  lia.
Qed.

(** X9.  The lookup never runs off a table: for a name the special cases
    leave to it, the body of the [try] block either returns or raises
    ValueError for a name that is no reference image, leaving the
    classifier untouched; it raises IndexError for no name at all. *)
Theorem lookup_never_out_of_range :
  forall img ip,
    ~ special_image img ->
    (exists found ip', resolve_note img ip = Ret found ip')
    \/ (unlisted img
        /\ resolve_note img ip
           = Raise (ValueError ("'" ++ img ++ "' is not in list")) ip).
Proof.
  intros img ip Hns.
  destruct (image_cases img) as [Hsp | [(i & Hp) | Hun]].
  - contradiction.
  - left. exact (resolve_note_pitch i img ip Hp).
  - right. split; [exact Hun |]. apply (identify_unlisted img ip Hun).
Qed.

Lemma lookup_never_out_of_range_witness :
  (exists found ip',
      resolve_note "Note_H16.JPG" (holding ClefType.FA AlterationType.BEMOL)
      = Ret found ip')
  \/ (unlisted "Note_H16.JPG"
      /\ resolve_note "Note_H16.JPG" (holding ClefType.FA AlterationType.BEMOL)
         = Raise (ValueError ("'" ++ "Note_H16.JPG" ++ "' is not in list"))
                 (holding ClefType.FA AlterationType.BEMOL)).
Proof.
  apply lookup_never_out_of_range.
  unfold special_image. cbn. intros H.
  repeat (destruct H as [H|H]; [discriminate H |]). exact H.
Defined.

(* ================================================================== *)
(** * Token names                                                      *)
(* ================================================================== *)

Import token.

Lemma startswith_app s x p :
  startswith s p = true -> startswith (s ++ x) p = true.
Proof.
  unfold startswith. revert s. induction p as [|a p IH]; intros s H.
  - now destruct (s ++ x).
  - destruct s as [|b s]; [discriminate H |]. cbn in *.
    destruct (ascii_dec a b); [now apply IH | discriminate H].
Qed.

(** [get_token_type_from_string] gives NOTE for the strings that name
    their clef, and for no other. *)
Lemma get_token_type_NOTE s :
  get_token_type_from_string s = TokenType.NOTE <-> clef_prefixed s = true.
Proof.
  unfold get_token_type_from_string, clef_prefixed, token_mapping.
  cbn [item].
  repeat match goal with
         | |- context [if String.eqb ?k s then _ else _] =>
             destruct (String.eqb_spec k s) as [<-|_];
             [ cbn; split; discriminate | ]
         end.
  destruct (startswith s "SOL_TOKEN" || startswith s "FA_TOKEN");
    split; congruence.
Qed.

(** X10.  Token names: [get_token_type_from_string] returns NOTE exactly
    for the strings that start with SOL_TOKEN or FA_TOKEN, whatever
    follows, and every token type is the type of some string. *)
Theorem token_type_from_string :
  (forall s, get_token_type_from_string s = TokenType.NOTE
             <-> clef_prefixed s = true)
  /\ (forall s x, clef_prefixed s = true ->
        get_token_type_from_string (s ++ x) = TokenType.NOTE)
  /\ (forall k, exists s, get_token_type_from_string s = k).
Proof.
  split; [exact get_token_type_NOTE | split].
  - intros s x H. apply get_token_type_NOTE. unfold clef_prefixed in *.
    apply orb_true_iff in H as [H|H]; apply orb_true_iff;
      [left | right]; now apply startswith_app.
  - intros k.
    destruct k;
      [ exists "TOKEN_INCONNU" | exists "TOKEN_EO_PARTITION"
      | exists "TOKEN_NOM" | exists "TOKEN_ID" | exists "TOKEN_INSTRUMENT"
      | exists "TOKEN_DP" | exists "TOKEN_PV" | exists "TOKEN_PT"
      | exists "TOKEN_METER" | exists "TOKEN_CLE_SOL"
      | exists "TOKEN_CLE_FA" | exists "SOL_TOKEN" | exists "TOKEN_PAUSE"
      | exists "TOKEN_DEMI_PAUSE" | exists "TOKEN_ALT_BEMOL"
      | exists "TOKEN_ALT_DIESE" | exists "TOKEN_BATON_MESURE"
      | exists "TOKEN_BATON_FIN_PORTEE" ]; reflexivity.
Qed.

Lemma token_type_from_string_witness :
  get_token_type_from_string ("FA_TOKEN_DO_L" ++ "_Piano") = TokenType.NOTE.
Proof.
  destruct token_type_from_string as (_ & H & _).
  apply (H "FA_TOKEN_DO_L" "_Piano"). reflexivity.
Defined.

(** A pitch entry that is not empty names a clef. *)
Lemma lookup_clef_prefixed c a i :
  i < 16 -> lookup c a i <> "" -> clef_prefixed (lookup c a i) = true.
Proof.
  intros Hi.
  do 16 (destruct i as [|i];
         [ destruct c, a; vm_compute;
           first [reflexivity | intros H; now contradiction H] | ]).
  lia.
Qed.

(** X11.  The entries the parser writes, read back as token names: the
    payload of a NOTE the classifier returns is a table entry that is not
    empty and names a clef, so the entry written for it, with any
    instrument, is a NOTE to [get_token_type_from_string]; the entry
    written for a rest, the name of its token type, is UNKNOWN to it. *)
Theorem written_entries_as_token_names :
  (forall img ip tok ip',
      _identify_token_from_match img ip = Ret tok ip' ->
      Token.type tok = TokenType.NOTE ->
      exists payload,
        Token.value tok = VStr payload
        /\ payload <> ""
        /\ clef_prefixed payload = true
        /\ forall instrument,
            get_token_type_from_string (note_entry payload instrument)
            = TokenType.NOTE)
  /\ get_token_type_from_string (TokenType.name TokenType.PAUSE)
     = TokenType.UNKNOWN
  /\ get_token_type_from_string (TokenType.name TokenType.HALF_PAUSE)
     = TokenType.UNKNOWN.
Proof.
  split; [ | split; reflexivity ].
  intros img ip tok ip' E Hnote.
  destruct (image_cases img) as [Hsp | [(i & Hp) | Hun]].
  - destruct (identify_special img ip Hsp)
      as (tok0 & ip0 & E0 & _ & _ & _ & Hn & _).
    rewrite E0 in E. injection E as <- <-. contradiction.
  - rewrite (holding_eta ip), (identify_pitch i img _ _ Hp) in E.
    injection E as <- <-. unfold pitch_token in *.
    destruct (String.eqb_spec
                (lookup (current_clef ip) (current_alteration ip) i) "")
      as [Hempty|Hfull]; [discriminate Hnote |].
    eexists. split; [reflexivity |]. split; [exact Hfull |].
    assert (clef_prefixed
              (lookup (current_clef ip) (current_alteration ip) i) = true)
      as Hpre by (apply lookup_clef_prefixed; [apply Hp | exact Hfull]).
    split; [exact Hpre |].
    intros instrument. unfold note_entry. apply get_token_type_NOTE.
    unfold clef_prefixed in *.
    apply orb_true_iff in Hpre as [H|H]; apply orb_true_iff;
      [left | right]; now apply startswith_app.
  - destruct (identify_unlisted img ip Hun) as (_ & E0).
    rewrite E0 in E. injection E as <- <-. discriminate Hnote.
Qed.

Lemma written_entries_as_token_names_witness :
  exists payload,
    Token.value (pitch_token ClefType.SOL
                   (lookup ClefType.SOL AlterationType.NONE 1))
    = VStr payload
    /\ payload <> ""
    /\ clef_prefixed payload = true
    /\ forall instrument,
        get_token_type_from_string (note_entry payload instrument)
        = TokenType.NOTE.
Proof.
  destruct written_entries_as_token_names as (H & _).
  apply (H "Note_H2.JPG" (holding ClefType.SOL AlterationType.NONE)
           _ (holding ClefType.SOL AlterationType.NONE));
    reflexivity.
Defined.

(* ================================================================== *)
(** * The reader moves forward                                         *)
(* ================================================================== *)

Lemma forward_refl r : forward r r.
Proof. split; [reflexivity | right; split; [reflexivity | lia]]. Qed.

Lemma forward_trans r1 r2 r3 :
  forward r1 r2 -> forward r2 r3 -> forward r1 r3.
Proof.
  intros (S1 & H1) (S2 & H2). split; [congruence |].
  destruct H1 as [H1|(R1 & C1)], H2 as [H2|(R2 & C2)]; [left; lia ..|].
  right. split; [congruence | lia].
Qed.

Lemma _move_to_next_cell_forward : moves_forward _move_to_next_cell.
Proof.
  intros r (Hstep & Hrow & Hcol). unfold wp.
  destruct (_move_to_next_cell_eq r) as (r' & -> & Hs & Hr & Hc & Hi).
  repeat split; try assumption; lia.
Qed.

Lemma _move_to_next_row_forward : moves_forward _move_to_next_row.
Proof.
  intros r (Hstep & Hrow & Hcol). unfold wp.
  destruct (_move_to_next_row_eq r) as (r' & -> & Hs & Hr & Hc & Hi).
  repeat split; try assumption; lia.
Qed.

Lemma read_next_char_forward : moves_forward read_next_char.
Proof.
  intros r Hinv. unfold wp, read_next_char, bind at 1, gets at 1.
  destruct (current_text_iter r) as [[|c rest]|].
  - pose proof (_move_to_next_cell_forward r Hinv) as H. unfold wp in H.
    unfold bind. destruct (_move_to_next_cell r); exact H.
  - cbn. destruct Hinv as (Hs & Hr & Hc).
    repeat split; try assumption; cbn; lia.
  - cbn. split; [exact Hinv | apply forward_refl].
Qed.

Lemma read_image_forward : moves_forward read_image.
Proof.
  intros r Hinv.
  pose proof (_move_to_next_cell_forward r Hinv) as H. unfold wp in H.
  destruct (_move_to_next_cell_eq r) as (r1 & E1 & _). rewrite E1 in H.
  unfold wp, read_image, has_image_content, bind, gets, ret. cbv beta.
  destruct (image_here r) as [[|p]|] eqn:E; cbv beta iota delta [negb];
    rewrite ?E; cbv beta iota; rewrite ?E1; try exact H.
  split; [exact Hinv | apply forward_refl].
Qed.

Lemma move_while_content_forward n : moves_forward (move_while_content n).
Proof.
  induction n as [|n IH]; intros r Hinv; unfold wp;
    cbn [move_while_content];
    unfold bind at 1, has_text_content, bind at 1, gets at 1, ret at 1;
    unfold bind at 1, has_image_content, bind at 1, gets at 1, ret at 1;
    destruct (_ || _);
    try (cbn; split; [exact Hinv | apply forward_refl]).
  pose proof (_move_to_next_cell_forward r Hinv) as H1. unfold wp in H1.
  unfold bind at 1. destruct (_move_to_next_cell r) as [[] r1|e r1];
    [ | exact H1 ].
  destruct H1 as (Hinv1 & F1). unfold bind at 1, gets at 1.
  destruct (Nat.ltb 100 (current_col r1)).
  - pose proof (_move_to_next_row_forward r1 Hinv1) as H2. unfold wp in H2.
    unfold bind at 1. destruct (_move_to_next_row r1) as [[] r2|e r2].
    + destruct H2 as (Hinv2 & F2). specialize (IH r2 Hinv2). unfold wp in IH.
      destruct (move_while_content n r2); destruct IH as (Hi & F);
        (split; [exact Hi |]);
        exact (forward_trans _ _ _ F1 (forward_trans _ _ _ F2 F)).
    + destruct H2 as (Hinv2 & F2). split; [exact Hinv2 |].
      exact (forward_trans _ _ _ F1 F2).
  - unfold bind at 1, ret at 1. specialize (IH r1 Hinv1). unfold wp in IH.
    destruct (move_while_content n r1); destruct IH as (Hi & F);
      (split; [exact Hi |]); exact (forward_trans _ _ _ F1 F).
Qed.

Lemma move_to_next_empty_cell_forward : moves_forward move_to_next_empty_cell.
Proof.
  intros r Hinv. unfold wp, move_to_next_empty_cell, bind at 1, gets at 1.
  exact (move_while_content_forward _ r Hinv).
Qed.

Lemma has_text_content_forward : moves_forward has_text_content.
Proof. intros r Hinv. split; [exact Hinv | apply forward_refl]. Qed.

Lemma has_image_content_forward : moves_forward has_image_content.
Proof. intros r Hinv. split; [exact Hinv | apply forward_refl]. Qed.

Lemma reader_inv_init sh :
  reader_inv (excel_parser.__init__ sh)
  /\ current_row (excel_parser.__init__ sh) = 1
  /\ current_col (excel_parser.__init__ sh) = 1.
Proof. repeat split; cbn; lia. Qed.

(** X12.  The reader never reads column A and never moves back: built
    over any sheet it stands on row 1, column index 1 (cell B1); and each
    of its methods, started on a cell of the sheet that is not in column
    A, ends on such a cell of the same sheet, on a later row or on the
    same row no further left. *)
Theorem reader_moves_forward :
  (forall sh,
      reader_inv (excel_parser.__init__ sh)
      /\ _get_cell_reference (excel_parser.__init__ sh)
         = Ret "B1" (excel_parser.__init__ sh))
  /\ moves_forward read_next_char
  /\ moves_forward read_image
  /\ moves_forward move_to_next_empty_cell
  /\ moves_forward _move_to_next_cell
  /\ moves_forward _move_to_next_row.
Proof.
  split.
  { intros sh. split; [apply reader_inv_init | reflexivity]. }
  exact (conj read_next_char_forward
           (conj read_image_forward
              (conj move_to_next_empty_cell_forward
                 (conj _move_to_next_cell_forward
                    _move_to_next_row_forward)))).
Qed.

Lemma reader_moves_forward_witness :
  wp read_image
     (fun _ r' => reader_inv r' /\ forward (excel_parser.__init__ minimal) r')
     (fun _ r' => reader_inv r' /\ forward (excel_parser.__init__ minimal) r')
     (excel_parser.__init__ minimal).
Proof.
  destruct reader_moves_forward as (_ & _ & H & _).
  apply (H (excel_parser.__init__ minimal)).
  repeat split; cbn; lia.
Defined.

(* ================================================================== *)
(** * Reading the text of a cell                                       *)
(* ================================================================== *)

Lemma _move_to_next_cell_with_iter it r :
  _move_to_next_cell (with_iter it r) = _move_to_next_cell r.
Proof. reflexivity. Qed.

Lemma read_chars_text text :
  forall n r,
    String.length text < n ->
    read_chars n (with_iter (Some text) r)
    = Ret (list_ascii_of_string text) (final (_move_to_next_cell r)).
Proof.
  induction text as [|c text IH]; intros n r Hn;
    (destruct n as [|n]; [cbn in Hn; lia |]); cbn [read_chars].
  - reflexivity.
  - cbn in Hn. unfold bind at 1.
    change (read_next_char (with_iter (Some (String c text)) r))
      with (Ret (S := ExcelReader) (Some c) (with_iter (Some text) r)).
    cbv beta iota. unfold bind at 1. rewrite IH by lia. reflexivity.
Qed.

(** X13.  The characters of a cell: [read_next_char], called until it
    returns None, gives the characters the iterator holds, in order, and
    leaves the reader on the next cell of the row; on a cell just moved to
    whose text is not empty these are the characters of the text followed
    by one blank. *)
Theorem read_next_char_yields_the_text :
  (forall text n r,
      current_text_iter r = Some text ->
      String.length text < n ->
      read_chars n r
      = Ret (list_ascii_of_string text) (final (_move_to_next_cell r)))
  /\ (forall v n r,
        cell_value (cell_at (sheet r) (current_row r) (S (current_col r)))
        = Some v ->
        v <> "" ->
        S (String.length v) < n ->
        (_move_to_next_cell ;; read_chars n) r
        = Ret (list_ascii_of_string v ++ [" "%char])%list
              (final ((_move_to_next_cell ;; _move_to_next_cell) r))).
Proof.
  assert (forall text n r,
             current_text_iter r = Some text ->
             String.length text < n ->
             read_chars n r
             = Ret (list_ascii_of_string text)
                   (final (_move_to_next_cell r))) as Hfirst.
  { intros text n r Hit Hn.
    assert (r = with_iter (Some text) r) as Hr
        by (destruct r; cbn in *; now rewrite Hit).
    rewrite Hr at 1. now apply read_chars_text. }
  split; [exact Hfirst |].
  intros v n r Hv Hne Hn.
  destruct (_move_to_next_cell_eq r) as (r1 & E1 & _).
  rewrite (bind_Ret _ _ _ _ _ E1).
  assert (current_text_iter r1 = Some (v ++ " ")) as Hit.
  { assert (r1 = final (_move_to_next_cell r)) as -> by now rewrite E1.
    cbn. unfold text_iter. rewrite Hv. cbn.
    destruct v; [now contradiction Hne | reflexivity]. }
  assert (String.length (v ++ " ") = S (String.length v)) as Hlen.
  { clear. induction v; cbn; congruence. }
  rewrite (Hfirst _ n r1 Hit) by lia.
  assert (list_ascii_of_string (v ++ " ")
          = (list_ascii_of_string v ++ [" "%char])%list) as ->.
  { clear. induction v; cbn; congruence. }
  f_equal. unfold bind. now rewrite E1.
Qed.

Lemma read_next_char_yields_the_text_witness :
  read_chars 40 (excel_parser.__init__ minimal)
  = Ret (list_ascii_of_string "Nom : Test ; Instrument : Piano . ")
        (final (_move_to_next_cell (excel_parser.__init__ minimal)))
  /\ (_move_to_next_cell ;; read_chars 5)
       (excel_parser.__init__ staff_with_meter)
     = Ret (list_ascii_of_string "3" ++ [" "%char])%list
           (final ((_move_to_next_cell ;; _move_to_next_cell)
                     (excel_parser.__init__ staff_with_meter))).
Proof.
  destruct read_next_char_yields_the_text as (H1 & H2). split.
  - apply (H1 "Nom : Test ; Instrument : Piano . " 40).
    + vm_compute. reflexivity.
    + cbn. lia.
  - apply (H2 "3" 5).
    + vm_compute. reflexivity.
    + discriminate.
    + cbn. lia.
Defined.

(** X14.  [move_to_next_empty_cell] always comes to rest: from any cell
    of the sheet its loop ends, on a cell without text and without
    picture, and on such a cell it does not move at all. *)
Theorem move_to_next_empty_cell_rests :
  (forall r, in_step r ->
             exists r', move_to_next_empty_cell r = Ret tt r' /\ on_blank r')
  /\ (forall r, on_blank r -> move_to_next_empty_cell r = Ret tt r).
Proof.
  split.
  - exact move_to_next_empty_cell_stops.
  - exact move_to_next_empty_cell_blank.
Qed.

Lemma move_to_next_empty_cell_rests_witness :
  exists r',
    move_to_next_empty_cell (excel_parser.__init__ minimal) = Ret tt r'
    /\ on_blank r'.
Proof.
  destruct move_to_next_empty_cell_rests as (H & _).
  apply (H (excel_parser.__init__ minimal)). reflexivity.
Defined.

(* ================================================================== *)
(** * When the token source and [parse] do not return                  *)
(* ================================================================== *)

(** On a cell that has a value but no iterator, as a cell whose text is
    empty, the token source finds text, reads no character and calls
    itself. *)
Lemma _read_next_token_on_empty_text fuel s :
  cell_value (current_cell (excel_reader s)) <> None ->
  current_text_iter (excel_reader s) = None ->
  _read_next_token fuel s = Raise RecursionError s.
Proof.
  intros Hv Hit. induction fuel as [|fuel IH]; cbn [_read_next_token];
    [reflexivity |].
  rewrite (bind_Ret _ _ s true s).
  2:{ rewrite <- (put_excel_reader_same s) at 2. apply on_reader_Ret.
      unfold has_text_content, bind, gets, ret.
      destruct (cell_value (current_cell (excel_reader s)));
        [reflexivity | now contradiction Hv]. }
  unfold _process_text_content.
  rewrite (bind_Ret _ _ s None s); [exact IH |].
  rewrite <- (put_excel_reader_same s) at 2. apply on_reader_Ret.
  unfold read_next_char, bind, gets. now rewrite Hit.
Qed.

Lemma reset_state_fresh sh : music_parser.reset_state (fresh sh)
                             = Ret tt (fresh sh).
Proof. reflexivity. Qed.

Lemma parse_first_read_raises fuel p e s :
  (music_parser.reset_state ;; _read_next_token fuel) p = Raise e s ->
  parse fuel p = Raise e s.
Proof.
  intros H. unfold parse.
  destruct (music_parser.reset_state p) as [[] p0|e0 p0] eqn:E0.
  - rewrite (bind_Ret _ _ _ _ _ E0) in H. rewrite (bind_Ret _ _ _ _ _ E0).
    now rewrite (bind_Raise _ _ _ _ _ H).
  - rewrite (bind_Raise _ _ _ _ _ E0) in H.
    rewrite (bind_Raise _ _ _ _ _ E0). now injection H as <- <-.
Qed.

(** X15.  Where the token source cannot return: on a cell without text
    and without picture, and on a cell whose text is empty, the reader
    does not move and [_read_next_token] calls itself until the
    interpreter raises RecursionError, at any depth allowed; [parse] over
    a sheet whose cell B1 is such a cell raises that error to its caller,
    the first token being read outside its [try]. *)
Theorem token_source_needs_content :
  (forall fuel s,
      on_blank (excel_reader s) ->
      _read_next_token fuel s = Raise RecursionError s)
  /\ (forall fuel s,
        cell_value (current_cell (excel_reader s)) <> None ->
        current_text_iter (excel_reader s) = None ->
        _read_next_token fuel s = Raise RecursionError s)
  /\ (forall fuel sh,
        cell_at sh 1 1 = blank \/ cell_value (cell_at sh 1 1) = Some "" ->
        parse fuel (fresh sh) = Raise RecursionError (fresh sh)).
Proof.
  split; [exact _read_next_token_on_blank |].
  split; [exact _read_next_token_on_empty_text |].
  intros fuel sh Hcell. apply parse_first_read_raises.
  rewrite (bind_Ret _ _ _ _ _ (reset_state_fresh sh)).
  destruct Hcell as [Hb | He].
  - apply _read_next_token_on_blank. unfold on_blank, image_here.
    cbn. change (nth 1 (nth 0 sh []) blank) with (cell_at sh 1 1).
    rewrite Hb. split; reflexivity.
  - apply _read_next_token_on_empty_text; cbn;
      change (nth 1 (nth 0 sh []) blank) with (cell_at sh 1 1).
    + rewrite He. discriminate.
    + unfold text_iter. rewrite He. reflexivity.
Qed.

Lemma token_source_needs_content_witness :
  parse 1000 (fresh [[ blank; blank; text "Nom" ]])
  = Raise RecursionError (fresh [[ blank; blank; text "Nom" ]]).
Proof.
  destruct token_source_needs_content as (_ & _ & H).
  apply (H 1000 [[ blank; blank; text "Nom" ]]). left. reflexivity.
Defined.

(** X16.  What [parse] gives back: when it returns, the truth value is
    the negation of the error flag it leaves; when the grammar raises, it
    returns False with the flag set and a diagnostic made from the
    exception; and it raises only what reading the first token raised. *)
Theorem parse_outcome :
  (forall fuel p b s', parse fuel p = Ret b s' -> b = negb (has_error s'))
  /\ (forall fuel p s1 e s2,
        (music_parser.reset_state ;; _read_next_token fuel) p = Ret tt s1 ->
        _parse_partition fuel s1 = Raise e s2 ->
        parse fuel p
        = Ret false
            (put_error_message
               ("Unexpected error during parsing: " ++ exn_str e)
               (put_has_error true s2)))
  /\ (forall fuel p e s',
        parse fuel p = Raise e s' ->
        (music_parser.reset_state ;; _read_next_token fuel) p = Raise e s').
Proof.
  split; [ | split ].
  - intros fuel p b s' H. unfold parse in H.
    apply bind_Ret_inv in H as ([] & p0 & _ & H).
    apply bind_Ret_inv in H as ([] & p1 & _ & H).
    unfold try_except in H.
    destruct (_parse_partition fuel p1) as [[] s1|e s1] eqn:Hpart.
    + rewrite (bind_Ret _ _ _ _ _ Hpart) in H. cbn in H.
      now injection H as <- <-.
    + rewrite (bind_Raise _ _ _ _ _ Hpart) in H. cbn in H.
      now injection H as <- <-.
  - intros fuel p s1 e s2 Hread Hpart. unfold parse.
    apply bind_Ret_inv in Hread as ([] & p0 & Hreset & Hread).
    rewrite (bind_Ret _ _ _ _ _ Hreset), (bind_Ret _ _ _ _ _ Hread).
    unfold try_except. now rewrite (bind_Raise _ _ _ _ _ Hpart).
  - intros fuel p e s' H. unfold parse in H.
    destruct (music_parser.reset_state p) as [[] p0|e0 p0] eqn:E0.
    + rewrite (bind_Ret _ _ _ _ _ E0) in H. rewrite (bind_Ret _ _ _ _ _ E0).
      destruct (_read_next_token fuel p0) as [[] p1|e1 p1] eqn:E1.
      * rewrite (bind_Ret _ _ _ _ _ E1) in H. exfalso.
        unfold try_except in H.
        destruct (_parse_partition fuel p1) as [[] s1|e2 s1] eqn:Hpart.
        -- rewrite (bind_Ret _ _ _ _ _ Hpart) in H. discriminate H.
        -- rewrite (bind_Raise _ _ _ _ _ Hpart) in H. discriminate H.
      * rewrite (bind_Raise _ _ _ _ _ E1) in H. now injection H as <- <-.
    + rewrite (bind_Raise _ _ _ _ _ E0) in H.
      rewrite (bind_Raise _ _ _ _ _ E0). now injection H as <- <-.
Qed.

Lemma parse_outcome_witness :
  false = negb (has_error (final (parse 12 (fresh minimal)))).
Proof.
  destruct parse_outcome as (H & _).
  apply (H 12 (fresh minimal)). vm_compute. reflexivity.
Defined.

(* ================================================================== *)
(** * What every step of the grammar keeps                             *)
(* ================================================================== *)

Lemma steady_refl s : steady s s.
Proof.
  split; [exists []; now rewrite app_nil_r |].
  split; [exists []; now rewrite app_nil_r |].
  split; [auto |]. split; [auto |].
  intros H. split; [exact H | apply forward_refl].
Qed.

Lemma steady_trans a b c : steady a b -> steady b c -> steady a c.
Proof.
  intros ((fa1 & F1) & (so1 & S1) & E1 & M1 & R1)
         ((fa2 & F2) & (so2 & S2) & E2 & M2 & R2).
  split; [ | split; [ | split; [ | split ] ] ].
  - exists (fa1 ++ fa2)%list. now rewrite F2, F1, app_assoc.
  - exists (so1 ++ so2)%list. now rewrite S2, S1, app_assoc.
  - auto.
  - auto.
  - intros H. destruct (R1 H) as (I1 & W1). destruct (R2 I1) as (I2 & W2).
    split; [exact I2 | exact (forward_trans _ _ _ W1 W2)].
Qed.

(** Single assignments that are steady. *)
Ltac steady_tac :=
  unfold steady, meter_inv; cbn;
  repeat match goal with
         | |- _ /\ _ => split
         | |- exists _, _ = (_ ++ _)%list =>
             first [ exists []; now rewrite app_nil_r
                   | eexists; reflexivity ]
         | |- _ -> _ => intros ?
         end;
  auto using forward_refl; try lia.

Lemma steady_error s msg :
  steady s (put_error_message msg (put_has_error true s)).
Proof. steady_tac. Qed.

Lemma steady_flag s : steady s (put_has_error true s).
Proof. steady_tac. Qed.

Lemma steady_message s msg : steady s (put_error_message msg s).
Proof. steady_tac. Qed.

Lemma steady_fa s e :
  steady s (put_note_tokens_fa (note_tokens_fa s ++ [e]) s).
Proof. steady_tac. Qed.

Lemma steady_sol s e :
  steady s (put_note_tokens_sol (note_tokens_sol s ++ [e]) s).
Proof. steady_tac. Qed.

Lemma steady_token s tok : steady s (put_current_token tok s).
Proof. steady_tac. Qed.

Lemma steady_names s v :
  steady s (put_partition_name v s) /\ steady s (put_instrument_name v s).
Proof. split; steady_tac. Qed.

Lemma steady_count s :
  (0 < meter_controller s)%Z ->
  steady s (put_meter_controller (meter_controller s - 1) s).
Proof. intros H. steady_tac. Qed.

Lemma steady_measure s : steady s (put_meter_controller (meter_value s) s).
Proof. steady_tac. Qed.

Lemma steady_staff s :
  steady s (put_meter_controller (-1) (put_meter_value (-1) s)).
Proof. steady_tac. Qed.

Lemma steady_meter s v tok :
  (0 <= v <= 9)%Z ->
  steady s (put_current_token tok
              (put_meter_controller v (put_meter_value v s))).
Proof. intros H. steady_tac. Qed.

Lemma steady_image_parser s ip : steady s (put_image_parser ip s).
Proof. steady_tac. Qed.

Lemma steady_reader s r :
  (reader_inv (excel_reader s) ->
   reader_inv r /\ forward (excel_reader s) r) ->
  steady s (put_excel_reader r s).
Proof.
  intros H.
  split; [exists []; now rewrite app_nil_r |].
  split; [exists []; now rewrite app_nil_r |].
  split; [auto |]. split; [auto |]. exact H.
Qed.

(** Rules for [carried]. *)
Lemma carried_ret {A} (a : A) : carried (ret a).
Proof. intros s0 s H. exact H. Qed.

Lemma carried_raise {A} e : carried (raise (A := A) e).
Proof. intros s0 s H. exact H. Qed.

Lemma carried_gets {A} (f : MusicNotationParser -> A) : carried (gets f).
Proof. intros s0 s H. exact H. Qed.

Lemma carried_step f : (forall s, steady s (f s)) -> carried (modify f).
Proof. intros Hf s0 s H. exact (steady_trans _ _ _ H (Hf s)). Qed.

Lemma wp_then {A B} (m : P A) (k : A -> P B) s0 s :
  wp m (fun _ s1 => steady s0 s1) (fun _ s1 => steady s0 s1) s ->
  (forall a, carried (k a)) ->
  wp (bind m k) (fun _ s' => steady s0 s') (fun _ s' => steady s0 s') s.
Proof.
  intros Hm Hk. apply wp_bind.
  apply (wp_conseq _ _ _ _ _ _ Hm); [ | auto ].
  intros a s1 H1. now apply Hk.
Qed.

Lemma carried_bind {A B} (m : P A) (k : A -> P B) :
  carried m -> (forall a, carried (k a)) -> carried (bind m k).
Proof. intros Hm Hk s0 s H. apply wp_then; [now apply Hm | exact Hk]. Qed.

Lemma carried_on_reader {A} (m : M ExcelReader A) :
  moves_forward m -> carried (on_reader m).
Proof.
  intros Hm s0 s H. unfold wp, on_reader, within.
  specialize (Hm (excel_reader s)). unfold wp in Hm.
  destruct (m (excel_reader s));
    exact (steady_trans _ _ _ H (steady_reader _ _ Hm)).
Qed.

Lemma carried_on_image_parser {A} (m : M NotationImageParser A) :
  carried (on_image_parser m).
Proof.
  intros s0 s H. unfold wp, on_image_parser, within.
  destruct (m (image_parser s));
    exact (steady_trans _ _ _ H (steady_image_parser _ _)).
Qed.

Lemma carried_final {A} (m : P A) s : carried m -> steady s (final (m s)).
Proof.
  intros Hm. apply wp_final with (Q := steady s).
  apply Hm, steady_refl.
Qed.

Ltac carried_tac :=
  repeat first
    [ assumption
    | match goal with
      | |- carried (ret _) => apply carried_ret
      | |- carried (raise _) => apply carried_raise
      | |- carried (gets _) => apply carried_gets
      | H : forall n, carried (?f n) |- carried (?f _) => apply H
      | H : forall a b c, carried (?f a b c)
        |- carried (?f _ _ _) => apply H
      | H : carried ?m |- carried ?m => exact H
      | |- carried (on_reader _) =>
          apply carried_on_reader;
          first [ apply read_next_char_forward | apply read_image_forward
                | apply move_to_next_empty_cell_forward
                | apply has_text_content_forward
                | apply has_image_content_forward ]
      | |- carried (on_image_parser _) => apply carried_on_image_parser
      | |- carried (bind _ _) => apply carried_bind; [ | intros ? ]
      | |- carried (if ?b then _ else _) => destruct b
      | |- carried (match ?x with _ => _ end) => destruct x
      end ].

(** The lexer. *)
Lemma carried_while_isspace n : forall c, carried (while_isspace n c).
Proof.
  induction n as [|n IH]; intros c; cbn [while_isspace]; carried_tac.
Qed.

Lemma carried_while_alnum n : forall kw next, carried (while_alnum n kw next).
Proof.
  induction n as [|n IH]; intros kw next; cbn [while_alnum]; carried_tac.
  apply IH.
Qed.

Lemma carried_set_token tok : carried (set_current_token tok).
Proof. apply carried_step. intros s. apply steady_token. Qed.

(** A digit sets the meter and the counter to its value, from 0 to 9. *)
Lemma carried_digit c :
  carried (value <- int_of_char c ;;
           set_meter_value value ;;
           set_meter_controller value ;;
           set_current_token (Some (text_token TokenType.METER (VInt value)))).
Proof.
  intros s0 s H. unfold wp, int_of_char, bind.
  destruct (between 48 57 (ord c)) eqn:E; [ | exact H ].
  cbn. apply (steady_trans _ _ _ H), steady_meter.
  unfold between in E. apply andb_true_iff in E as [E1 E2].
  apply Nat.leb_le in E1, E2. lia.
Qed.

Section token_source_steady.
Variable rd : P unit.
Hypothesis rd_carried : carried rd.

Lemma carried_process_text_content : carried (_process_text_content rd).
Proof.
  pose proof carried_while_isspace as Hsp.
  pose proof carried_while_alnum as Hal.
  pose proof carried_set_token as Htok.
  unfold _process_text_content, chars_left.
  apply carried_bind; [carried_tac | intros [c|]; [ | exact rd_carried ] ].
  apply carried_bind; [carried_tac | intros n ].
  apply carried_bind; [apply Hsp | intros [c'|]; [ | exact rd_carried ] ].
  repeat match goal with
         | |- carried (if Ascii.eqb ?x ?y then _ else _) =>
             destruct (Ascii.eqb x y); [apply Htok |]
         end.
  destruct (isdigit c'); [apply carried_digit |].
  destruct (isalpha c'); [ | apply Htok ].
  carried_tac; apply Htok.
Qed.

Lemma carried_process_image_content : carried (_process_image_content rd).
Proof.
  pose proof carried_set_token as Htok.
  unfold _process_image_content. carried_tac; apply Htok.
Qed.
End token_source_steady.

Lemma carried_read fuel : carried (_read_next_token fuel).
Proof.
  induction fuel as [|fuel IH]; cbn [_read_next_token];
    [apply carried_raise |].
  pose proof (carried_process_text_content _ IH).
  pose proof (carried_process_image_content _ IH).
  carried_tac.
Qed.

(** The productions. *)
Lemma carried_the_token : carried the_token.
Proof. unfold the_token. carried_tac. Qed.

Lemma carried_error ctx : carried (_error ctx).
Proof.
  unfold _error, set_has_error, set_error_message.
  apply carried_bind; [apply carried_step; intros s; apply steady_flag |].
  intros _. apply carried_bind; [apply carried_gets | intros tok].
  apply carried_step. intros s. apply steady_message.
Qed.

Lemma carried_expect fuel ty ctx : carried (_expect fuel ty ctx).
Proof.
  pose proof carried_the_token. pose proof carried_error.
  pose proof carried_read. unfold _expect. carried_tac.
Qed.

Lemma carried_parse_note_height : carried _parse_note_height.
Proof.
  intros s0 s H. unfold _parse_note_height, the_token,
    set_note_tokens_fa, set_note_tokens_sol.
  apply wp_bind, wp_bind, wp_gets.
  destruct (current_token s) as [tok|]; [apply wp_ret | exact H].
  destruct (TokenType.eqb (Token.type tok) TokenType.NOTE);
    [ | now apply carried_error ].
  destruct (truthy (Token.value tok)); [ | exact H ].
  destruct (Token.value tok) as [|payload|n]; [ | | exact H ];
    apply wp_bind, wp_gets;
    match goal with
    | |- context [if ?b then _ else _] => destruct b
    end;
    apply wp_bind, wp_gets, wp_modify;
    first [ exact (steady_trans _ _ _ H (steady_fa _ _))
          | exact (steady_trans _ _ _ H (steady_sol _ _)) ].
Qed.

Lemma carried_parse_silence : carried _parse_silence.
Proof.
  intros s0 s H. unfold _parse_silence, the_token,
    set_note_tokens_fa, set_note_tokens_sol.
  apply wp_bind, wp_bind, wp_gets.
  destruct (current_token s) as [tok|]; [apply wp_ret | exact H].
  cbv zeta.
  destruct (ClefType.eqb (Token.clef tok) ClefType.FA);
    apply wp_bind, wp_gets, wp_modify;
    first [ exact (steady_trans _ _ _ H (steady_fa _ _))
          | exact (steady_trans _ _ _ H (steady_sol _ _)) ].
Qed.

Lemma carried_parse_symbol fuel : carried (_parse_symbol fuel).
Proof.
  pose proof carried_the_token. pose proof carried_error.
  pose proof carried_read. pose proof carried_parse_note_height.
  pose proof carried_parse_silence.
  intros s0 s Hs. unfold _parse_symbol.
  apply wp_bind, wp_gets. apply wp_then.
  - destruct (0 <? meter_controller s)%Z eqn:E; [ | exact Hs ].
    apply Z.ltb_lt in E.
    exact (steady_trans _ _ _ Hs (steady_count _ E)).
  - intros _. unfold _parse_note, _parse_alteration. carried_tac.
Qed.

Lemma carried_parse_additional_symbols fuel :
  carried (_parse_additional_symbols fuel).
Proof.
  pose proof carried_the_token. pose proof carried_error.
  pose proof carried_parse_symbol.
  induction fuel as [|fuel IH]; cbn [_parse_additional_symbols]; carried_tac.
Qed.

Lemma carried_parse_measure fuel : carried (_parse_measure fuel).
Proof.
  pose proof carried_parse_symbol. pose proof carried_parse_additional_symbols.
  unfold _parse_measure, _parse_symbols.
  apply carried_bind; [carried_tac | intros _].
  intros s0 s Hs. apply wp_bind, wp_gets, wp_bind, wp_gets.
  destruct (_ && _); [ | exact Hs ].
  exact (steady_trans _ _ _ Hs (steady_measure _)).
Qed.

Lemma carried_parse_additional_measures fuel :
  carried (_parse_additional_measures fuel).
Proof.
  pose proof carried_the_token. pose proof carried_error.
  pose proof carried_read. pose proof carried_parse_measure.
  induction fuel as [|fuel IH]; cbn [_parse_additional_measures];
    carried_tac.
Qed.

Lemma carried_parse_staff fuel : carried (_parse_staff fuel).
Proof.
  pose proof carried_the_token. pose proof carried_error.
  pose proof carried_read. pose proof carried_parse_measure.
  pose proof carried_parse_additional_measures. pose proof carried_expect.
  unfold _parse_staff, _parse_meter, _parse_measures. carried_tac.
Qed.

Lemma carried_parse_multiple_staffs fuel :
  carried (_parse_multiple_staffs fuel).
Proof.
  pose proof carried_the_token. pose proof carried_error.
  pose proof carried_parse_staff.
  induction fuel as [|fuel IH]; cbn [_parse_multiple_staffs];
    [apply carried_raise |].
  apply carried_bind; [carried_tac | intros tok].
  destruct (TokenType.eqb _ _); [apply carried_ret |].
  destruct (TokenType.mem _ _); [ | carried_tac ].
  apply carried_bind; [carried_tac | intros _].
  intros s0 s Hs.
  apply (IH s0 (put_meter_controller (-1) (put_meter_value (-1) s))).
  exact (steady_trans _ _ _ Hs (steady_staff _)).
Qed.

Lemma carried_parse_partition fuel : carried (_parse_partition fuel).
Proof.
  pose proof carried_the_token. pose proof carried_expect.
  pose proof carried_parse_multiple_staffs.
  assert (forall v, carried (set_partition_name v)) as Hp
      by (intros v; apply carried_step; intros s; apply steady_names).
  assert (forall v, carried (set_instrument_name v)) as Hi
      by (intros v; apply carried_step; intros s; apply steady_names).
  unfold _parse_partition. carried_tac.
Qed.

(** After [reset_state], [parse] is steady; the reader is not reset. *)
Lemma parse_steady fuel p :
  exists p0,
    music_parser.reset_state p = Ret tt p0
    /\ excel_reader p0 = excel_reader p
    /\ meter_value p0 = (-1)%Z /\ meter_controller p0 = (-1)%Z
    /\ steady p0 (final (parse fuel p)).
Proof.
  exists (final (music_parser.reset_state p)).
  assert (music_parser.reset_state p
          = Ret tt (final (music_parser.reset_state p))) as E by reflexivity.
  split; [exact E |]. split; [reflexivity |].
  split; [reflexivity |]. split; [reflexivity |].
  unfold parse. rewrite (bind_Ret _ _ _ _ _ E).
  apply carried_final.
  pose proof carried_read. pose proof carried_parse_partition.
  apply carried_bind; [carried_tac | intros _].
  intros s0 s Hs. unfold wp, try_except.
  pose proof (carried_bind _ (fun _ => err <- gets has_error ;; ret (negb err))
                (carried_parse_partition fuel)
                (fun _ => carried_bind _ _ (carried_gets _)
                            (fun _ => carried_ret _)) s0 s Hs) as Hbody.
  unfold wp in Hbody.
  destruct ((_parse_partition fuel ;; err <- gets has_error ;; ret (negb err)) s)
    as [b s1|e s1]; [exact Hbody |].
  cbn. exact (steady_trans _ _ _ Hbody (steady_error _ _)).
Qed.

Lemma steady_grown s s' : steady s s' -> grown s s'.
Proof. intros (F & S & E & _). now repeat split. Qed.

(** X17.  The grammar only appends and never clears the error flag:
    whatever the tokens, and whether a production returns or raises, the
    two sequences it leaves are the ones it found with entries added at the
    end, and an error flag that was set stays set. *)
Theorem sequences_only_grow :
  forall fuel s,
    grown s (final (_read_next_token fuel s))
    /\ grown s (final (_parse_symbol fuel s))
    /\ grown s (final (_parse_measure fuel s))
    /\ grown s (final (_parse_staff fuel s))
    /\ grown s (final (_parse_multiple_staffs fuel s))
    /\ grown s (final (_parse_partition fuel s)).
Proof.
  intros fuel s.
  repeat match goal with |- _ /\ _ => split end;
    apply steady_grown, carried_final;
    [ apply carried_read | apply carried_parse_symbol
    | apply carried_parse_measure | apply carried_parse_staff
    | apply carried_parse_multiple_staffs | apply carried_parse_partition ].
Qed.

(** X18.  The meter attributes stay in range: every production started
    with the counter between -1 and the meter and the meter at most 9
    leaves them so, returning or raising; and [parse] leaves them so from
    any state. *)
Theorem meter_stays_in_range :
  (forall fuel s,
      meter_inv s ->
      meter_inv (final (_read_next_token fuel s))
      /\ meter_inv (final (_parse_symbol fuel s))
      /\ meter_inv (final (_parse_measure fuel s))
      /\ meter_inv (final (_parse_multiple_staffs fuel s))
      /\ meter_inv (final (_parse_partition fuel s)))
  /\ (forall fuel p, meter_inv (final (parse fuel p))).
Proof.
  split.
  - intros fuel s Hinv.
    repeat match goal with |- _ /\ _ => split end;
      [ pose proof (carried_final _ s (carried_read fuel)) as H
      | pose proof (carried_final _ s (carried_parse_symbol fuel)) as H
      | pose proof (carried_final _ s (carried_parse_measure fuel)) as H
      | pose proof (carried_final _ s (carried_parse_multiple_staffs fuel))
          as H
      | pose proof (carried_final _ s (carried_parse_partition fuel)) as H ];
      destruct H as (_ & _ & _ & Hm & _); exact (Hm Hinv).
  - intros fuel p.
    destruct (parse_steady fuel p) as (p0 & _ & _ & Hv & Hc & Hst).
    destruct Hst as (_ & _ & _ & Hm & _). apply Hm.
    unfold meter_inv. rewrite Hv, Hc. lia.
Qed.

Lemma meter_stays_in_range_witness :
  meter_inv (final (_parse_measure 5 at_first_symbol)).
Proof.
  destruct meter_stays_in_range as (H & _).
  apply (H 5 at_first_symbol). unfold meter_inv. vm_compute.
  repeat split; discriminate.
Defined.

(** X19.  The parser never reads column A and never goes back over the
    sheet: reading a token, the grammar and [parse], started with the
    reader on a cell of the sheet outside column A, leave it on such a
    cell of the same sheet, on a later row or on the same row no further
    left, whether they return or raise. *)
Theorem parser_reads_forward :
  (forall fuel s,
      reader_inv (excel_reader s) ->
      read_on s (final (_read_next_token fuel s))
      /\ read_on s (final (_parse_partition fuel s))
      /\ read_on s (final (parse fuel s)))
  /\ (forall fuel sh, read_on (fresh sh) (final (parse fuel (fresh sh)))).
Proof.
  assert (forall fuel s, reader_inv (excel_reader s) ->
                         read_on s (final (parse fuel s))) as Hparse.
  { intros fuel s Hinv.
    destruct (parse_steady fuel s) as (p0 & _ & Hr & _ & _ & Hst).
    destruct Hst as (_ & _ & _ & _ & Hrd). rewrite Hr in Hrd.
    exact (Hrd Hinv). }
  split.
  - intros fuel s Hinv.
    split; [ | split; [ | now apply Hparse ] ].
    + destruct (carried_final _ s (carried_read fuel))
        as (_ & _ & _ & _ & H). exact (H Hinv).
    + destruct (carried_final _ s (carried_parse_partition fuel))
        as (_ & _ & _ & _ & H). exact (H Hinv).
  - intros fuel sh. apply Hparse. apply reader_inv_init.
Qed.

Lemma parser_reads_forward_witness :
  read_on (fresh minimal) (final (_read_next_token 5 (fresh minimal))).
Proof.
  destruct parser_reads_forward as (H & _).
  apply (H 5 (fresh minimal)). apply reader_inv_init.
Defined.

(* ================================================================== *)
(** * Where a parse without error ends                                 *)
(* ================================================================== *)





(* ================================================================== *)
(** * A picture with the hash of a reference image                     *)
(* ================================================================== *)

Lemma count_nonzero_same h : count_nonzero h h = 0.
Proof.
  induction h as [|b h IH]; [reflexivity |]. cbn.
  rewrite IH. now destruct b.
Qed.

Lemma count_nonzero_zero h1 :
  forall h2,
    List.length h1 = List.length h2 -> count_nonzero h1 h2 = 0 -> h1 = h2.
Proof.
  induction h1 as [|b1 h1 IH]; intros [|b2 h2] Hlen Hc;
    try discriminate Hlen; [reflexivity |].
  cbn in Hlen, Hc. injection Hlen as Hlen.
  destruct b1, b2; cbn in Hc; try discriminate Hc;
    f_equal; now apply IH.
Qed.

Lemma sub_zero h1 h2 : sub h1 h2 = Some 0 <-> h1 = h2.
Proof.
  unfold sub. split.
  - destruct (Nat.eqb_spec (List.length h1) (List.length h2)) as [Hl|Hl];
      [ | discriminate ].
    intros [= Hc]. now apply count_nonzero_zero.
  - intros <-. rewrite Nat.eqb_refl. now rewrite count_nonzero_same.
Qed.

(** X21.  A picture that has the hash of a reference image is matched to
    a reference image with that very hash, as long as every hash in the
    directory has the size of the picture's: the match may be another
    name than the one expected only if it has the same hash. *)
Theorem exact_picture_is_recognised :
  forall input dir refs name,
    In name refs ->
    dir name = Hashed input ->
    ~ some_misfit input dir refs ->
    exists found,
      find_closest_match (Some input) dir refs = Some found
      /\ dir found = Hashed input.
Proof.
  intros input dir refs name Hin Hname Hfit.
  destruct (find_closest_match (Some input) dir refs) as [found|] eqn:E.
  - exists found. split; [reflexivity |].
    destruct (find_closest_match_first _ _ _ _ E)
      as (input' & pre & post & d & [= <-] & -> & Hd & Hpre & Hpost).
    assert (distance input dir name = Some 0) as Hzero.
    { unfold distance. rewrite Hname. now apply sub_zero. }
    assert (d = 0) as ->.
    { apply in_app_or in Hin as [Hin | [<- | Hin]].
      - specialize (Hpre _ _ Hin Hzero). lia.
      - congruence.
      - specialize (Hpost _ _ Hin Hzero). lia. }
    unfold distance in Hd. destruct (dir found) as [| |h]; try discriminate Hd.
    apply sub_zero in Hd. now subst h.
  - exfalso. unfold find_closest_match in E.
    assert (scan_state [] None) as Hst by (split; reflexivity).
    destruct (scan input dir refs [] None) as [[ci' cd']|] eqn:Es.
    + destruct ci' as [|first rest]; [ | discriminate E ].
      apply (scan_nonempty _ _ _ _ _ _ _ Hst Es); [ | reflexivity ].
      right. now exists name, input.
    + apply Hfit. now apply (scan_None input dir refs [] None).
Qed.

Lemma exact_picture_is_recognised_witness :
  exists found,
    find_closest_match (Some snapshot) shelf
      [ "Note_H1.JPG"; "Note_H2.JPG"; "Note_H3.JPG" ] = Some found
    /\ shelf found = Hashed snapshot.
Proof.
  apply (exact_picture_is_recognised snapshot shelf _ "Note_H3.JPG").
  - cbn. auto.
  - reflexivity.
  - intros (name & h & Hin & Hd & Hs). cbn in Hin.
    destruct Hin as [<-|[<-|[<-|[]]]]; injection Hd as <-; discriminate Hs.
Defined.

(* ================================================================== *)
(** * Lexing the text of a cell                                        *)
(* ================================================================== *)

Lemma alpha_apart c :
  isalpha c = true ->
  isspace c = false /\ isdigit c = false
  /\ Ascii.eqb c ":" = false /\ Ascii.eqb c "." = false
  /\ Ascii.eqb c ";" = false.
Proof.
  destruct c as [[] [] [] [] [] [] [] []]; vm_compute; intros H;
    first [discriminate H | repeat split; reflexivity].
Qed.

Lemma digit_apart c :
  isdigit c = true ->
  isspace c = false
  /\ Ascii.eqb c ":" = false /\ Ascii.eqb c "." = false
  /\ Ascii.eqb c ";" = false.
Proof.
  destruct c as [[] [] [] [] [] [] [] []]; vm_compute; intros H;
    first [discriminate H | repeat split; reflexivity].
Qed.

Lemma advance_same s rest :
  current_text_iter (excel_reader s) = Some rest -> advance rest s = s.
Proof.
  destruct s as [[sh cc it row col] ip tk he em pn inn mv mc fa sol].
  cbn. now intros ->.
Qed.

Lemma advance_advance a b s : advance a (advance b s) = advance a s.
Proof. reflexivity. Qed.

Lemma advance_iter rest s :
  current_text_iter (excel_reader (advance rest s)) = Some rest.
Proof. reflexivity. Qed.

Lemma read_char_advance s c rest :
  current_text_iter (excel_reader s) = Some (String c rest) ->
  on_reader read_next_char s = Ret (Some c) (advance rest s).
Proof.
  intros Hit. apply on_reader_Ret.
  unfold read_next_char, bind at 1, gets at 1. now rewrite Hit.
Qed.

Lemma has_text_content_true s :
  has_text s -> on_reader has_text_content s = Ret true s.
Proof.
  intros Hv. rewrite <- (put_excel_reader_same s) at 2. apply on_reader_Ret.
  unfold has_text_content, bind, gets, ret. unfold has_text in Hv.
  destruct (cell_value (current_cell (excel_reader s)));
    [reflexivity | now contradiction Hv].
Qed.

Lemma chars_left_eq s text :
  current_text_iter (excel_reader s) = Some text ->
  chars_left s = Ret (S (String.length text)) s.
Proof. intros Hit. unfold chars_left, bind, gets, ret. now rewrite Hit. Qed.

Lemma append_empty s : s ++ "" = s.
Proof. induction s; cbn; congruence. Qed.

Lemma append_assoc a b c : (a ++ b) ++ c = a ++ (b ++ c).
Proof. induction a; cbn; congruence. Qed.

Lemma length_append a b :
  String.length (a ++ b) = String.length a + String.length b.
Proof. induction a; cbn; congruence. Qed.

(** The loop that gathers a keyword takes the characters of the word and
    the character that ends it. *)
Lemma while_alnum_word w :
  forall kw n s x t d rest,
    String x t = w ++ String d rest ->
    alnums w = true -> isalnum d = false ->
    current_text_iter (excel_reader s) = Some t ->
    String.length t < n ->
    while_alnum n kw (Some x) s = Ret (kw ++ w) (advance rest s).
Proof.
  induction w as [|a w IH]; intros kw n s x t d rest Hst Hw Hd Hit Hn;
    (destruct n as [|n]; [lia |]); cbn in Hst; injection Hst as -> ->;
    cbn [while_alnum].
  - change (isalpha d || isdigit d) with (isalnum d). rewrite Hd.
    now rewrite append_empty, (advance_same _ _ Hit).
  - cbn in Hw. apply andb_true_iff in Hw as [Ha Hw].
    change (isalpha a || isdigit a) with (isalnum a). rewrite Ha.
    destruct (w ++ String d rest) as [|x' t'] eqn:Est.
    { destruct w; discriminate Est. }
    rewrite (bind_Ret _ _ _ _ _ (read_char_advance _ _ _ Hit)).
    cbn in Hn.
    rewrite (IH (kw ++ String a "") n (advance t' s) x' t' d rest);
      auto; [ | lia ].
    now rewrite append_assoc.
Qed.

(** The loop that skips white space stops on the first character that is
    none. *)
Lemma while_isspace_skips ws :
  forall c n s x t,
    isspace c = true -> spaces ws = true -> isspace x = false ->
    current_text_iter (excel_reader s) = Some (ws ++ String x t) ->
    String.length (ws ++ String x t) < n ->
    while_isspace n c s = Ret (Some x) (advance t s).
Proof.
  induction ws as [|c' ws IH]; intros c n s x t Hc Hws Hx Hit Hn;
    (destruct n as [|n]; [lia |]); cbn [while_isspace]; rewrite Hc;
    cbn in Hit, Hn; rewrite (bind_Ret _ _ _ _ _ (read_char_advance _ _ _ Hit)).
  - destruct n as [|n]; cbn [while_isspace]; now rewrite Hx.
  - cbn in Hws. apply andb_true_iff in Hws as [Hc' Hws].
    destruct n as [|n]; [lia |].
    rewrite (IH c' (S n) (advance (ws ++ String x t) s) x t); auto. lia.
Qed.

Lemma keyword_chain kw :
  (if String.eqb kw "Nom" then
     set_current_token (Some (text_token TokenType.NAME VNone))
   else if String.eqb kw "Instrument" then
     set_current_token (Some (text_token TokenType.INSTRUMENT VNone))
   else if String.eqb kw "FIN" then
     set_current_token (Some (text_token TokenType.END_OF_PARTITION VNone))
   else set_current_token (Some (text_token TokenType.IDENTIFIER (VStr kw))))
  = set_current_token (Some (keyword_token kw)).
Proof.
  unfold keyword_token.
  destruct (String.eqb kw "Nom"); [reflexivity |].
  destruct (String.eqb kw "Instrument"); [reflexivity |].
  now destruct (String.eqb kw "FIN").
Qed.

(** X22.  A word takes the character that ends it: on a text cell whose
    iterator holds a letter, then letters and digits, then a character
    that is neither, [_read_next_token] gives the keyword or the
    identifier of the word and leaves the iterator after the ending
    character, which is lost whatever it is, a colon for one. *)
Theorem word_swallows_its_delimiter :
  forall fuel s c w d rest,
    has_text s ->
    current_text_iter (excel_reader s)
    = Some (String c (w ++ String d rest)) ->
    isalpha c = true -> alnums w = true -> isalnum d = false ->
    _read_next_token (S fuel) s
    = Ret tt (put_current_token (Some (keyword_token (String c w)))
                (advance rest s)).
Proof.
  intros fuel s c w d rest Hv Hit Hc Hw Hd.
  destruct (alpha_apart c Hc) as (Hsp & Hdg & H1 & H2 & H3).
  cbn [_read_next_token].
  rewrite (bind_Ret _ _ _ _ _ (has_text_content_true s Hv)).
  unfold _process_text_content.
  rewrite (bind_Ret _ _ _ _ _ (read_char_advance _ _ _ Hit)).
  rewrite (bind_Ret _ _ _ _ _ (chars_left_eq _ _ (advance_iter _ s))).
  rewrite (bind_Ret _ _ (advance (w ++ String d rest) s) (Some c)
             (advance (w ++ String d rest) s)).
  2:{ cbn [while_isspace]. now rewrite Hsp. }
  rewrite H1, H2, H3, Hdg, Hc.
  destruct (w ++ String d rest) as [|x t] eqn:Est.
  { destruct w; discriminate Est. }
  rewrite (bind_Ret _ _ _ _ _ (read_char_advance _ _ _ (advance_iter _ s))).
  rewrite (bind_Ret _ _ _ _ _ (chars_left_eq _ _ (advance_iter _ _))).
  rewrite (bind_Ret _ _ _ _ _
             (while_alnum_word w (String c "") _ (advance t (advance (String x t) s))
                x t d rest (eq_sym Est) Hw Hd (advance_iter _ _)
                (Nat.lt_succ_diag_r _))).
  cbn [append]. rewrite keyword_chain. reflexivity.
Qed.

Lemma word_swallows_its_delimiter_witness :
  _read_next_token 1 (fresh [[ blank; text "Nom:Test" ]])
  = Ret tt (put_current_token (Some (keyword_token "Nom"))
              (advance "Test " (fresh [[ blank; text "Nom:Test" ]]))).
Proof.
  apply (word_swallows_its_delimiter 0 _ "N" "om" ":" "Test ").
  - discriminate.
  - reflexivity.
  - reflexivity.
  - reflexivity.
  - reflexivity.
Defined.

(** X23.  A digit is a meter of its own: on a text cell whose iterator
    holds a character that [isdigit] accepts, [_read_next_token] reads
    that one character only; for a decimal digit it gives a METER token
    with the value of the digit and sets the meter and its counter to it;
    for another digit, a superscript, it raises ValueError with the
    character read and nothing else changed. *)
Theorem digit_is_a_meter :
  forall fuel s c rest,
    has_text s ->
    current_text_iter (excel_reader s) = Some (String c rest) ->
    isdigit c = true ->
    (between 48 57 (ord c) = true ->
     let v := Z.of_nat (ord c - 48) in
     _read_next_token (S fuel) s
     = Ret tt (put_current_token
                 (Some (text_token TokenType.METER (VInt v)))
                 (put_meter_controller v
                    (put_meter_value v (advance rest s)))))
    /\ (between 48 57 (ord c) = false ->
        _read_next_token (S fuel) s
        = Raise (ValueError ("invalid literal for int() with base 10: '"
                             ++ String c "" ++ "'"))
                (advance rest s)).
Proof.
  intros fuel s c rest Hv Hit Hc.
  destruct (digit_apart c Hc) as (Hsp & H1 & H2 & H3).
  assert (Hgo : _read_next_token (S fuel) s
                = (value <- int_of_char c ;;
                   set_meter_value value ;;
                   set_meter_controller value ;;
                   set_current_token
                     (Some (text_token TokenType.METER (VInt value))))
                    (advance rest s)).
  { cbn [_read_next_token].
    rewrite (bind_Ret _ _ _ _ _ (has_text_content_true s Hv)).
    unfold _process_text_content.
    rewrite (bind_Ret _ _ _ _ _ (read_char_advance _ _ _ Hit)).
    rewrite (bind_Ret _ _ _ _ _ (chars_left_eq _ _ (advance_iter _ s))).
    rewrite (bind_Ret _ _ (advance rest s) (Some c) (advance rest s)).
    2:{ cbn [while_isspace]. now rewrite Hsp. }
    now rewrite H1, H2, H3, Hc. }
  split; intros Hb; rewrite Hgo; unfold int_of_char, bind at 1;
    rewrite Hb; reflexivity.
Qed.

Lemma digit_is_a_meter_witness :
  _read_next_token 1 (fresh [[ blank; text "34" ]])
  = Ret tt (put_current_token
              (Some (text_token TokenType.METER (VInt 3)))
              (put_meter_controller 3
                 (put_meter_value 3
                    (advance "4 " (fresh [[ blank; text "34" ]]))))).
Proof.
  destruct (digit_is_a_meter 0 (fresh [[ blank; text "34" ]]) "3" "4 ")
    as (H & _).
  - discriminate.
  - reflexivity.
  - reflexivity.
  - apply H. reflexivity.
Defined.

(** X24.  White space before a token does not count: on a text cell
    whose iterator holds white space and then a character that is none,
    [_read_next_token] does what it does with the white space taken
    away. *)
Theorem leading_space_is_skipped :
  forall fuel s ws x t,
    has_text s ->
    current_text_iter (excel_reader s) = Some (ws ++ String x t) ->
    spaces ws = true -> isspace x = false ->
    _read_next_token (S fuel) s
    = _read_next_token (S fuel) (advance (String x t) s).
Proof.
  intros fuel s ws x t Hv Hit Hws Hx.
  destruct ws as [|c ws];
    [cbn in Hit; now rewrite (advance_same _ _ Hit) |].
  cbn in Hws. apply andb_true_iff in Hws as [Hc Hws].
  cbn [_read_next_token].
  rewrite (bind_Ret _ _ _ _ _ (has_text_content_true s Hv)).
  rewrite (bind_Ret _ _ _ _ _
             (has_text_content_true (advance (String x t) s) Hv)).
  unfold _process_text_content.
  rewrite (bind_Ret _ _ _ _ _ (read_char_advance _ _ _ Hit)).
  rewrite (bind_Ret _ _ _ _ _ (chars_left_eq _ _ (advance_iter _ s))).
  rewrite (bind_Ret _ _ _ _ _
             (while_isspace_skips ws c _ (advance (ws ++ String x t) s) x t
                Hc Hws Hx (advance_iter _ _) (Nat.lt_succ_diag_r _))).
  rewrite (bind_Ret _ _ _ _ _
             (read_char_advance (advance (String x t) s) x t
                (advance_iter _ _))).
  rewrite (bind_Ret _ _ _ _ _ (chars_left_eq _ _ (advance_iter _ _))).
  rewrite (bind_Ret _ _ (advance t (advance (String x t) s)) (Some x)
             (advance t (advance (String x t) s))).
  2:{ cbn [while_isspace]. now rewrite Hx. }
  reflexivity.
Qed.

Lemma leading_space_is_skipped_witness :
  _read_next_token 1 (fresh [[ blank; text "  ; x" ]])
  = _read_next_token 1 (advance "; x " (fresh [[ blank; text "  ; x" ]])).
Proof.
  apply (leading_space_is_skipped 0 _ "  " ";" " x ").
  - discriminate.
  - reflexivity.
  - reflexivity.
  - reflexivity.
Defined.

(** X25.  A character that is no white space, no digit and no letter is
    a token of its own: [_read_next_token] reads that one character and
    gives COLON, PERIOD or SEMICOLON for the three marks and, for any
    other, an UNKNOWN token that carries the character. *)
Theorem mark_is_a_token :
  forall fuel s c rest,
    has_text s ->
    current_text_iter (excel_reader s) = Some (String c rest) ->
    isspace c = false -> isdigit c = false -> isalpha c = false ->
    _read_next_token (S fuel) s
    = Ret tt (put_current_token (Some (mark_token c)) (advance rest s)).
Proof.
  intros fuel s c rest Hv Hit Hsp Hdg Hal. cbn [_read_next_token].
  rewrite (bind_Ret _ _ _ _ _ (has_text_content_true s Hv)).
  unfold _process_text_content.
  rewrite (bind_Ret _ _ _ _ _ (read_char_advance _ _ _ Hit)).
  rewrite (bind_Ret _ _ _ _ _ (chars_left_eq _ _ (advance_iter _ s))).
  rewrite (bind_Ret _ _ (advance rest s) (Some c) (advance rest s)).
  2:{ cbn [while_isspace]. now rewrite Hsp. }
  unfold mark_token.
  destruct (Ascii.eqb c ":"); [reflexivity |].
  destruct (Ascii.eqb c "."); [reflexivity |].
  destruct (Ascii.eqb c ";"); [reflexivity |].
  now rewrite Hdg, Hal.
Qed.

Lemma mark_is_a_token_witness :
  _read_next_token 1 (fresh [[ blank; text ",x" ]])
  = Ret tt (put_current_token (Some (mark_token ","))
              (advance "x " (fresh [[ blank; text ",x" ]]))).
Proof.
  apply (mark_is_a_token 0 _ "," "x ").
  - discriminate.
  - reflexivity.
  - reflexivity.
  - reflexivity.
  - reflexivity.
Defined.

Lemma while_isspace_runs_out ws :
  forall c n s,
    isspace c = true -> spaces ws = true ->
    current_text_iter (excel_reader s) = Some ws ->
    String.length ws < n ->
    while_isspace n c s = Ret None (moved s).
Proof.
  induction ws as [|c' ws IH]; intros c n s Hc Hws Hit Hn;
    (destruct n as [|n]; [cbn in Hn; lia |]); cbn [while_isspace];
    rewrite Hc.
  - assert (on_reader read_next_char s = Ret None (moved s)) as E.
    { apply on_reader_Ret. unfold read_next_char, bind at 1, gets at 1.
      rewrite Hit.
      destruct (_move_to_next_cell_returns (excel_reader s)) as ([] & r & E).
      now rewrite (bind_Ret _ _ _ _ _ E), E. }
    now rewrite (bind_Ret _ _ _ _ _ E).
  - cbn in Hws, Hn. apply andb_true_iff in Hws as [Hc' Hws].
    rewrite (bind_Ret _ _ _ _ _ (read_char_advance _ _ _ Hit)).
    destruct n as [|n]; [lia |].
    rewrite (IH c' (S n) (advance ws s) Hc' Hws (advance_iter _ _));
      [reflexivity | lia].
Qed.

(** X26.  At the end of the text of a cell the token is sought in the
    next cell: on a text cell whose iterator holds nothing but white
    space, as after the last token of a cell, [_read_next_token] moves
    the reader to the next cell of the row and calls itself there, one
    call deeper. *)
Theorem text_end_moves_to_next_cell :
  forall fuel s ws,
    has_text s ->
    current_text_iter (excel_reader s) = Some ws ->
    spaces ws = true ->
    _read_next_token (S fuel) s = _read_next_token fuel (moved s).
Proof.
  intros fuel s ws Hv Hit Hws. cbn [_read_next_token].
  rewrite (bind_Ret _ _ _ _ _ (has_text_content_true s Hv)).
  unfold _process_text_content.
  destruct ws as [|c ws].
  - rewrite (bind_Ret _ _ s None (moved s)); [reflexivity |].
    apply on_reader_Ret. unfold read_next_char, bind at 1, gets at 1.
    rewrite Hit.
    destruct (_move_to_next_cell_returns (excel_reader s)) as ([] & r & E).
    now rewrite (bind_Ret _ _ _ _ _ E), E.
  - cbn in Hws. apply andb_true_iff in Hws as [Hc Hws].
    rewrite (bind_Ret _ _ _ _ _ (read_char_advance _ _ _ Hit)).
    rewrite (bind_Ret _ _ _ _ _ (chars_left_eq _ _ (advance_iter _ s))).
    rewrite (bind_Ret _ _ _ _ _
               (while_isspace_runs_out ws c _ (advance ws s) Hc Hws
                  (advance_iter _ _) (Nat.lt_succ_diag_r _))).
    reflexivity.
Qed.

Lemma text_end_moves_to_next_cell_witness :
  _read_next_token 2 (advance "  " (fresh minimal))
  = _read_next_token 1 (moved (advance "  " (fresh minimal))).
Proof.
  apply (text_end_moves_to_next_cell 1 _ "  ").
  - discriminate.
  - reflexivity.
  - reflexivity.
Defined.

(** X27.  A picture is one token: on a cell without text whose picture
    can be saved, [_read_next_token] moves the reader one cell on and
    keeps as current token what [parse_image] makes of the picture, an
    UNKNOWN token without clef when the file is gone; when the picture
    cannot be saved it moves one cell on and calls itself there. *)
Theorem picture_is_a_token :
  forall fuel s,
    cell_value (current_cell (excel_reader s)) = None ->
    (forall pic,
        image_here (excel_reader s) = Some (Saved pic) ->
        exists tok ip',
          parse_image pic (image_parser s) = Ret tok ip'
          /\ _read_next_token (S fuel) s
             = Ret tt (put_current_token (Some (kept_token tok))
                         (put_image_parser ip' (moved s))))
    /\ (image_here (excel_reader s) = Some Unreadable ->
        _read_next_token (S fuel) s = _read_next_token fuel (moved s)).
Proof.
  intros fuel s Hv.
  assert (on_reader has_text_content s = Ret false s) as Ht.
  { rewrite <- (put_excel_reader_same s) at 2. apply on_reader_Ret.
    unfold has_text_content, bind, gets, ret. now rewrite Hv. }
  assert (forall img, image_here (excel_reader s) = Some img ->
                      on_reader has_image_content s = Ret true s) as Hi.
  { intros img Himg. rewrite <- (put_excel_reader_same s) at 2.
    apply on_reader_Ret.
    unfold has_image_content, bind, gets, ret. now rewrite Himg. }
  assert (forall img, image_here (excel_reader s) = Some img ->
            on_reader read_image s
            = Ret (match img with Saved p => Some p | Unreadable => None end)
                  (moved s)) as Hr.
  { intros img Himg. apply on_reader_Ret.
    destruct (_move_to_next_cell_returns (excel_reader s)) as ([] & r & E).
    unfold read_image, has_image_content, bind, gets, ret. cbv beta.
    rewrite Himg. cbv beta iota delta [negb]. rewrite Himg.
    destruct img; cbv beta iota; now rewrite E. }
  split.
  - intros pic Himg.
    destruct (parse_image_returns pic (image_parser s)) as (tok & ip' & Ep).
    exists tok, ip'. split; [exact Ep |].
    cbn [_read_next_token].
    rewrite (bind_Ret _ _ _ _ _ Ht), (bind_Ret _ _ _ _ _ (Hi _ Himg)).
    unfold _process_image_content.
    rewrite (bind_Ret _ _ _ _ _ (Hr _ Himg)).
    rewrite (bind_Ret _ _ (moved s) tok (put_image_parser ip' (moved s))).
    2:{ unfold on_image_parser, within.
        change (image_parser (moved s)) with (image_parser s).
        now rewrite Ep. }
    now destruct tok.
  - intros Himg. cbn [_read_next_token].
    rewrite (bind_Ret _ _ _ _ _ Ht), (bind_Ret _ _ _ _ _ (Hi _ Himg)).
    unfold _process_image_content.
    now rewrite (bind_Ret _ _ _ _ _ (Hr _ Himg)).
Qed.

Lemma picture_is_a_token_witness :
  exists tok ip',
    parse_image (Matched "Note_CLE_SOL.JPG")
      (image_parser (fresh staff_with_meter)) = Ret tok ip'
    /\ _read_next_token 1 (fresh staff_with_meter)
       = Ret tt (put_current_token (Some (kept_token tok))
                   (put_image_parser ip' (moved (fresh staff_with_meter)))).
Proof.
  destruct (picture_is_a_token 0 (fresh staff_with_meter)) as (H & _).
  - reflexivity.
  - apply (H (Matched "Note_CLE_SOL.JPG")). reflexivity.
Defined.

(** X28.  The distance of two pictures: [get_hash_distance] is defined
    exactly when both pictures have a hash and the two hashes have the
    same size; it does not depend on the order of the two pictures; and
    it is 0 exactly when the hashes are equal. *)
Theorem hash_distance_facts :
  forall image1 image2,
    get_hash_distance image1 image2 = get_hash_distance image2 image1
    /\ (get_hash_distance image1 image2 <> None
        <-> exists h1 h2, image1 = Some h1 /\ image2 = Some h2
                          /\ List.length h1 = List.length h2)
    /\ (get_hash_distance image1 image2 = Some 0
        <-> exists h, image1 = Some h /\ image2 = Some h).
Proof.
  assert (forall h1 h2, count_nonzero h1 h2 = count_nonzero h2 h1) as Hsym.
  { induction h1 as [|b1 h1 IH]; intros [|b2 h2]; try reflexivity.
    cbn. rewrite (IH h2). now destruct b1, b2. }
  intros [h1|] [h2|]; cbn.
  - split; [ | split ].
    + unfold sub. rewrite (Nat.eqb_sym (List.length h2)), Hsym.
      reflexivity.
    + unfold sub. destruct (Nat.eqb_spec (List.length h1) (List.length h2)).
      * split; [intros _; now exists h1, h2 | discriminate].
      * split; [intros H; now contradiction H |].
        intros (a & b & [= <-] & [= <-] & Hl). contradiction.
    + rewrite sub_zero. split; [intros <-; now exists h1 |].
      now intros (h & [= <-] & [= <-]).
  - split; [reflexivity | split; split; try discriminate ].
    + intros H. now contradiction H.
    + intros (a & b & _ & Hb & _). discriminate Hb.
    + intros (h & _ & Hb). discriminate Hb.
  - split; [reflexivity | split; split; try discriminate ].
    + intros H. now contradiction H.
    + intros (a & b & Ha & _). discriminate Ha.
    + intros (h & Ha & _). discriminate Ha.
  - split; [reflexivity | split; split; try discriminate ].
    + intros H. now contradiction H.
    + intros (a & b & Ha & _). discriminate Ha.
    + intros (h & Ha & _). discriminate Ha.
Qed.
